(** * SC.RecordArray: a shallow embedding and its verified properties

    The development follows [frameworks/datastore/system/record_array.js]:
    a record array wraps an array of store keys and a query, accumulates
    the store keys that changed per origin, and reconciles them in [flush].

    Record arrays reference each other (a nested record array knows its
    parents through [query.scope], a parent indexes its nested record
    arrays), so the objects live in an arena indexed by handles and every
    method is a computation over that arena that may throw.

    The status callbacks, the iteration with [forEach] and the observers
    of [storeKeys] are modelled beside the arena, each on the part of the
    object it reads and writes; [SC.JoinRecord], of
    [frameworks/datastore/models/join_record.js], is modelled on its
    own. *)

From Stdlib Require Import ZArith String.
From stdpp Require Import gmap list.

Local Open Scope Z_scope.

(** ** Values of the object model *)

Definition StoreKey := Z.
Definition ViewId := nat.
Definition StoreId := nat.
Definition RecordType := nat.

(** A JavaScript array of store keys: the object identity ([arr_ref], what
    [===] compares) and the elements. *)
Record SCArray := mkArray { arr_ref : nat; arr_elems : list StoreKey }.

(** [SC.IndexSet.create(start, length)]: the range [start, start+length). *)
Record IndexSet := mkIndexSet { is_min : Z; is_length : Z }.

Inductive JSError :=
| TypeError
| StringError (msg : string)
| NOT_EDITABLE.

(** The result of a pure computation that may throw. *)
Inductive Res (A : Type) :=
| Val (a : A)
| Err (e : JSError).
Arguments Val {A} a.
Arguments Err {A} e.

#[global] Instance SCArray_eq_dec : EqDecision SCArray.
Proof. solve_decision. Defined.
#[global] Instance IndexSet_eq_dec : EqDecision IndexSet.
Proof. solve_decision. Defined.

(** ** Array primitives *)

(** [arr[i]]: [None] stands for [undefined], which is what an index below
    zero or past the end reads. *)
Definition js_index (l : list StoreKey) (i : Z) : option StoreKey :=
  if i <? 0 then None else l !! Z.to_nat i.

(** [a == b] on values read from a store key array: numbers compare by
    value, [undefined == undefined], a number never equals [undefined]. *)
Definition js_loose_eq (a b : option StoreKey) : bool :=
  match a, b with
  | None, None => true
  | Some x, Some y => x =? y
  | _, _ => false
  end.

Definition js_length (l : list StoreKey) : Z := Z.of_nat (length l).

(** [a === b] on two references that are either an array or null. *)
Definition same_ref (a b : option SCArray) : bool :=
  match a, b with
  | None, None => true
  | Some x, Some y => Nat.eqb (arr_ref x) (arr_ref y)
  | _, _ => false
  end.

(** The elements behind a possibly absent array. *)
Definition elems_of (a : option SCArray) : list StoreKey :=
  match a with Some x => arr_elems x | None => [] end.

(** ** The differ *)

Module Differ.

(** [while (old[startIdx] == new[startIdx] && startIdx < newLen) startIdx += 1].
    [n] bounds the number of iterations; [scan_forward_exit] shows that the
    bound used by [_findDifferences] is never the reason the loop stops. *)
Fixpoint scan_forward (old new : list StoreKey) (n : nat) (startIdx : Z) : Z :=
  match n with
  | O => startIdx
  | S n' =>
      if js_loose_eq (js_index old startIdx) (js_index new startIdx)
         && (startIdx <? js_length new)
      then scan_forward old new n' (startIdx + 1)
      else startIdx
  end.

(** [while (old[endIdx] == new[endIdx] && endIdx > startIdx) endIdx -= 1]. *)
Fixpoint scan_backward (old new : list StoreKey) (n : nat) (startIdx endIdx : Z) : Z :=
  match n with
  | O => endIdx
  | S n' =>
      if js_loose_eq (js_index old endIdx) (js_index new endIdx)
         && (endIdx >? startIdx)
      then scan_backward old new n' startIdx (endIdx - 1)
      else endIdx
  end.

Definition _findDifferences (oldStoreKeys storeKeys : option SCArray)
  : Res (option IndexSet) :=
  if same_ref oldStoreKeys storeKeys then Val None
  else match oldStoreKeys with
  | None =>
      match storeKeys with
      | None => Val None
      | Some new =>
          if js_length (arr_elems new) =? 0 then Val None
          else Val (Some (mkIndexSet 0 (js_length (arr_elems new))))
      end
  | Some old =>
      match storeKeys with
      | None => Err TypeError
      | Some new =>
          let oldLen := js_length (arr_elems old) in
          let newLen := js_length (arr_elems new) in
          let maxLen := if oldLen >? newLen then oldLen else newLen in
          let startIdx :=
            scan_forward (arr_elems old) (arr_elems new)
                         (S (length (arr_elems new))) 0 in
          let endIdx :=
            scan_backward (arr_elems old) (arr_elems new)
                          (S (length (arr_elems new))) startIdx (newLen - 1) in
          if startIdx <? maxLen then
            Val (Some (mkIndexSet startIdx
                    (if endIdx >=? startIdx then endIdx - startIdx + 1
                     else maxLen - startIdx)))
          else Val None
      end
  end.

(** [A.splice(start, count, ...B.slice(start, start + count))]: the slice
    of [A] at the range replaced by the slice of [B] at the same range. *)
Definition slice (l : list StoreKey) (r : IndexSet) : list StoreKey :=
  take (Z.to_nat (is_length r)) (drop (Z.to_nat (is_min r)) l).

Definition splice_range (A : list StoreKey) (r : IndexSet) (B : list StoreKey)
  : list StoreKey :=
  take (Z.to_nat (is_min r)) A ++ slice B r
    ++ drop (Z.to_nat (is_min r) + Z.to_nat (is_length r)) A.

End Differ.

(** ** Records, queries and change batches *)

(** A materialized [SC.Record]; [record.get('storeKey')] is [rec_storeKey]. *)
Record SCRecord := mkRecord { rec_storeKey : StoreKey }.

(** What a caller may pass where a record is expected. *)
Inductive JSValue :=
| VRecord (r : SCRecord)
| VOther (description : string).

(** [SC.kindOf(value, SC.Record)]. *)
Definition kindOf_Record (x : JSValue) : bool :=
  match x with VRecord _ => true | VOther _ => false end.

Inductive Location := LOCAL | REMOTE.

(** The part of an [SC.Query] the record array reads. [scope] lists the
    [source] record array of every scope item; [query_id] names the query
    for the collaborators that evaluate it. *)
Record Query := mkQuery {
  query_id : nat;
  location : Location;
  q_isEditable : bool;
  scope : option (list ViewId)
}.

(** [SC.guidFor(x)]: distinct objects have distinct guids, and a store is
    never a record array. *)
Inductive Guid :=
| GuidNull
| GuidStore (st : StoreId)
| GuidView (v : ViewId).

#[global] Instance Guid_eq_dec : EqDecision Guid.
Proof. solve_decision. Defined.

#[global] Instance Guid_countable : Countable Guid.
Proof.
  refine (inj_countable'
    (fun g => match g with
              | GuidNull => None
              | GuidStore st => Some (inl st)
              | GuidView v => Some (inr v)
              end)
    (fun o => match o with
              | None => GuidNull
              | Some (inl st) => GuidStore st
              | Some (inr v) => GuidView v
              end) _).
  by intros [].
Defined.

Definition guidFor_store (st : option StoreId) : Guid :=
  match st with Some x => GuidStore x | None => GuidNull end.

(** One entry of [_scra_changedStoreKeys]:
    [{ added: SC.Set, deleted: SC.Set, updated: SC.Set }]. *)
Record ChangeSet := mkChangeSet {
  added : gset StoreKey;
  deleted : gset StoreKey;
  updated : gset StoreKey
}.

Definition empty_ChangeSet : ChangeSet := mkChangeSet ∅ ∅ ∅.

(** What [query.merge] returns. *)
Record QueryResult := mkQueryResult {
  qr_storeKeys : SCArray;
  qr_added : gset StoreKey;
  qr_deleted : gset StoreKey;
  qr_updated : gset StoreKey
}.

(** ** The record array object *)

Record View := mkView {
  store : option StoreId;
  query : option Query;
  enabled : bool;
  nestedRecordArrays : option (list ViewId);
  storeKeys : option SCArray;
  _scra_records : option (list (option SCRecord));
  _scra_changedStoreKeys : option (gmap Guid ChangeSet);
  needsFlush : bool;
  _insideFlush : bool;
  _flushed : bool;
  isDestroyed : bool
}.

Definition set_enabled (b : bool) (v : View) : View :=
  mkView (store v) (query v) b (nestedRecordArrays v) (storeKeys v)
         (_scra_records v) (_scra_changedStoreKeys v) (needsFlush v)
         (_insideFlush v) (_flushed v) (isDestroyed v).
Definition set_nestedRecordArrays (n : option (list ViewId)) (v : View) : View :=
  mkView (store v) (query v) (enabled v) n (storeKeys v)
         (_scra_records v) (_scra_changedStoreKeys v) (needsFlush v)
         (_insideFlush v) (_flushed v) (isDestroyed v).
Definition set_storeKeys (k : option SCArray) (v : View) : View :=
  mkView (store v) (query v) (enabled v) (nestedRecordArrays v) k
         (_scra_records v) (_scra_changedStoreKeys v) (needsFlush v)
         (_insideFlush v) (_flushed v) (isDestroyed v).
Definition set_scra_records (c : option (list (option SCRecord))) (v : View) : View :=
  mkView (store v) (query v) (enabled v) (nestedRecordArrays v) (storeKeys v)
         c (_scra_changedStoreKeys v) (needsFlush v)
         (_insideFlush v) (_flushed v) (isDestroyed v).
Definition set_scra_changedStoreKeys (c : option (gmap Guid ChangeSet)) (v : View) : View :=
  mkView (store v) (query v) (enabled v) (nestedRecordArrays v) (storeKeys v)
         (_scra_records v) c (needsFlush v)
         (_insideFlush v) (_flushed v) (isDestroyed v).
Definition set_needsFlush (b : bool) (v : View) : View :=
  mkView (store v) (query v) (enabled v) (nestedRecordArrays v) (storeKeys v)
         (_scra_records v) (_scra_changedStoreKeys v) b
         (_insideFlush v) (_flushed v) (isDestroyed v).
Definition set_insideFlush (b : bool) (v : View) : View :=
  mkView (store v) (query v) (enabled v) (nestedRecordArrays v) (storeKeys v)
         (_scra_records v) (_scra_changedStoreKeys v) (needsFlush v)
         b (_flushed v) (isDestroyed v).
Definition set_flushed (b : bool) (v : View) : View :=
  mkView (store v) (query v) (enabled v) (nestedRecordArrays v) (storeKeys v)
         (_scra_records v) (_scra_changedStoreKeys v) (needsFlush v)
         (_insideFlush v) b (isDestroyed v).
Definition set_isDestroyed (b : bool) (v : View) : View :=
  mkView (store v) (query v) (enabled v) (nestedRecordArrays v) (storeKeys v)
         (_scra_records v) (_scra_changedStoreKeys v) (needsFlush v)
         (_insideFlush v) (_flushed v) b.

(** ** Observable effects *)

Inductive Event :=
| EvMerge (v : ViewId) (old : option SCArray)
          (changed : option (gmap Guid ChangeSet)) (result : QueryResult)
| EvArrayContentWillChange (v : ViewId) (start removed added : Z)
| EvArrayContentDidChange (v : ViewId) (start removed added : Z)
| EvRemoveArrayObservers (v : ViewId) (arr : SCArray)
| EvRecordArrayWillDestroy (parent child : ViewId)
| EvStoreRecordArrayWillDestroy (st : StoreId) (v : ViewId)
| EvStoreRetrieveRecord (st : StoreId) (k : StoreKey)
| EvStoreRefreshQuery (st : StoreId) (q : Query)
| EvStoreKeysReplace (v : ViewId) (idx amt : Z) (keys : list StoreKey)
| EvLoggerWarn (method : string) (x : JSValue).

(** The arena of record arrays and the effects observed so far, oldest
    first. *)
Record State := mkState {
  views : gmap ViewId View;
  trace : list Event
}.

(** ** Computations over the arena *)

Inductive Outcome (A : Type) :=
| Ok (a : A) (s : State)
| Throw (e : JSError) (s : State)
| OutOfFuel.
Arguments Ok {A} a s.
Arguments Throw {A} e s.
Arguments OutOfFuel {A}.

Definition M (A : Type) : Type := State → Outcome A.

Definition ret {A} (a : A) : M A := fun s => Ok a s.

Definition bind {A B} (m : M A) (f : A → M B) : M B :=
  fun s => match m s with
           | Ok a s' => f a s'
           | Throw e s' => Throw e s'
           | OutOfFuel => OutOfFuel
           end.

Notation "'do' x <- m ; k" := (bind m (fun x => k))
  (at level 10, x name, m at level 100, k at level 200).
Notation "m ;;; k" := (bind m (fun _ => k))
  (at level 100, k at level 200, right associativity).

Definition throw {A} (e : JSError) : M A := fun s => Throw e s.
Definition out_of_fuel {A} : M A := fun _ => OutOfFuel.
Definition get_state : M State := fun s => Ok s s.
Definition emit (e : Event) : M unit :=
  fun s => Ok tt (mkState (views s) (trace s ++ [e])).

(** Dereferencing a handle; a method call on a reference that holds no
    object is a [TypeError]. *)
Definition get_view (v : ViewId) : M View :=
  fun s => match views s !! v with
           | Some x => Ok x s
           | None => Throw TypeError s
           end.

Definition modify_view (v : ViewId) (f : View → View) : M unit :=
  fun s => match views s !! v with
           | Some x => Ok tt (mkState (<[v := f x]> (views s)) (trace s))
           | None => Throw TypeError s
           end.

Definition lift_res {A} (r : Res A) : M A :=
  match r with Val a => ret a | Err e => throw e end.

(** [list.forEach(f)] and [set.invoke(method)] over the members present
    when the call starts. *)
Fixpoint forEach {A} (l : list A) (f : A → M unit) : M unit :=
  match l with
  | [] => ret tt
  | x :: l' => f x ;;; forEach l' f
  end.

(** The state an outcome leaves behind, whether it returned or threw. *)
Definition outcome_state {A} (o : Outcome A) : option State :=
  match o with
  | Ok _ s => Some s
  | Throw _ s => Some s
  | OutOfFuel => None
  end.

(** ** The materialization cache as a JavaScript array *)

Module Cache.

(** [recs[i] = x]; writing past the end grows the array with holes. *)
Definition set_at (recs : list (option SCRecord)) (i : Z) (x : option SCRecord)
  : list (option SCRecord) :=
  if i <? 0 then recs
  else
    let n := Z.to_nat i in
    if (n <? length recs)%nat then <[n := x]> recs
    else recs ++ replicate (n - length recs)%nat None ++ [x].

(** [recs[i]]: a hole, [null] and [undefined] are all [None]. *)
Definition get_at (recs : list (option SCRecord)) (i : Z) : option SCRecord :=
  if i <? 0 then None else mjoin (recs !! Z.to_nat i).

(** [recs.length = n]: truncates, or grows with holes. *)
Definition set_length (recs : list (option SCRecord)) (n : Z)
  : list (option SCRecord) :=
  resize (Z.to_nat n) None recs.

(** [differenceSet.forEach(function(index) { recordCache[index] = null; })]. *)
Definition clear_range (recs : list (option SCRecord)) (r : IndexSet)
  : list (option SCRecord) :=
  foldl (fun c i => set_at c i None) recs (seqZ (is_min r) (is_length r)).

End Cache.

(** ** External collaborators

    The query evaluator, the store and the array primitives of the
    framework are consumed through their interfaces only. *)

Class Collaborators := {
  (** [query.merge(oldStoreKeys, changedStoreKeys, recordArray)], which may
      read every record array of the arena through [recordArray]. *)
  merge : gmap ViewId View → Query → option SCArray →
          option (gmap Guid ChangeSet) → ViewId → QueryResult;
  (** [query.containsRecordTypes(recordTypes)] *)
  containsRecordTypes : Query → list RecordType → bool;
  (** [storeKeys.indexOf(storeKey, startAt)] *)
  array_indexOf : list StoreKey → StoreKey → option Z → Z;
  (** [storeKeys.lastIndexOf(storeKey, startAt)] *)
  array_lastIndexOf : list StoreKey → StoreKey → option Z → Z;
  (** [storeKeys.replace(idx, amt, keys)] *)
  array_replace : list StoreKey → Z → Z → list StoreKey → list StoreKey;
  (** [store.peekStatus(storeKey) === SC.Record.EMPTY] *)
  store_isEmpty : StoreId → StoreKey → bool
}.

(** ** The methods of SC.RecordArray *)

Module RecordArray.
Section Methods.

Context `{!Collaborators}.

(** Modelled from the spec: [SC.Set] is not part of the sources; the
    nested record arrays are a set of handles, where adding a member
    twice is a no-op. *)
Definition Set_add (x : ViewId) (l : list ViewId) : list ViewId :=
  if decide (x ∈ l) then l else l ++ [x].

Definition Set_remove (x : ViewId) (l : list ViewId) : list ViewId :=
  filter (fun y => y ≠ x) l.

Definition scope_sources (q : option Query) : list ViewId :=
  match q with
  | Some q' => default [] (scope q')
  | None => []
  end.

Definition is_LOCAL (l : Location) : bool :=
  match l with LOCAL => true | REMOTE => false end.

(** [isEditable]: the query decides; without a query the record array is
    editable. *)
Definition isEditable (self : View) : bool :=
  match query self with
  | Some q => q_isEditable q
  | None => true
  end.

Definition _notifyStoreKeyChanges (this : ViewId) (oldStoreKeys : option SCArray)
    (newStoreKeys : SCArray) (differenceSet : IndexSet) : M unit :=
  let newLen := js_length (arr_elems newStoreKeys) in
  let oldLen := match oldStoreKeys with
                | Some old => js_length (arr_elems old)
                | None => 0
                end in
  let firstDifference := is_min differenceSet in
  do self <- get_view this;
  match _scra_records self with
  | Some recordCache =>
      modify_view this (set_scra_records
        (Some (Cache.set_length (Cache.clear_range recordCache differenceSet) newLen)))
  | None => ret tt
  end ;;;
  emit (EvArrayContentDidChange this firstDifference
          (oldLen - firstDifference) (newLen - firstDifference)).

(** [changed.added.addEach(added)] and its siblings on the entry of
    [_scra_changedStoreKeys] for [guid], which is created when missing. *)
Definition merge_into (guid : Guid) (a d u : gset StoreKey)
    (changedStoreKeys : option (gmap Guid ChangeSet)) : gmap Guid ChangeSet :=
  let all := default ∅ changedStoreKeys in
  let changed := default empty_ChangeSet (all !! guid) in
  <[guid := mkChangeSet (added changed ∪ a) (deleted changed ∪ d)
                        (updated changed ∪ u)]> all.

Definition parentDidChangeStoreKeys (this : ViewId)
    (added deleted updated : gset StoreKey) (parent : ViewId) : M unit :=
  let parentGuid := GuidView parent in
  if (size added + size deleted + size updated =? 0)%nat then ret tt
  else
    modify_view this (fun self =>
      set_scra_changedStoreKeys
        (Some (merge_into parentGuid added deleted updated
                          (_scra_changedStoreKeys self))) self).

(** The body of [flush] once the parents are up to date: merge, diff,
    notify, and hand the relevant changes to the nested record arrays. *)
Definition flush_merge (this : ViewId) (q : Query) (_flush : bool) : M unit :=
  modify_view this (set_flushed true) ;;;
  do self <- get_view this;
  let storeKeys := storeKeys self in
  do s <- get_state;
  let queryResult :=
    merge (views s) q (if _flush then None else storeKeys)
          (_scra_changedStoreKeys self) this in
  emit (EvMerge this (if _flush then None else storeKeys)
                (_scra_changedStoreKeys self) queryResult) ;;;
  modify_view this (set_scra_changedStoreKeys None) ;;;
  let newStoreKeys := qr_storeKeys queryResult in
  do differenceSet <- lift_res (Differ._findDifferences storeKeys (Some newStoreKeys));
  match differenceSet with
  | Some ds =>
      modify_view this (set_storeKeys (Some newStoreKeys)) ;;;
      _notifyStoreKeyChanges this storeKeys newStoreKeys ds
  | None => ret tt
  end ;;;
  do self' <- get_view this;
  match nestedRecordArrays self' with
  | Some nested =>
      forEach nested (fun child =>
        parentDidChangeStoreKeys child (qr_added queryResult)
          (qr_deleted queryResult) (qr_updated queryResult) this)
  | None => ret tt
  end.

(** [flush], after its guards: the parents are flushed through
    [flush_parent], then the pending changes are merged. *)
Definition flush_local (flush_parent : ViewId → M unit) (this : ViewId)
    (_flush : bool) (self : View) : M unit :=
  match store self, query self with
  | Some _, Some q =>
      if is_LOCAL (location q) then
        modify_view this (set_insideFlush true) ;;;
        forEach (scope_sources (Some q)) flush_parent ;;;
        do self' <- get_view this;
        (if bool_decide (is_Some (_scra_changedStoreKeys self'))
            || negb (_flushed self')
         then flush_merge this q _flush
         else ret tt) ;;;
        modify_view this (set_insideFlush false)
      else ret tt
  | _, _ => ret tt
  end.

(** [flush(_flush)]. The recursion into the parents is bounded by
    [fuel]; [flush_returns] gives a bound that always suffices. *)
Fixpoint flush (fuel : nat) (this : ViewId) (_flush : bool) : M unit :=
  match fuel with
  | O => out_of_fuel
  | S fuel' =>
      do self <- get_view this;
      if negb (needsFlush self) && negb _flush then ret tt
      else if negb (enabled self) then ret tt
      else if _insideFlush self then ret tt
      else
        modify_view this (set_needsFlush false) ;;;
        flush_local (fun source => flush fuel' source false) this _flush self
  end.

Definition reload (fuel : nat) (this : ViewId) : M unit :=
  flush fuel this true.

Definition refresh (this : ViewId) : M unit :=
  do self <- get_view this;
  match store self, query self with
  | Some st, Some q => emit (EvStoreRefreshQuery st q)
  | _, _ => throw TypeError
  end.

(** [length]: flushes, then reads the length of [storeKeys]. *)
Definition length (fuel : nat) (this : ViewId) : M Z :=
  flush fuel this false ;;;
  do self <- get_view this;
  ret (match storeKeys self with
       | Some a => js_length (arr_elems a)
       | None => 0
       end).

(** [objectAt(idx)]: the record materialized for index [idx];
    [store.materializeRecord(storeKey)] is the record of that key. *)
Definition objectAt (fuel : nat) (this : ViewId) (idx : Z) : M (option SCRecord) :=
  flush fuel this false ;;;
  do self <- get_view this;
  match storeKeys self, store self with
  | Some keys, Some st =>
      match _scra_records self ≫= (fun recs => Cache.get_at recs idx) with
      | Some cached => ret (Some cached)
      | None =>
          let recs := default [] (_scra_records self) in
          modify_view this (set_scra_records (Some recs)) ;;;
          match js_index (arr_elems keys) idx with
          | Some storeKey =>
              if storeKey =? 0 then ret None
              else
                (if store_isEmpty st storeKey
                 then emit (EvStoreRetrieveRecord st storeKey)
                 else ret tt) ;;;
                modify_view this (set_scra_records
                  (Some (Cache.set_at recs idx (Some (mkRecord storeKey))))) ;;;
                ret (Some (mkRecord storeKey))
          | None => ret None
          end
      end
  | _, _ => ret None
  end.

(** [replace(idx, amt, recs)]. The content observers that
    [storeKeys.replace] may trigger belong to the framework; the edit is
    recorded as an effect. *)
Definition replace (fuel : nat) (this : ViewId) (idx amt : Z)
    (recs : option (list SCRecord)) : M unit :=
  flush fuel this false ;;;
  do self <- get_view this;
  match storeKeys self with
  | None =>
      throw (StringError
        "Unable to edit an SC.RecordArray that does not have its storeKeys property set.")
  | Some arr =>
      if negb (isEditable self) then throw NOT_EDITABLE
      else
        let keys := rec_storeKey <$> default [] recs in
        modify_view this (set_storeKeys
          (Some (mkArray (arr_ref arr)
                         (array_replace (arr_elems arr) idx amt keys)))) ;;;
        emit (EvStoreKeysReplace this idx amt keys)
  end.

Definition indexOf (fuel : nat) (this : ViewId) (record : JSValue)
    (startAt : option Z) : M Z :=
  match record with
  | VOther _ =>
      emit (EvLoggerWarn "indexOf" record) ;;;
      ret (-1)
  | VRecord r =>
      flush fuel this false ;;;
      do self <- get_view this;
      ret (match storeKeys self with
           | Some arr => array_indexOf (arr_elems arr) (rec_storeKey r) startAt
           | None => -1
           end)
  end.

Definition lastIndexOf (fuel : nat) (this : ViewId) (record : JSValue)
    (startAt : option Z) : M Z :=
  match record with
  | VOther _ =>
      emit (EvLoggerWarn "lastIndexOf" record) ;;;
      ret (-1)
  | VRecord r =>
      flush fuel this false ;;;
      do self <- get_view this;
      ret (match storeKeys self with
           | Some arr => array_lastIndexOf (arr_elems arr) (rec_storeKey r) startAt
           | None => -1
           end)
  end.

Definition contains (fuel : nat) (this : ViewId) (record : JSValue) : M bool :=
  do i <- indexOf fuel this record None;
  ret (i >=? 0).

Definition recordArrayWillDestroy (this recordArray : ViewId) : M unit :=
  emit (EvRecordArrayWillDestroy this recordArray) ;;;
  modify_view this (fun self =>
    match nestedRecordArrays self with
    | Some nested =>
        set_nestedRecordArrays (Some (Set_remove recordArray nested)) self
    | None => self
    end).

(** Modelled from the spec: [sc_super()] of [destroy] reaches
    [SC.Object.destroy], which is not part of the sources; it is guarded
    so that a second call is a no-op and marks the object destroyed. *)
Definition Object_destroy (this : ViewId) : M unit :=
  do self <- get_view this;
  if isDestroyed self then ret tt
  else modify_view this (set_isDestroyed true).

Fixpoint destroy (fuel : nat) (this : ViewId) : M unit :=
  match fuel with
  | O => out_of_fuel
  | S fuel' =>
      do self <- get_view this;
      (if negb (isDestroyed self) then
         let parents := scope_sources (query self) in
         let storeKeys := storeKeys self in
         let len := match storeKeys with
                    | Some arr => js_length (arr_elems arr)
                    | None => 0
                    end in
         forEach parents (fun source => recordArrayWillDestroy source this) ;;;
         (* the set object read at the start, with the members it holds now *)
         do self' <- get_view this;
         match nestedRecordArrays self' with
         | Some nested => forEach nested (destroy fuel')
         | None => ret tt
         end ;;;
         match store self with
         | Some st => emit (EvStoreRecordArrayWillDestroy st this)
         | None => throw TypeError
         end ;;;
         modify_view this (fun self' =>
           match _scra_records self' with
           | Some _ => set_scra_records (Some []) self'
           | None => self'
           end) ;;;
         match storeKeys with
         | Some arr =>
             emit (EvRemoveArrayObservers this arr) ;;;
             emit (EvArrayContentWillChange this 0 len 0) ;;;
             emit (EvArrayContentDidChange this 0 len 0)
         | None => ret tt
         end
       else ret tt) ;;;
      Object_destroy this
  end.

Fixpoint parentDidBecomeDirty (fuel : nat) (this : ViewId) : M unit :=
  match fuel with
  | O => out_of_fuel
  | S fuel' =>
      do self <- get_view this;
      let nestedRecordArrays := nestedRecordArrays self in
      modify_view this (set_needsFlush true) ;;;
      match nestedRecordArrays with
      | Some nested => forEach nested (parentDidBecomeDirty fuel')
      | None => ret tt
      end
  end.

Definition storeDidChangeStoreKeys (fuel : nat) (this : ViewId)
    (storeKeys : list StoreKey) (recordTypes : list RecordType) : M unit :=
  do self <- get_view this;
  match query self with
  | None => throw TypeError
  | Some query =>
      let storeGuid := guidFor_store (store self) in
      if negb (is_LOCAL (location query)) then ret tt
      else if negb (containsRecordTypes query recordTypes) then ret tt
      else if js_length storeKeys =? 0 then ret tt
      else
        modify_view this (fun self' =>
          set_scra_changedStoreKeys
            (Some (merge_into storeGuid ∅ ∅ (list_to_set storeKeys)
                              (_scra_changedStoreKeys self'))) self') ;;;
        parentDidBecomeDirty fuel this
  end.

Definition registerNestedRecordArray (this child : ViewId) : M unit :=
  modify_view this (fun self =>
    set_nestedRecordArrays
      (Some (Set_add child (default [] (nestedRecordArrays self)))) self).

Definition registerWithParents (this : ViewId) : M unit :=
  do self <- get_view this;
  match query self ≫= scope with
  | Some parents =>
      forEach parents (fun source => registerNestedRecordArray source this)
  | None => throw TypeError
  end.

Fixpoint flushFromLeafs (fuel : nat) (this : ViewId) : M unit :=
  match fuel with
  | O => out_of_fuel
  | S fuel' =>
      do self <- get_view this;
      match nestedRecordArrays self with
      | Some nested => forEach nested (flushFromLeafs fuel')
      | None => flush fuel' this false
      end
  end.

Definition enable (fuel : nat) (this : ViewId) : M unit :=
  do self <- get_view this;
  if enabled self then ret tt
  else
    modify_view this (set_enabled true) ;;;
    flushFromLeafs fuel this.

Definition disable (this : ViewId) : M unit :=
  modify_view this (set_enabled false).

(** ** The calls a client, the store or a parent can make *)

Inductive Call :=
| CallFlush (this : ViewId) (_flush : bool)
| CallLength (this : ViewId)
| CallObjectAt (this : ViewId) (idx : Z)
| CallReplace (this : ViewId) (idx amt : Z) (recs : option (list SCRecord))
| CallIndexOf (this : ViewId) (record : JSValue) (startAt : option Z)
| CallLastIndexOf (this : ViewId) (record : JSValue) (startAt : option Z)
| CallRefresh (this : ViewId)
| CallDestroy (this : ViewId)
| CallRecordArrayWillDestroy (this recordArray : ViewId)
| CallEnable (this : ViewId)
| CallDisable (this : ViewId)
| CallStoreDidChangeStoreKeys (this : ViewId) (storeKeys : list StoreKey)
                              (recordTypes : list RecordType)
| CallParentDidBecomeDirty (this : ViewId)
| CallRegisterWithParents (this : ViewId)
| CallRegisterNestedRecordArray (this child : ViewId)
| CallParentDidChangeStoreKeys (this : ViewId) (added deleted updated : gset StoreKey)
                               (parent : ViewId)
| CallFlushFromLeafs (this : ViewId).

Definition run (fuel : nat) (c : Call) : M unit :=
  match c with
  | CallFlush this f => flush fuel this f
  | CallLength this => length fuel this ;;; ret tt
  | CallObjectAt this idx => objectAt fuel this idx ;;; ret tt
  | CallReplace this idx amt recs => replace fuel this idx amt recs
  | CallIndexOf this r st => indexOf fuel this r st ;;; ret tt
  | CallLastIndexOf this r st => lastIndexOf fuel this r st ;;; ret tt
  | CallRefresh this => refresh this
  | CallDestroy this => destroy fuel this
  | CallRecordArrayWillDestroy this r => recordArrayWillDestroy this r
  | CallEnable this => enable fuel this
  | CallDisable this => disable this
  | CallStoreDidChangeStoreKeys this k t => storeDidChangeStoreKeys fuel this k t
  | CallParentDidBecomeDirty this => parentDidBecomeDirty fuel this
  | CallRegisterWithParents this => registerWithParents this
  | CallRegisterNestedRecordArray this c => registerNestedRecordArray this c
  | CallParentDidChangeStoreKeys this a d u p => parentDidChangeStoreKeys this a d u p
  | CallFlushFromLeafs this => flushFromLeafs fuel this
  end.

(** A record array as [SC.RecordArray.create] leaves it: no change
    recorded yet. *)
Definition fresh (self : View) : Prop := _scra_changedStoreKeys self = None.

(** The states the arena can be in: record arrays are created, and calls
    are made on them; a call that throws leaves the state it reached. *)
Inductive reachable : State → Prop :=
| reachable_init s :
    map_Forall (fun _ self => fresh self) (views s) → reachable s
| reachable_create s v self :
    reachable s → views s !! v = None → fresh self →
    reachable (mkState (<[v := self]> (views s)) (trace s))
| reachable_call s fuel c s' :
    reachable s → outcome_state (run fuel c s) = Some s' → reachable s'.

End Methods.
End RecordArray.

(** ** The status of the record array

    [status] is a property of its own: the store callbacks read and write
    it and nothing else, and no other method of the record array reads
    it. *)

Module Status.

(** The status constants of [SC.Record] that the record array reads.
    [models/record.js], which defines them, is not part of the sources:
    they are parameters. *)
Class RecordStatus := {
  EMPTY : Z;
  ERROR : Z;
  READY : Z;
  READY_CLEAN : Z;
  BUSY_LOADING : Z;
  BUSY_REFRESH : Z
}.

(** [ToInt32]: the operands of [&] are read as 32-bit signed integers. *)
Definition to_int32 (n : Z) : Z :=
  let m := n mod 2 ^ 32 in
  if m >=? 2 ^ 31 then m - 2 ^ 32 else m.

(** [a & b]. *)
Definition js_band (a b : Z) : Z := Z.land (to_int32 a) (to_int32 b).

(** A number in a condition: every number but 0 is true. *)
Definition js_truthy (n : Z) : bool := negb (n =? 0).

Section Callbacks.
Context `{!RecordStatus}.

(** Each callback is given as the status it leaves, from the status it
    finds; [setIfChanged('status', status)] stores it. *)
Definition storeWillFetchQuery (status : Z) : Z :=
  let status :=
    if (status =? EMPTY) || (status =? ERROR) then BUSY_LOADING else status in
  let status :=
    if js_truthy (js_band status READY) then BUSY_REFRESH else status in
  status.


Definition storeDidCancelQuery (status : Z) : Z :=
  if status =? BUSY_LOADING then EMPTY
  else if status =? BUSY_REFRESH then READY_CLEAN
  else status.




End Callbacks.

End Status.

(** ** SC.JoinRecord

    [models/join_record.js], and the variant of the same class that the
    sources hold without a name, which has no [preferredRecord]. *)

Module JoinRecord.

(** The primitive values a property of a record holds. *)
Inductive JSVal :=
| JUndefined
| JNull
| JBool (b : bool)
| JNum (n : Z)
| JStr (s : string).

#[global] Instance JSVal_eq_dec : EqDecision JSVal.
Proof. solve_decision. Defined.

(** [a === b] on primitive values (a number is an integer here). *)
Definition strict_eq (a b : JSVal) : bool := bool_decide (a = b).

(** [SC.none(a)]: [a] is [null] or [undefined]. *)
Definition SC_none (a : JSVal) : bool :=
  match a with JUndefined | JNull => true | _ => false end.

Definition defined (a : JSVal) : bool :=
  match a with JUndefined => false | _ => true end.

(** [SC.Record] is not part of the sources: a record is what [get] and
    [set] make of it. *)
Class Records := {
  Rec : Type;
  rec_get : Rec → string → JSVal;
  rec_set : Rec → string → JSVal → Rec
}.

Definition RecordId := nat.

(** [joinType]: [SC.Query.JOIN_TYPE_LEFT], another join type, or [null]. *)
Inductive JoinType := JOIN_TYPE_LEFT | JOIN_TYPE_OTHER | JOIN_TYPE_NULL.

#[global] Instance JoinType_eq_dec : EqDecision JoinType.
Proof. solve_decision. Defined.

(** What [preferredRecord] names: ['leftRecord'], ['rightRecord'], or
    another property of the join record, with the record that property
    holds, if any. *)
Inductive Preferred :=
| PreferLeft
| PreferRight
| PreferOther (held : option RecordId).

Record Join := mkJoin {
  leftRecord : option RecordId;
  rightRecord : option RecordId;
  leftJoinKey : string;
  rightJoinKey : string;
  preferredRecord : Preferred;
  joinType : JoinType
}.

Section Methods.
Context `{!Records}.

(** The records live in a heap: the left and the right record may be the
    same object. *)
Definition Heap := RecordId → Rec.

Definition heap_set (h : Heap) (r : RecordId) (x : Rec) : Heap :=
  fun r' => if decide (r' = r) then x else h r'.

(** [record ? record.get(key) : undefined]. *)
Definition get_of (h : Heap) (record : option RecordId) (key : string) : JSVal :=
  match record with
  | Some r => rec_get (h r) key
  | None => JUndefined
  end.

(** [record.set(key, value)]. *)
Definition set_of (h : Heap) (record : option RecordId) (key : string)
    (value : JSVal) : Heap :=
  match record with
  | Some r => heap_set h r (rec_set (h r) key value)
  | None => h
  end.

(** [this.get(preferredRecord)]. *)
Definition primaryRecord (j : Join) : option RecordId :=
  match preferredRecord j with
  | PreferLeft => leftRecord j
  | PreferRight => rightRecord j
  | PreferOther held => held
  end.

(** [this.get(preferredRecord === 'leftRecord' ? 'rightRecord' : 'leftRecord')]. *)
Definition secondaryRecord (j : Join) : option RecordId :=
  match preferredRecord j with
  | PreferLeft => rightRecord j
  | _ => leftRecord j
  end.

(** [unknownProperty(key, value)] of [join_record.js]: the value it
    returns and the heap it leaves. A read passes [undefined] for
    [value]. *)
Definition unknownProperty (j : Join) (key : string) (value : JSVal) (h : Heap)
  : JSVal * Heap :=
  let primaryValue := get_of h (primaryRecord j) key in
  let secondaryValue := get_of h (secondaryRecord j) key in
  let h' :=
    if defined value then
      if defined primaryValue then set_of h (primaryRecord j) key value
      else if defined secondaryValue then set_of h (secondaryRecord j) key value
      else h
    else h in
  (if defined primaryValue then primaryValue else secondaryValue, h').

(** [unknownProperty(key, value)] of the variant without
    [preferredRecord]. *)
Definition unknownProperty_left (j : Join) (key : string) (value : JSVal)
    (h : Heap) : JSVal * Heap :=
  let leftValue := get_of h (leftRecord j) key in
  let rightValue := get_of h (rightRecord j) key in
  let h' :=
    if defined value then
      if defined leftValue then set_of h (leftRecord j) key value
      else if defined rightValue then set_of h (rightRecord j) key value
      else h
    else h in
  (if defined leftValue then leftValue else rightValue, h').

(** [recordsMatch()]; a join record without its left or right record
    throws. *)
Definition recordsMatch (j : Join) (h : Heap) : Res bool :=
  match leftRecord j, rightRecord j with
  | Some l, Some r =>
      let leftKey := rec_get (h l) (leftJoinKey j) in
      let rightKey := rec_get (h r) (rightJoinKey j) in
      if strict_eq leftKey rightKey then Val true
      else if negb (SC_none leftKey) && SC_none rightKey
              && bool_decide (joinType j = JOIN_TYPE_LEFT)
      then Val true
      else Val false
  | _, _ => Err TypeError
  end.

(** The join record with its sides exchanged. *)
Definition swap (j : Join) : Join :=
  mkJoin (rightRecord j) (leftRecord j) (rightJoinKey j) (leftJoinKey j)
         (match preferredRecord j with
          | PreferLeft => PreferRight
          | PreferRight => PreferLeft
          | other => other
          end)
         (joinType j).

End Methods.

End JoinRecord.

(** ** Iteration *)

Module Iteration.
Section Methods.
Context `{!Collaborators}.

(** The loop of [forEach] from index [idx] on, over the store keys that
    are left: the cache it leaves and the calls it makes, each as the
    record and the index passed to the callback. *)
Fixpoint visit (keys : list StoreKey) (idx : Z) (recs : list (option SCRecord))
  : list (option SCRecord) * list (SCRecord * Z) :=
  match keys with
  | [] => (recs, [])
  | storeKey :: keys' =>
      let '(rec, recs1) :=
        match Cache.get_at recs idx with
        | Some rec => (rec, recs)
        | None => (mkRecord storeKey,
                   Cache.set_at recs idx (Some (mkRecord storeKey)))
        end in
      let '(recs2, calls) := visit keys' (idx + 1) recs1 in
      (recs2, (rec, idx) :: calls)
  end.

(** [forEach(callback, target)]. The callback is observed through its
    calls, which are returned in order; it is taken not to call back into
    the record array. *)
Definition forEach (fuel : nat) (this : ViewId) : M (list (SCRecord * Z)) :=
  RecordArray.flush fuel this false ;;;
  do self <- get_view this;
  match storeKeys self, store self with
  | Some keys, Some _ =>
      let recs := default [] (_scra_records self) in
      let '(recs', calls) := visit (arr_elems keys) 0 recs in
      modify_view this (set_scra_records (Some recs')) ;;;
      ret calls
  | _, _ => ret []
  end.

End Methods.
End Iteration.

(** ** Observing [storeKeys]

    The observers of the record array on its [storeKeys] array. Arrays are
    named by their identity here, since [_prevStoreKeys] keeps a reference
    to an array whose length is read later. *)

Module Observers.

Definition ArrayRef := nat.

(** What [storeKeys] and [_prevStoreKeys] hold: [undefined], [null] or an
    array. *)
Inductive Held :=
| HUndefined
| HNull
| HArray (arr : ArrayRef).

#[global] Instance Held_eq_dec : EqDecision Held.
Proof. solve_decision. Defined.

(** The part of the record array these methods read and write. *)
Record Observing := mkObserving {
  ob_storeKeys : Held;
  _prevStoreKeys : Held;
  ob_scra_records : option (list (option SCRecord))
}.

Inductive ObserverEvent :=
| ObRemoveArrayObservers (arr : ArrayRef)
| ObAddArrayObservers (arr : ArrayRef)
| ObArrayContentDidChange (start removed added : Z).

(** [_storeKeysContentDidChange(start, removedCount, addedCount)]. *)
Definition _storeKeysContentDidChange (o : Observing) (start removed added : Z)
  : Observing * list ObserverEvent :=
  (mkObserving (ob_storeKeys o) (_prevStoreKeys o)
     (match ob_scra_records o with Some _ => Some [] | None => None end),
   [ObArrayContentDidChange start removed added]).

(** [_storeKeysDidChange()]; [length_of] gives the length each array has
    when the method runs. *)
Definition _storeKeysDidChange (length_of : ArrayRef → Z) (o : Observing)
  : Observing * list ObserverEvent :=
  let storeKeys := ob_storeKeys o in
  let prev := _prevStoreKeys o in
  if bool_decide (storeKeys = prev) then (o, [])
  else
    let '(removed, oldLen) :=
      match prev with
      | HArray p => ([ObRemoveArrayObservers p], length_of p)
      | _ => ([], 0)
      end in
    let o1 := mkObserving storeKeys storeKeys (ob_scra_records o) in
    let '(added, newLen) :=
      match storeKeys with
      | HArray k => ([ObAddArrayObservers k], length_of k)
      | _ => ([], 0)
      end in
    let '(o2, notified) := _storeKeysContentDidChange o1 0 oldLen newLen in
    (o2, removed ++ added ++ notified).

(** [storeKeys] is assigned and its observer, [_storeKeysDidChange],
    fires. *)
Definition assign (o : Observing) (step : Held * (ArrayRef → Z))
  : Observing * list ObserverEvent :=
  _storeKeysDidChange (snd step)
    (mkObserving (fst step) (_prevStoreKeys o) (ob_scra_records o)).

Fixpoint assign_all (o : Observing) (steps : list (Held * (ArrayRef → Z)))
  : Observing * list ObserverEvent :=
  match steps with
  | [] => (o, [])
  | step :: steps' =>
      let '(o1, events1) := assign o step in
      let '(o2, events2) := assign_all o1 steps' in
      (o2, events1 ++ events2)
  end.

(** The arrays that carry the observers of the record array, given the
    ones that did and the calls made since. *)
Definition observed (arrays : gset ArrayRef) (events : list ObserverEvent)
  : gset ArrayRef :=
  foldl (fun w e =>
           match e with
           | ObRemoveArrayObservers a => w ∖ {[a]}
           | ObAddArrayObservers a => w ∪ {[a]}
           | _ => w
           end) arrays events.

Definition holding (h : Held) : gset ArrayRef :=
  match h with HArray a => {[a]} | _ => ∅ end.

End Observers.

(** * The vocabulary of the properties *)

Module Vocabulary.
Import RecordArray.

(** [m] relates every state it starts from to the state it leaves
    behind, whether it returns or throws. *)
Definition respects {A} (R : relation State) (m : M A) : Prop :=
  ∀ s s', outcome_state (m s) = Some s' → R s s'.

(** A relation on states given view by view, with a condition on the
    effects added to the trace. *)
Definition lift (Rv : ViewId → relation View) (Pe : Event → Prop)
  : relation State :=
  fun s s' =>
    (∀ w, option_Forall2 (Rv w) (views s !! w) (views s' !! w))
    ∧ ∃ t, trace s' = trace s ++ t ∧ Forall Pe t.

(** A relation that only has to hold from the states satisfying [Pre],
    and then re-establishes [Pre]. *)
Definition guarded (Pre : State → Prop) (R : relation State)
  : relation State :=
  fun s s' => Pre s → R s s' ∧ Pre s'.

(** Every record array named by [skip] is inside a flush. *)
Definition skipped_inside (skip : ViewId → Prop) (s : State) : Prop :=
  ∀ v, skip v → ∃ x, views s !! v = Some x ∧ _insideFlush x = true.

(** What a flush does while the record arrays named by [skip] stay
    inside a flush of their own: [Rv] view by view, [Pe] on the effects. *)
Definition flush_frame (Rv : ViewId → relation View) (Pe : Event → Prop)
    (skip : ViewId → Prop) : relation State :=
  guarded (skipped_inside skip) (lift Rv Pe).

(** A relation on record arrays that every write of a flush respects:
    the flags, the batches, [storeKeys] and the cache. *)
Definition flush_steps (Rv : relation View) : Prop :=
  ∀ x,
    Rv x (set_needsFlush false x)
    ∧ (∀ b, Rv x (set_insideFlush b x))
    ∧ Rv x (set_flushed true x)
    ∧ Rv x (set_scra_changedStoreKeys None x)
    ∧ (∀ k, Rv x (set_storeKeys (Some k) x))
    ∧ (∀ c, Rv x (set_scra_records (Some c) x))
    ∧ (∀ p a d u,
         Rv x (set_scra_changedStoreKeys
                 (Some (merge_into (GuidView p) a d u
                                   (_scra_changedStoreKeys x))) x)).

Definition any_event (e : Event) : Prop := True.
Definition no_view (v : ViewId) : Prop := False.

(** The fields a flush never writes. *)
Definition same_shape (x x' : View) : Prop :=
  store x' = store x ∧ query x' = query x
  ∧ nestedRecordArrays x' = nestedRecordArrays x
  ∧ enabled x' = enabled x ∧ isDestroyed x' = isDestroyed x.

(** [needsFlush] is never raised. *)
Definition needsFlush_le (x x' : View) : Prop :=
  needsFlush x' = true → needsFlush x = true.

(** The scope graph is well-founded and every handle stored in the arena
    refers to a record array of the arena. *)
Record well_formed (depth : ViewId → nat) (s : State) : Prop := {
  wf_scope : ∀ v x q p,
    views s !! v = Some x → query x = Some q → p ∈ scope_sources (Some q) →
    is_Some (views s !! p) ∧ (depth p < depth v)%nat;
  wf_nested : ∀ v x nested c,
    views s !! v = Some x → nestedRecordArrays x = Some nested → c ∈ nested →
    is_Some (views s !! c)
}.

(** What [parentDidChangeStoreKeys(added, deleted, updated, parent)]
    leaves in a nested record array. *)
Definition seed (a d u : gset StoreKey) (parent : ViewId) (x : View) : View :=
  if (size a + size d + size u =? 0)%nat then x
  else set_scra_changedStoreKeys
         (Some (merge_into (GuidView parent) a d u (_scra_changedStoreKeys x))) x.

Definition seed_all (nested : list ViewId) (a d u : gset StoreKey)
    (parent : ViewId) (vs : gmap ViewId View) : gmap ViewId View :=
  foldl (fun m c => alter (seed a d u parent) c m) vs nested.

(** The record array after the merge section of [flush], before the nested
    record arrays are told. *)
Definition merged_view (self : View) (new : SCArray) (r : option IndexSet) : View :=
  let x := set_scra_changedStoreKeys None (set_flushed true self) in
  match r with
  | Some ds =>
      match _scra_records self with
      | Some recs =>
          set_scra_records
            (Some (Cache.set_length (Cache.clear_range recs ds)
                                    (js_length (arr_elems new))))
            (set_storeKeys (Some new) x)
      | None => set_storeKeys (Some new) x
      end
  | None => x
  end.

Definition merged_events (v : ViewId) (self : View) (new : SCArray)
    (r : option IndexSet) : list Event :=
  match r with
  | Some ds =>
      [EvArrayContentDidChange v (is_min ds)
         (match storeKeys self with
          | Some old => js_length (arr_elems old)
          | None => 0
          end - is_min ds)
         (js_length (arr_elems new) - is_min ds)]
  | None => []
  end.

Definition changes_le (cs cs' : ChangeSet) : Prop :=
  added cs ⊆ added cs' ∧ deleted cs ⊆ deleted cs' ∧ updated cs ⊆ updated cs'.

(** The changes recorded for origin [g]; none recorded is no change. *)
Definition batch_at (g : Guid) (x : View) : ChangeSet :=
  default empty_ChangeSet (default ∅ (_scra_changedStoreKeys x) !! g).

(** Every batch of [b] is still in [b'], possibly with more keys. *)
Definition batches_le (b b' : option (gmap Guid ChangeSet)) : Prop :=
  ∀ m, b = Some m →
    ∃ m', b' = Some m'
      ∧ ∀ g cs, m !! g = Some cs → ∃ cs', m' !! g = Some cs' ∧ changes_le cs cs'.

(** The record array is as it was, except that its batches grew. *)
Definition only_batches_grow (x x' : View) : Prop :=
  x' = set_scra_changedStoreKeys (_scra_changedStoreKeys x') x
  ∧ batches_le (_scra_changedStoreKeys x) (_scra_changedStoreKeys x').

(** The effects that are made on behalf of record array [v]. *)
Definition about (v : ViewId) (e : Event) : Prop :=
  match e with
  | EvMerge w _ _ _ | EvArrayContentWillChange w _ _ _
  | EvArrayContentDidChange w _ _ _ | EvRemoveArrayObservers w _
  | EvStoreKeysReplace w _ _ _ | EvStoreRecordArrayWillDestroy _ w => w = v
  | _ => False
  end.

Definition is_view (c : ViewId) (v : ViewId) : Prop := v = c.

(** While [c] is inside its flush: [c] only gains batches, and nothing
    is done on its behalf. *)
Definition inside_frame (c : ViewId) : ViewId → relation View :=
  fun w x x' => w = c → only_batches_grow x x'.

(** While [p] is inside its flush: no record array gains changes of
    origin [p]. *)
Definition origin_frame (p : ViewId) : ViewId → relation View :=
  fun w x x' =>
    changes_le (batch_at (GuidView p) x') (batch_at (GuidView p) x)
    ∧ (w = p → _insideFlush x = true → _insideFlush x' = true).

(** Record array [c] is inside a flush. *)
Definition inside (c : ViewId) (s : State) : Prop :=
  ∃ x, views s !! c = Some x ∧ _insideFlush x = true.

(** The state in which a flush that passes its guards merges: the
    parents have been flushed, the record array itself is as it was
    apart from its flags and the batches it gained. *)
Definition entered (self : View) (b : option (gmap Guid ChangeSet)) : View :=
  set_scra_changedStoreKeys b
    (set_insideFlush true (set_needsFlush false self)).

Definition merges (self : View) (b : option (gmap Guid ChangeSet)) : bool :=
  bool_decide (is_Some b) || negb (_flushed self).

(** [storeKeys], once set, stays set. *)
Definition storeKeys_set (x x' : View) : Prop :=
  is_Some (storeKeys x) → is_Some (storeKeys x').

(** The content-changed notifications fired on behalf of [v], each as
    (start, removed, added). *)
Fixpoint notifications_of (v : ViewId) (t : list Event) : list (Z * Z * Z) :=
  match t with
  | [] => []
  | EvArrayContentDidChange w a b c :: t' =>
      if decide (w = v) then (a, b, c) :: notifications_of v t'
      else notifications_of v t'
  | _ :: t' => notifications_of v t'
  end.

(** A call [flush(f)] on [self] gets past every guard: the record array
    is dirty or the flush is forced, it is enabled, it is not inside a
    flush, and it has a store and a local query. *)
Definition reconciles (self : View) (f : bool) (q : Query) : Prop :=
  negb (needsFlush self) && negb f = false
  ∧ enabled self = true ∧ _insideFlush self = false
  ∧ is_Some (store self) ∧ query self = Some q ∧ location q = LOCAL.

Definition nonempty_result (qr : QueryResult) : Prop :=
  (size (qr_added qr) + size (qr_deleted qr) + size (qr_updated qr))%nat ≠ 0%nat.

Definition result_changes (qr : QueryResult) : ChangeSet :=
  mkChangeSet (qr_added qr) (qr_deleted qr) (qr_updated qr).

Definition changes_union (a b : ChangeSet) : ChangeSet :=
  mkChangeSet (added a ∪ added b) (deleted a ∪ deleted b) (updated a ∪ updated b).

(** [d] is [v] or a record array nested, at any depth, in [v]. *)
Inductive descendant (s : State) : ViewId → ViewId → Prop :=
| descendant_self v : descendant s v v
| descendant_nested v x nested c d :
    views s !! v = Some x → nestedRecordArrays x = Some nested → c ∈ nested →
    descendant s c d → descendant s v d.

(** The nesting is well-founded and every nested handle refers to a
    record array of the arena. *)
Definition ranked (height : ViewId → nat) (s : State) : Prop :=
  ∀ v x nested c,
    views s !! v = Some x → nestedRecordArrays x = Some nested → c ∈ nested →
    is_Some (views s !! c) ∧ (height c < height v)%nat.

(** The record array is as it was, or has been marked dirty. *)
Definition marked (x x' : View) : Prop :=
  x' = x ∨ x' = set_needsFlush true x.

(** The nested record arrays are the same. *)
Definition same_nesting (x x' : View) : Prop :=
  nestedRecordArrays x' = nestedRecordArrays x.

Definition dirty (s : State) (v : ViewId) : Prop :=
  ∃ x, views s !! v = Some x ∧ needsFlush x = true.

(** The origins that stand for the store: its guid, or the guid of no
    store at all. *)
Definition store_origin (g : Guid) : Prop :=
  match g with GuidView _ => False | _ => True end.

(** In every batch of store origin only [updated] holds keys. *)
Definition updated_only (x : View) : Prop :=
  ∀ m g cs, _scra_changedStoreKeys x = Some m → m !! g = Some cs →
            store_origin g → added cs = ∅ ∧ deleted cs = ∅.

Definition keeps_updated_only (x x' : View) : Prop :=
  updated_only x → updated_only x'.

Definition store_batches_updated_only (s : State) : Prop :=
  map_Forall (fun _ x => updated_only x) (views s).

(** Conditions under which every call preserves a relation: it may depend
    on the batches only. *)
Definition batch_steps (Rv : relation View) : Prop :=
  (∀ x x', _scra_changedStoreKeys x' = _scra_changedStoreKeys x → Rv x x')
  ∧ (∀ x, Rv x (set_scra_changedStoreKeys None x))
  ∧ (∀ x p a d u,
       Rv x (set_scra_changedStoreKeys
               (Some (merge_into (GuidView p) a d u (_scra_changedStoreKeys x))) x))
  ∧ (∀ x st keys,
       Rv x (set_scra_changedStoreKeys
               (Some (merge_into (guidFor_store st) ∅ ∅ (list_to_set keys)
                                 (_scra_changedStoreKeys x))) x)).

Definition nested_sub (n' n : option (list ViewId)) : Prop :=
  match n', n with
  | None, None => True
  | Some l', Some l => l' ⊆ l
  | _, _ => False
  end.

(** What [destroy] may change in a record array: nested record arrays
    deregister, the cache is emptied, the record array becomes destroyed. *)
Definition destroy_order (x x' : View) : Prop :=
  store x' = store x ∧ query x' = query x
  ∧ (isDestroyed x = true → isDestroyed x' = true)
  ∧ nested_sub (nestedRecordArrays x') (nestedRecordArrays x).

Definition destroyed (s : State) (v : ViewId) : Prop :=
  ∃ x, views s !! v = Some x ∧ isDestroyed x = true.

(** The arena [destroy] expects: handles refer to record arrays, scopes and
    nesting are well-founded, every record array has its store. *)
Definition destroyable (depth height : ViewId → nat) (s : State) : Prop :=
  well_formed depth s ∧ ranked height s
  ∧ ∀ v x, views s !! v = Some x → is_Some (store x).

Definition deregistrations (v : ViewId) (parents : list ViewId) : list Event :=
  (fun p => EvRecordArrayWillDestroy p v) <$> parents.

Definition told_store (t : list Event) (w : ViewId) : Prop :=
  ∃ st, EvStoreRecordArrayWillDestroy st w ∈ t.

(** The batches passed to [merge] on behalf of [v], in order. *)
Fixpoint merge_calls (v : ViewId) (t : list Event)
  : list (option (gmap Guid ChangeSet)) :=
  match t with
  | [] => []
  | EvMerge w _ ch _ :: t' =>
      if decide (w = v) then ch :: merge_calls v t' else merge_calls v t'
  | _ :: t' => merge_calls v t'
  end.

(** The state a call leaves. *)
Definition after (m : M unit) (s : State) : State :=
  default s (outcome_state (m s)).

End Vocabulary.

(** ** A concrete store and query evaluator *)

Module Demo.
Import RecordArray.

(** A query evaluator whose result is always [[1, 4, 3]], with key 4
    added and key 2 deleted. *)
Definition merged : QueryResult :=
  mkQueryResult (mkArray 100 [1; 4; 3]) {[4]} {[2]} ∅.

Fixpoint find_from (l : list StoreKey) (k : StoreKey) (i : Z) : Z :=
  match l with
  | [] => -1
  | x :: l' => if x =? k then i else find_from l' k (i + 1)
  end.

Fixpoint find_last (l : list StoreKey) (k : StoreKey) (i found : Z) : Z :=
  match l with
  | [] => found
  | x :: l' => find_last l' k (i + 1) (if x =? k then i else found)
  end.

(** The query evaluator, and arrays searched from their first index. *)
#[export] Instance collaborators : Collaborators := {
  merge := fun _ _ _ _ _ => merged;
  containsRecordTypes := fun _ _ => true;
  array_indexOf := fun l k _ => find_from l k 0;
  array_lastIndexOf := fun l k _ => find_last l k 0 (-1);
  array_replace := fun l idx amt keys =>
    take (Z.to_nat idx) l ++ keys ++ drop (Z.to_nat idx + Z.to_nat amt) l;
  store_isEmpty := fun _ _ => false
}.

Definition local_query : Query := mkQuery 0 LOCAL false None.

Definition scoped_query (parent : ViewId) : Query :=
  mkQuery 1 LOCAL false (Some [parent]).

(** A record array over [[1, 2, 3]] with a full cache, as created. *)
Definition dirty_view : View :=
  mkView (Some 0%nat) (Some local_query) true None
         (Some (mkArray 1 [1; 2; 3]))
         (Some [Some (mkRecord 1); Some (mkRecord 2); Some (mkRecord 3)])
         None true false false false.

(** The same record array once it has been flushed. *)
Definition clean_view : View := set_flushed true (set_needsFlush false dirty_view).

(** The same record array in the middle of a flush. *)
Definition inside_view : View := set_insideFlush true dirty_view.

(** An arena of one record array, with handle 0. *)
Definition single (x : View) : State := mkState (<[0%nat := x]> ∅) [].

(** [x] as a record array scoped from record array 0. *)
Definition child_view (x : View) : View :=
  mkView (store x) (Some (scoped_query 0%nat)) (enabled x) None (storeKeys x)
         (_scra_records x) (_scra_changedStoreKeys x) (needsFlush x)
         (_insideFlush x) (_flushed x) (isDestroyed x).

(** Record array 0 with the nested record array 1, which is scoped
    from it. *)
Definition family (parent child : View) : State :=
  mkState (<[0%nat := set_nestedRecordArrays (Some [1%nat]) parent]>
             (<[1%nat := child_view child]> ∅)) [].

(** Record array 1, scoped from 0, with the nested record arrays 2 and 3. *)
Definition tree : State :=
  mkState
    (<[0%nat := set_nestedRecordArrays (Some [1%nat]) clean_view]>
       (<[1%nat := set_nestedRecordArrays (Some [2%nat; 3%nat])
                     (child_view clean_view)]>
          (<[2%nat := mkView (Some 0%nat) (Some (scoped_query 1%nat)) true None
                             None None None false false true false]>
             (<[3%nat := mkView (Some 0%nat) (Some (scoped_query 1%nat)) true None
                                None None None false false true false]> ∅))))
    [].

End Demo.

Module VocabularyMore.
Import RecordArray Vocabulary.

(** Every record array of the arena satisfies [P]. *)
Definition all_views (P : View → Prop) (s : State) : Prop :=
  map_Forall (fun _ x => P x) (views s).

(** The cache holds, at every index, nothing or the record of the store
    key that [storeKeys] holds at that index. *)
Definition coherent (x : View) : Prop :=
  ∀ recs i r, _scra_records x = Some recs → Cache.get_at recs i = Some r →
              js_index (elems_of (storeKeys x)) i = Some (rec_storeKey r).

End VocabularyMore.

Module VocabularyAccess.
Import RecordArray Vocabulary.

(** A record array on which an unforced flush returns at one of its
    guards: it needs no flush, or is disabled, or is inside a flush. *)
Definition idle (x : View) : Prop :=
  needsFlush x = false ∨ enabled x = false ∨ _insideFlush x = true.

End VocabularyAccess.

Module VocabularyLeafs.
Import RecordArray Vocabulary VocabularyAccess.



End VocabularyLeafs.

Module VocabularyNesting.
Import RecordArray Vocabulary.

(** [c] is registered with [x] as a nested record array. *)
Definition nested_in (c : ViewId) (x : View) : Prop :=
  c ∈ default [] (nestedRecordArrays x).

End VocabularyNesting.

(** ** The status constants of SproutCore *)

Module StatusDemo.
Import Status.

(** The values SproutCore gives the constants; the properties of the
    callbacks do not depend on them. *)
Definition sproutcore_status : RecordStatus := {|
  EMPTY := 256; ERROR := 4096; READY := 512; READY_CLEAN := 513;
  BUSY_LOADING := 2052; BUSY_REFRESH := 2080
|}.

End StatusDemo.

(** ** Records to join *)

Module JoinRecordDemo.
Import JoinRecord.

(** Records as finite maps from keys to values; a key without an entry
    reads [undefined]. *)
Definition map_records : Records := {|
  Rec := gmap string JSVal;
  rec_get := fun rec key => default JUndefined (rec !! key);
  rec_set := fun rec key value => <[key := value]> rec
|}.

(** A left record with a [name], a right record with an [age]. *)
Definition people : @Heap map_records :=
  fun r => if decide (r = 0%nat) then {[ "name"%string := JStr "Ada" ]}
           else {[ "age"%string := JNum 36 ]}.

Definition pair_join : Join :=
  mkJoin (Some 0%nat) (Some 1%nat) "id" "id" PreferLeft JOIN_TYPE_OTHER.

End JoinRecordDemo.

Module VocabularyIteration.

(** The cache agrees with [keys] from index [idx] on. *)
Definition agrees (keys : list StoreKey) (idx : Z) (recs : list (option SCRecord))
  : Prop :=
  ∀ (i : nat) r, Cache.get_at recs (idx + Z.of_nat i) = Some r →
                 keys !! i = Some (rec_storeKey r).

End VocabularyIteration.

(** ** More record arrays to run the methods on *)

Module DemoStates.
Import RecordArray Demo.

(** The record array of [dirty_view] over a remote query. *)
Definition remote_view : View :=
  mkView (Some 0%nat) (Some (mkQuery 2 REMOTE false None)) true None
         (Some (mkArray 1 [1; 2; 3])) None None true false false false.

(** The record array once it has been disabled. *)
Definition disabled_view : View := set_enabled false dirty_view.

(** The record array once its nested record arrays are gone. *)
Definition emptied_view : View := set_nestedRecordArrays (Some []) dirty_view.

(** Record array 1, scoped from record array 0 and not yet registered
    with it. *)
Definition unregistered : State :=
  mkState (<[0%nat := clean_view]> (<[1%nat := child_view clean_view]> ∅)) [].

End DemoStates.

(** * Properties *)

(** ** The differ *)

Module DifferFacts.
Import Differ.

Lemma js_loose_eq_true a b : js_loose_eq a b = true ↔ a = b.
Proof.
  destruct a as [x|], b as [y|]; simpl; try (split; congruence).
  rewrite Z.eqb_eq. split; congruence.
Qed.

Lemma js_index_Some l i k :
  js_index l i = Some k → 0 ≤ i < js_length l.
Proof.
  unfold js_index, js_length. destruct (Z.ltb_spec i 0); [done|].
  intros Hl%lookup_lt_Some. lia.
Qed.

Lemma js_index_nat l (n : nat) : js_index l (Z.of_nat n) = l !! n.
Proof.
  unfold js_index. destruct (Z.ltb_spec (Z.of_nat n) 0); [lia|].
  by rewrite Nat2Z.id.
Qed.

Lemma js_index_in_range l i :
  0 ≤ i < js_length l → is_Some (js_index l i).
Proof.
  unfold js_index, js_length. intros H.
  destruct (Z.ltb_spec i 0); [lia|].
  apply lookup_lt_is_Some. lia.
Qed.

(** The forward scan stops at the first index where the arrays differ,
    or at the length of the new array. *)
Lemma scan_forward_spec old new n s :
  0 ≤ s ≤ js_length new →
  (Z.to_nat (js_length new - s) < n)%nat →
  let r := scan_forward old new n s in
  s ≤ r ≤ js_length new
  ∧ (∀ i, s ≤ i < r → js_index old i = js_index new i)
  ∧ (r < js_length new → js_index old r ≠ js_index new r).
Proof.
  revert s. induction n as [|n IH]; intros s Hs Hn; [lia|].
  simpl.
  destruct (js_loose_eq (js_index old s) (js_index new s)) eqn:He; simpl.
  - destruct (Z.ltb_spec s (js_length new)) as [Hlt|Hge].
    + destruct (IH (s + 1)) as (Hr & Hagree & Hstop); [lia|lia|].
      split; [lia|]. split; [|done].
      intros i Hi. destruct (decide (i = s)) as [->|].
      * by apply js_loose_eq_true.
      * apply Hagree. lia.
    + split; [lia|]. split; [intros; lia|lia].
  - split; [lia|]. split; [intros; lia|].
    intros _ Heq. apply js_loose_eq_true in Heq. congruence.
Qed.

(** The backward scan stops at the last index of the new array where
    the arrays differ, and never crosses [startIdx]. *)
Lemma scan_backward_spec old new n p e :
  (Z.to_nat (e - p) < n)%nat →
  let r := scan_backward old new n p e in
  r ≤ e
  ∧ (p ≤ e → p ≤ r)
  ∧ (e < p → r = e)
  ∧ (∀ i, r < i ≤ e → js_index old i = js_index new i)
  ∧ (p < r → js_index old r ≠ js_index new r).
Proof.
  revert e. induction n as [|n IH]; intros e Hn; [lia|].
  simpl.
  destruct (js_loose_eq (js_index old e) (js_index new e)) eqn:He; simpl.
  - destruct (Z.gtb_spec e p) as [Hgt|Hle].
    + destruct (IH (e - 1)) as (Hr & Hlo & _ & Hagree & Hstop); [lia|].
      split; [lia|]. split; [lia|]. split; [lia|]. split; [|done].
      intros i Hi. destruct (decide (i = e)) as [->|].
      * by apply js_loose_eq_true.
      * apply Hagree. lia.
    + repeat split; intros; lia.
  - repeat split; try (intros; lia).
    intros _ Heq. apply js_loose_eq_true in Heq. congruence.
Qed.

Lemma agree_take (A B : list StoreKey) (n : nat) :
  (∀ i, (i < n)%nat → A !! i = B !! i) → take n A = take n B.
Proof.
  intros H. apply list_eq. intros i.
  destruct (decide (i < n)%nat).
  - rewrite !lookup_take_lt by done. by apply H.
  - rewrite !lookup_take_ge by lia. done.
Qed.

Lemma agree_drop (A B : list StoreKey) (a : nat) :
  (∀ i, (a ≤ i < length B)%nat → A !! i = B !! i) →
  take (length B - a) (drop a A) = drop a B.
Proof.
  intros H. apply list_eq. intros i. rewrite lookup_drop.
  destruct (decide (i < length B - a)%nat).
  - rewrite lookup_take_lt by done. rewrite lookup_drop. apply H. lia.
  - rewrite lookup_take_ge by lia. symmetry. apply lookup_ge_None. lia.
Qed.

Lemma agree_length (A B : list StoreKey) (i : nat) :
  (i < length B)%nat → A !! i = B !! i → (i < length A)%nat.
Proof.
  intros Hi Heq. apply lookup_lt_is_Some. rewrite Heq.
  by apply lookup_lt_is_Some.
Qed.

(** What the two scans of [_findDifferences] establish. *)
Lemma scans_spec (A B : list StoreKey) :
  let p := scan_forward A B (S (length B)) 0 in
  let q := scan_backward A B (S (length B)) p (js_length B - 1) in
  0 ≤ p ≤ js_length B
  ∧ p ≤ js_length A
  ∧ (∀ i : nat, Z.of_nat i < p → A !! i = B !! i)
  ∧ (p < js_length B → A !! Z.to_nat p ≠ B !! Z.to_nat p)
  ∧ (p < js_length B → p ≤ q < js_length B)
  ∧ (p = js_length B → q = p - 1)
  ∧ (∀ i : nat, q < Z.of_nat i < js_length B → A !! i = B !! i).
Proof.
  intros p q.
  destruct (scan_forward_spec A B (S (length B)) 0) as (Hp & Hpre & Hstop);
    [unfold js_length; lia|unfold js_length; lia|].
  fold p in Hp, Hpre, Hstop.
  destruct (scan_backward_spec A B (S (length B)) p (js_length B - 1))
    as (Hq & Hlo & Hsame & Hsuf & _); [unfold js_length; lia|].
  fold q in Hq, Hlo, Hsame, Hsuf.
  assert (Hpre' : ∀ i : nat, Z.of_nat i < p → A !! i = B !! i).
  { intros i Hi. rewrite <- !js_index_nat. apply Hpre. lia. }
  split; [done|]. split.
  { destruct (decide (p = 0)) as [->|]; [unfold js_length; lia|].
    assert (Z.to_nat (p - 1) < length A)%nat; [|unfold js_length; lia].
    apply (agree_length A B); [unfold js_length in *; lia|].
    apply Hpre'. lia. }
  split; [done|]. split.
  { intros Hlt. specialize (Hstop Hlt).
    rewrite <- (Z2Nat.id p) in Hstop by lia.
    by rewrite !js_index_nat in Hstop. }
  split; [lia|]. split; [lia|].
  intros i Hi. rewrite <- !js_index_nat. apply Hsuf. lia.
Qed.

(** The loop path of [_findDifferences], for two distinct arrays. *)
Lemma loop_none (A B : list StoreKey) :
  let p := scan_forward A B (S (length B)) 0 in
  let maxLen := if js_length A >? js_length B then js_length A else js_length B in
  (p <? maxLen) = false ↔ A = B.
Proof.
  intros p maxLen.
  destruct (scans_spec A B) as (Hp & HpA & Hpre & Hstop & _).
  fold p in Hp, HpA, Hpre, Hstop.
  subst maxLen. rewrite Z.ltb_ge. split.
  - intros Hge.
    assert (p = js_length B ∧ js_length A ≤ js_length B) as [HpB HAB].
    { destruct (Z.gtb_spec (js_length A) (js_length B)); lia. }
    apply list_eq. intros i.
    destruct (decide (Z.of_nat i < p)); [by apply Hpre|].
    rewrite !lookup_ge_None_2; [done|unfold js_length in *; lia..].
  - intros ->. destruct (Z.gtb_spec (js_length B) (js_length B)); [lia|].
    destruct (decide (p < js_length B)); [|lia].
    by destruct Hstop.
Qed.

Lemma loop_splice (A B : list StoreKey) :
  let p := scan_forward A B (S (length B)) 0 in
  let q := scan_backward A B (S (length B)) p (js_length B - 1) in
  let maxLen := if js_length A >? js_length B then js_length A else js_length B in
  let r := mkIndexSet p (if q >=? p then q - p + 1 else maxLen - p) in
  p < maxLen →
  take (length B) (splice_range A r B) = B
  ∧ (splice_range A r B = B ↔ (length A ≤ length B)%nat ∨ p = js_length B).
Proof.
  intros p q maxLen r Hlt.
  destruct (scans_spec A B) as (Hp & HpA & Hpre & Hstop & Hq & Hq' & Hsuf).
  fold p in Hp, HpA, Hpre, Hstop, Hq, Hq', Hsuf.
  fold q in Hq, Hq', Hsuf.
  assert (Htake : take (Z.to_nat p) A = take (Z.to_nat p) B).
  { apply agree_take. intros i Hi. apply Hpre. lia. }
  unfold splice_range, slice, r; simpl. rewrite Htake.
  destruct (decide (p = js_length B)) as [HpB|HpB].
  - (* the new array is a prefix of the old one *)
    rewrite (Hq' HpB). destruct (Z.geb_spec (p - 1) p) as [|_]; [lia|].
    assert (HmaxA : maxLen = js_length A).
    { subst maxLen. destruct (Z.gtb_spec (js_length A) (js_length B)); lia. }
    rewrite HmaxA.
    rewrite (drop_ge B) by (unfold js_length in *; lia).
    rewrite (drop_ge A) by (unfold js_length in *; lia).
    rewrite take_nil, !app_nil_r.
    rewrite (take_ge B (Z.to_nat p)) by (unfold js_length in *; lia).
    split; [apply take_ge; lia|]. split; [by right|done].
  - (* a difference inside the new array *)
    destruct Hq as [Hq1 Hq2]; [lia|].
    destruct (Z.geb_spec q p) as [_|]; [|lia].
    rewrite app_assoc, take_take_drop.
    replace (Z.to_nat p + Z.to_nat (q - p + 1))%nat with (Z.to_nat (q + 1)) by lia.
    set (n := Z.to_nat (q + 1)).
    assert (Hn : (n ≤ length B)%nat) by (unfold js_length in *; lia).
    assert (Hsuf' : take (length B - n) (drop n A) = drop n B).
    { apply agree_drop. intros i Hi. apply Hsuf. unfold js_length. lia. }
    split.
    + rewrite take_app, length_take_le by done.
      rewrite (take_ge (take n B)) by (rewrite length_take; lia).
      rewrite Hsuf'. apply take_drop.
    + split.
      * intros Heq. left. apply (f_equal length) in Heq.
        rewrite length_app, length_take_le, length_drop in Heq by done.
        lia.
      * intros [Hle|]; [|done].
        assert (drop n A = drop n B) as ->; [|apply take_drop].
        rewrite <- Hsuf'. symmetry. apply take_ge. rewrite length_drop. lia.
Qed.

Lemma loop_old_empty (B : list StoreKey) :
  let p := scan_forward [] B (S (length B)) 0 in
  let q := scan_backward [] B (S (length B)) p (js_length B - 1) in
  p = 0 ∧ (js_length B ≠ 0 → q = js_length B - 1).
Proof.
  intros p q.
  destruct (scans_spec [] B) as (Hp & HpA & _ & _ & Hq & _ & Hsuf).
  fold p in Hp, HpA, Hq, Hsuf. fold q in Hq, Hsuf.
  unfold js_length in HpA; simpl in HpA.
  split; [lia|]. intros HB.
  destruct (decide (q = js_length B - 1)) as [|Hne]; [done|exfalso].
  specialize (Hsuf (Z.to_nat (js_length B - 1))).
  rewrite lookup_nil in Hsuf.
  assert (is_Some (B !! Z.to_nat (js_length B - 1))) as [k Hk].
  { apply lookup_lt_is_Some. unfold js_length in *. lia. }
  rewrite Hk in Hsuf. unfold js_length in *. discriminate Hsuf. lia.
Qed.

(** C1 (as amended): [_findDifferences(A, B)] returns none exactly when
    [A] and [B] are the same object or hold the same elements; an absent
    or empty [A] gives the full range of a non-empty [B], and none
    otherwise. Whenever a range is returned, replacing the slice of [A] at
    that range by the slice of [B] at the same range and cutting the
    result to the length of [B] reproduces [B]; without the cut it
    reproduces [B] exactly when [A] is not longer than [B] or the range
    starts at the length of [B] (then [B] is a prefix of [A]). *)
Theorem findDifferences_correct (A : option SCArray) (B : SCArray) :
  (_findDifferences A (Some B) = Val None
     ↔ same_ref A (Some B) = true ∨ elems_of A = arr_elems B)
  ∧ (same_ref A (Some B) = false → elems_of A = [] →
       _findDifferences A (Some B)
       = Val (if js_length (arr_elems B) =? 0 then None
              else Some (mkIndexSet 0 (js_length (arr_elems B)))))
  ∧ (∀ r, _findDifferences A (Some B) = Val (Some r) →
       take (length (arr_elems B)) (splice_range (elems_of A) r (arr_elems B))
         = arr_elems B
       ∧ (splice_range (elems_of A) r (arr_elems B) = arr_elems B
            ↔ (length (elems_of A) ≤ length (arr_elems B))%nat
               ∨ is_min r = js_length (arr_elems B))).
Proof.
  unfold _findDifferences.
  destruct (same_ref A (Some B)) eqn:Href.
  { split; [split; [by left|done]|]. split; [done|]. intros r [=]. }
  destruct A as [old|]; cbn [elems_of]; cbv zeta.
  - destruct (_ <? _) eqn:Hlt;
      pose proof (loop_none (arr_elems old) (arr_elems B)) as Hnone;
      pose proof (loop_splice (arr_elems old) (arr_elems B)) as Hsplice;
      cbv zeta in Hnone, Hsplice.
    + split.
      { split; [intros [=]|]. intros [[=]|Heq].
        apply Hnone in Heq. congruence. }
      split.
      { intros _ Hnil. rewrite Hnil in *.
        destruct (loop_old_empty (arr_elems B)) as [Hp Hq].
        cbv zeta in Hp, Hq. rewrite Hp in *.
        apply Z.ltb_lt in Hlt. change (js_length []) with 0 in Hlt.
        destruct (Z.gtb_spec 0 (js_length (arr_elems B))) as [HB|HB];
          [unfold js_length in HB; lia|].
        destruct (Z.eqb_spec (js_length (arr_elems B)) 0); [lia|].
        rewrite Hq by done.
        destruct (Z.geb_spec (js_length (arr_elems B) - 1) 0); [|lia].
        do 3 f_equal. lia. }
      intros r [= <-]. apply Hsplice. by apply Z.ltb_lt.
    + split.
      { split; [intros _; right; by apply Hnone|done]. }
      split.
      { intros _ Hnil. apply Hnone in Hlt. rewrite <- Hlt, Hnil. reflexivity. }
      intros r [=].
  - split.
    { destruct (Z.eqb_spec (js_length (arr_elems B)) 0) as [H0|H0].
      - split; [intros _; right|done].
        destruct (arr_elems B); [done|]. unfold js_length in H0. simpl in H0. lia.
      - split; [intros [=]|]. intros [[=]|Heq]. simpl in Heq.
        rewrite <- Heq in H0. by destruct H0. }
    split; [intros _ _; by destruct (_ =? _)|].
    intros r. destruct (Z.eqb_spec (js_length (arr_elems B)) 0) as [H0|H0]; [intros [=]|].
    intros [= <-]. unfold splice_range, slice; simpl.
    change (Z.to_nat 0) with 0%nat.
    rewrite drop_0, drop_nil, app_nil_r.
    rewrite (take_ge (arr_elems B)) by (unfold js_length; lia).
    split; [apply take_ge; lia|]. split; [intros _; left; lia|done].
Qed.

(** C1, counterexample: for [A = [5, 1]] and [B = [1]] the range is
    [0, 1), and replacing that slice of [A] gives [[1, 1]], not [B]. *)
Lemma findDifferences_splice_counterexample :
  ∃ r, _findDifferences (Some (mkArray 1 [5; 1])) (Some (mkArray 2 [1]))
         = Val (Some r)
       ∧ splice_range [5; 1] r [1] ≠ [1].
Proof.
  exists (mkIndexSet 0 1). split; [reflexivity|].
  vm_compute. discriminate.
Qed.

(** An empty [A] against [[7, 8]], and [[1, 2, 3, 4]] against
    [[1, 9, 3]]. *)
Lemma findDifferences_correct_witness :
  same_ref (Some (mkArray 1 [])) (Some (mkArray 2 [7; 8])) = false
  ∧ _findDifferences (Some (mkArray 1 [])) (Some (mkArray 2 [7; 8]))
    = Val (Some (mkIndexSet 0 2))
  ∧ take 3 (splice_range [1; 2; 3; 4] (mkIndexSet 1 1) [1; 9; 3]) = [1; 9; 3].
Proof.
  split; [reflexivity|]. split.
  - apply (proj1 (proj2
      (findDifferences_correct (Some (mkArray 1 [])) (mkArray 2 [7; 8]))));
      reflexivity.
  - apply (proj2 (proj2
      (findDifferences_correct (Some (mkArray 1 [1; 2; 3; 4]))
                               (mkArray 2 [1; 9; 3])))).
    reflexivity.
Defined.

End DifferFacts.

(** ** Relational reasoning about computations *)

Module Effects.
Import Vocabulary.

Section Lift.
Context (Rv : ViewId → relation View) (Pe : Event → Prop).
Context `{!∀ w, PreOrder (Rv w)}.

#[export] Instance lift_preorder : PreOrder (lift Rv Pe).
Proof.
  split.
  - intros s. split; [intros w; reflexivity|].
    exists []. by rewrite app_nil_r.
  - intros s1 s2 s3 [Hv1 (t1 & Ht1 & HP1)] [Hv2 (t2 & Ht2 & HP2)].
    split; [intros w; etrans; [apply Hv1|apply Hv2]|].
    exists (t1 ++ t2). rewrite Ht2, Ht1, app_assoc.
    split; [done|]. by apply Forall_app.
Qed.

Lemma respects_modify_view v f :
  (∀ x, Rv v x (f x)) → respects (lift Rv Pe) (modify_view v f).
Proof.
  intros Hf s s'. unfold modify_view.
  destruct (views s !! v) as [x|] eqn:Hx; simpl; intros [= <-];
    [|reflexivity].
  split; simpl.
  - intros w. destruct (decide (v = w)) as [<-|Hne].
    + rewrite lookup_insert_eq, Hx. constructor. apply Hf.
    + rewrite lookup_insert_ne by done. reflexivity.
  - exists []. by rewrite app_nil_r.
Qed.

Lemma respects_emit e : Pe e → respects (lift Rv Pe) (emit e).
Proof.
  intros He s s' [= <-]. split; simpl; [intros w; reflexivity|].
  exists [e]. split; [done|]. by apply Forall_singleton.
Qed.
End Lift.

Section Respects.
Context (R : relation State) `{!PreOrder R}.

Lemma respects_ret {A} (a : A) : respects R (ret a).
Proof. intros s s' [= <-]. reflexivity. Qed.

Lemma respects_throw {A} e : respects R (@throw A e).
Proof. intros s s' [= <-]. reflexivity. Qed.

Lemma respects_out_of_fuel {A} : respects R (@out_of_fuel A).
Proof. intros s s' [=]. Qed.

Lemma respects_get_state : respects R get_state.
Proof. intros s s' [= <-]. reflexivity. Qed.

Lemma respects_get_view v : respects R (get_view v).
Proof.
  intros s s'. unfold get_view.
  destruct (views s !! v); intros [= <-]; reflexivity.
Qed.

Lemma respects_lift_res {A} (r : Res A) : respects R (lift_res r).
Proof. destruct r; [apply respects_ret|apply respects_throw]. Qed.

Lemma respects_bind {A B} (m : M A) (f : A → M B) :
  respects R m → (∀ a, respects R (f a)) → respects R (bind m f).
Proof.
  intros Hm Hf s s'. unfold bind.
  destruct (m s) as [a s1|e s1|] eqn:Hms; simpl.
  - intros Hk. etrans; [apply Hm; by rewrite Hms|]. by eapply Hf.
  - intros [= <-]. apply Hm. by rewrite Hms.
  - done.
Qed.

Lemma respects_forEach {A} (l : list A) (f : A → M unit) :
  (∀ x, x ∈ l → respects R (f x)) → respects R (forEach l f).
Proof.
  induction l as [|x l IH]; intros Hf; simpl.
  - apply respects_ret.
  - apply respects_bind; [apply Hf; left|].
    intros _. apply IH. intros y Hy. apply Hf. by right.
Qed.
End Respects.

#[export] Instance guarded_preorder Pre R `{!PreOrder R} :
  PreOrder (guarded Pre R).
Proof.
  split.
  - intros s Hs. split; [reflexivity|done].
  - intros s1 s2 s3 H12 H23 Hs.
    destruct (H12 Hs) as [HR1 Hs2]. destruct (H23 Hs2) as [HR2 Hs3].
    split; [by etrans|done].
Qed.

Lemma respects_guarded {A} Pre R (m : M A) :
  (∀ s s', Pre s → R s s' → Pre s') →
  respects R m → respects (guarded Pre R) m.
Proof. intros Hpre Hm s s' Hout Hs. split; [by apply Hm|]. eapply Hpre; [done|]. by apply Hm. Qed.

Lemma respects_weaken {A} (R R' : relation State) (m : M A) :
  (∀ s s', R s s' → R' s s') → respects R m → respects R' m.
Proof. intros HR Hm s s' Hout. apply HR. by apply Hm. Qed.

Lemma lift_is_Some Rv Pe s s' v :
  lift Rv Pe s s' → is_Some (views s !! v) → is_Some (views s' !! v).
Proof.
  intros [Hv _] [x Hx]. specialize (Hv v). rewrite Hx in Hv.
  inversion Hv; subst. by eexists.
Qed.

Lemma lift_lookup Rv Pe s s' v x :
  lift Rv Pe s s' → views s !! v = Some x →
  ∃ x', views s' !! v = Some x' ∧ Rv v x x'.
Proof.
  intros [Hv _] Hx. specialize (Hv v). rewrite Hx in Hv.
  inversion Hv; subst. by eexists.
Qed.

Lemma lift_lookup_inv Rv Pe s s' v x' :
  lift Rv Pe s s' → views s' !! v = Some x' →
  ∃ x, views s !! v = Some x ∧ Rv v x x'.
Proof.
  intros [Hv _] Hx. specialize (Hv v). rewrite Hx in Hv.
  inversion Hv; subst. by eexists.
Qed.

Lemma lift_is_Some_inv Rv Pe s s' v :
  lift Rv Pe s s' → is_Some (views s' !! v) → is_Some (views s !! v).
Proof.
  intros [Hv _] [x Hx]. specialize (Hv v). rewrite Hx in Hv.
  inversion Hv; subst. by eexists.
Qed.

Lemma lift_trace Rv Pe s s' :
  lift Rv Pe s s' → ∃ t, trace s' = trace s ++ t ∧ Forall Pe t.
Proof. by intros [_ Ht]. Qed.

Ltac respects_step :=
  first
    [ apply respects_ret | apply respects_throw | apply respects_out_of_fuel
    | apply respects_get_view | apply respects_get_state
    | apply respects_lift_res
    | apply respects_bind; [|intros ?] ].

End Effects.

(** ** What every flush preserves *)

Module FlushFrame.
Import RecordArray Vocabulary Effects.

Section Generic.
Context `{!Collaborators}.

(** A relation [Rv] between the views before and after, a condition
    [Pe] on the effects, and a set [skip] of record arrays that are
    inside a flush of their own for the whole computation, so that
    nothing is ever done on their behalf. *)
Context (Rv : ViewId → relation View) (Pe : Event → Prop)
        (skip : ViewId → Prop).
Context `{!∀ w, PreOrder (Rv w)} `{!∀ v, Decision (skip v)}.

Hypothesis Rv_needsFlush :
  ∀ v x, ¬ skip v → Rv v x (set_needsFlush false x).
Hypothesis Rv_insideFlush :
  ∀ v x b, ¬ skip v → Rv v x (set_insideFlush b x).
Hypothesis Rv_flushed :
  ∀ v x, ¬ skip v → Rv v x (set_flushed true x).
Hypothesis Rv_changed :
  ∀ v x, ¬ skip v → Rv v x (set_scra_changedStoreKeys None x).
Hypothesis Rv_storeKeys :
  ∀ v x k, ¬ skip v → Rv v x (set_storeKeys (Some k) x).
Hypothesis Rv_records :
  ∀ v x c, ¬ skip v → Rv v x (set_scra_records (Some c) x).
Hypothesis Rv_seed :
  ∀ v child x a d u, ¬ skip v →
    Rv child x (set_scra_changedStoreKeys
                  (Some (merge_into (GuidView v) a d u
                                    (_scra_changedStoreKeys x))) x).
Hypothesis Pe_merge :
  ∀ v old ch qr, ¬ skip v → Pe (EvMerge v old ch qr).
Hypothesis Pe_didChange :
  ∀ v a b c, ¬ skip v → Pe (EvArrayContentDidChange v a b c).
Hypothesis Rv_skip :
  ∀ v x x', skip v → Rv v x x' → _insideFlush x = true → _insideFlush x' = true.

Lemma skipped_inside_lift s s' :
  skipped_inside skip s → lift Rv Pe s s' → skipped_inside skip s'.
Proof.
  intros Hs [Hv _] v Hskip. destruct (Hs v Hskip) as (x & Hx & Hin).
  specialize (Hv v). rewrite Hx in Hv. inversion Hv as [? x' HR|]; subst.
  exists x'. split; [done|]. by eapply Rv_skip.
Qed.

Lemma G_modify_view v f :
  (∀ x, Rv v x (f x)) → respects (flush_frame Rv Pe skip) (modify_view v f).
Proof.
  intros Hf. apply respects_guarded; [apply skipped_inside_lift|].
  by apply respects_modify_view.
Qed.

Lemma G_emit e : Pe e → respects (flush_frame Rv Pe skip) (emit e).
Proof.
  intros He. apply respects_guarded; [apply skipped_inside_lift|].
  by apply respects_emit.
Qed.

Lemma parentDidChangeStoreKeys_respects child a d u v :
  ¬ skip v → respects (flush_frame Rv Pe skip) (parentDidChangeStoreKeys child a d u v).
Proof.
  intros Hv. unfold parentDidChangeStoreKeys.
  case_match; [apply respects_ret; apply _|].
  apply G_modify_view. intros x. by apply Rv_seed.
Qed.

Lemma _notifyStoreKeyChanges_respects v old new ds :
  ¬ skip v → respects (flush_frame Rv Pe skip) (_notifyStoreKeyChanges v old new ds).
Proof.
  intros Hv. unfold _notifyStoreKeyChanges.
  apply respects_bind; [apply _|apply respects_get_view; apply _|intros self].
  apply respects_bind; [apply _| |intros _; apply G_emit; by apply Pe_didChange].
  destruct (_scra_records self); [|apply respects_ret; apply _].
  apply G_modify_view. intros x. by apply Rv_records.
Qed.

Lemma flush_merge_respects v q f :
  ¬ skip v → respects (flush_frame Rv Pe skip) (flush_merge v q f).
Proof.
  intros Hv. unfold flush_merge.
  apply respects_bind; [apply _|apply G_modify_view; intros; by apply Rv_flushed|intros _].
  apply respects_bind; [apply _|apply respects_get_view; apply _|intros self].
  apply respects_bind; [apply _|apply respects_get_state; apply _|intros s0].
  apply respects_bind; [apply _|apply G_emit; by apply Pe_merge|intros _].
  apply respects_bind; [apply _|apply G_modify_view; intros; by apply Rv_changed|intros _].
  apply respects_bind; [apply _|apply respects_lift_res; apply _|intros ds].
  apply respects_bind; [apply _| |intros _].
  { destruct ds; [|apply respects_ret; apply _].
    apply respects_bind; [apply _|apply G_modify_view; intros; by apply Rv_storeKeys|intros _].
    by apply _notifyStoreKeyChanges_respects. }
  apply respects_bind; [apply _|apply respects_get_view; apply _|intros self'].
  destruct (nestedRecordArrays self'); [|apply respects_ret; apply _].
  apply respects_forEach; [apply _|]. intros c _.
  by apply parentDidChangeStoreKeys_respects.
Qed.

(** A flush of a record array that is inside a flush returns at once. *)
Lemma flush_inside fuel v f s x :
  views s !! v = Some x → _insideFlush x = true →
  flush (S fuel) v f s = Ok tt s.
Proof.
  intros Hx Hin. simpl. unfold bind, get_view. rewrite Hx.
  destruct (negb (needsFlush x) && negb f); [done|].
  destruct (negb (enabled x)); [done|]. by rewrite Hin.
Qed.

Lemma flush_local_respects flush_parent v f self :
  ¬ skip v → (∀ p, respects (flush_frame Rv Pe skip) (flush_parent p)) →
  respects (flush_frame Rv Pe skip) (flush_local flush_parent v f self).
Proof.
  intros Hv IH. unfold flush_local.
  destruct (store self); [|apply respects_ret; apply _].
  destruct (query self) as [q|]; [|apply respects_ret; apply _].
  destruct (is_LOCAL (location q)); [|apply respects_ret; apply _].
  apply respects_bind; [apply _|apply G_modify_view; intros; by apply Rv_insideFlush|intros _].
  apply respects_bind; [apply _|apply respects_forEach; [apply _|]; intros; apply IH|intros _].
  apply respects_bind; [apply _|apply respects_get_view; apply _|intros self'].
  apply respects_bind; [apply _| |intros _].
  { destruct (_ || _); [by apply flush_merge_respects|apply respects_ret; apply _]. }
  apply G_modify_view; intros; by apply Rv_insideFlush.
Qed.

Theorem flush_respects fuel v f : respects (flush_frame Rv Pe skip) (flush fuel v f).
Proof.
  revert v f. induction fuel as [|fuel IH]; intros v f.
  { apply respects_out_of_fuel. }
  destruct (decide (skip v)) as [Hskip|Hv].
  { intros s s' Hout Hs. destruct (Hs v Hskip) as (x & Hx & Hin).
    rewrite (flush_inside _ _ _ _ _ Hx Hin) in Hout.
    injection Hout as <-. split; [reflexivity|done]. }
  simpl.
  apply respects_bind; [apply _|apply respects_get_view; apply _|intros self].
  destruct (negb (needsFlush self) && negb f); [apply respects_ret; apply _|].
  destruct (negb (enabled self)); [apply respects_ret; apply _|].
  destruct (_insideFlush self); [apply respects_ret; apply _|].
  apply respects_bind; [apply _|apply G_modify_view; intros; by apply Rv_needsFlush|intros _].
  apply flush_local_respects; [done|]. intros p. apply IH.
Qed.

End Generic.

#[export] Instance no_view_dec v : Decision (no_view v).
Proof. right. by intros []. Defined.

Section Unguarded.
Context `{!Collaborators}.
Context (Rv : relation View) `{!PreOrder Rv}.
Hypothesis Rv_steps : flush_steps Rv.

Local Abbreviation R := (lift (fun _ => Rv) any_event).

Lemma unguard {A} (m : M A) :
  respects (flush_frame (fun _ => Rv) any_event no_view) m → respects R m.
Proof. intros Hm s s' Hout. apply Hm; [done|]. by intros ? []. Qed.

Lemma guard {A} (m : M A) :
  respects R m → respects (flush_frame (fun _ => Rv) any_event no_view) m.
Proof. intros Hm s s' Hout _. split; [by apply Hm|]. by intros ? []. Qed.

Lemma flush_merge_preserves v q f : respects R (flush_merge v q f).
Proof.
  apply unguard, flush_merge_respects; try apply _; try (by intros []);
    intros; first [done|apply Rv_steps].
Qed.

Lemma flush_local_preserves flush_parent v f self :
  (∀ p, respects R (flush_parent p)) →
  respects R (flush_local flush_parent v f self).
Proof.
  intros Hrec.
  apply unguard, flush_local_respects; try apply _; try (by intros []);
    try (intros p; by apply guard);
    intros; first [done|apply Rv_steps].
Qed.

Lemma flush_preserves fuel v f : respects R (flush fuel v f).
Proof.
  apply unguard, flush_respects; try apply _; try (by intros []);
    intros; first [done|apply Rv_steps].
Qed.

Lemma parentDidChangeStoreKeys_preserves c a d u v :
  respects R (parentDidChangeStoreKeys c a d u v).
Proof.
  apply unguard, parentDidChangeStoreKeys_respects; try apply _;
    try (by intros []); intros; first [done|apply Rv_steps].
Qed.
End Unguarded.

End FlushFrame.

(** ** Flushing *)

Module FlushFacts.
Import RecordArray Vocabulary Effects FlushFrame.

#[export] Instance same_shape_preorder : PreOrder same_shape.
Proof.
  split; [intros x; by repeat split|]. intros x y z (?&?&?&?&?) (?&?&?&?&?).
  repeat split; congruence.
Qed.

#[export] Instance needsFlush_le_preorder : PreOrder needsFlush_le.
Proof. split; [by intros x ?|]. intros x y z H1 H2 Hz. auto. Qed.

Section Facts.
Context `{!Collaborators}.

Lemma same_shape_steps : flush_steps same_shape.
Proof. intros []. unfold same_shape. simpl. naive_solver. Qed.

Lemma needsFlush_le_steps : flush_steps needsFlush_le.
Proof. intros []. unfold needsFlush_le. simpl. naive_solver. Qed.

Lemma flush_same_shape fuel v f :
  respects (lift (fun _ => same_shape) any_event) (flush fuel v f).
Proof. apply flush_preserves; [apply _|apply same_shape_steps]. Qed.

Lemma flush_needsFlush_le fuel v f :
  respects (lift (fun _ => needsFlush_le) any_event) (flush fuel v f).
Proof. apply flush_preserves; [apply _|apply needsFlush_le_steps]. Qed.

Lemma well_formed_lift depth s s' :
  well_formed depth s → lift (fun _ => same_shape) any_event s s' →
  well_formed depth s'.
Proof.
  intros [Hsc Hne] HR. split.
  - intros v x' q p Hx' Hq Hp.
    destruct (lift_lookup_inv _ _ _ _ _ _ HR Hx') as (x & Hx & Hsh).
    destruct Hsh as (_ & Hqq & _). rewrite Hqq in Hq.
    destruct (Hsc v x q p Hx Hq Hp) as [Hsome Hd].
    split; [|done]. by eapply lift_is_Some.
  - intros v x' nested c Hx' Hn Hc.
    destruct (lift_lookup_inv _ _ _ _ _ _ HR Hx') as (x & Hx & Hsh).
    destruct Hsh as (_ & _ & Hnn & _). rewrite Hnn in Hn.
    eapply lift_is_Some; [done|]. by eapply Hne.
Qed.

Lemma findDifferences_total old new :
  ∃ r, Differ._findDifferences old (Some new) = Val r.
Proof.
  unfold Differ._findDifferences.
  destruct (same_ref _ _); [by eexists|].
  destruct old; repeat case_match; by eexists.
Qed.

End Facts.

Section Steps.
Lemma modify_view_Some v f s x :
  views s !! v = Some x →
  modify_view v f s = Ok tt (mkState (<[v := f x]> (views s)) (trace s)).
Proof. intros Hx. unfold modify_view. by rewrite Hx. Qed.

Lemma get_view_Some v s x : views s !! v = Some x → get_view v s = Ok x s.
Proof. intros Hx. unfold get_view. by rewrite Hx. Qed.

Lemma bind_ret {A B} (a : A) (k : A → M B) s : bind (ret a) k s = k a s.
Proof. done. Qed.

Lemma bind_emit {B} e (k : unit → M B) s :
  bind (emit e) k s = k tt (mkState (views s) (trace s ++ [e])).
Proof. done. Qed.

Lemma bind_get_state {B} (k : State → M B) s : bind get_state k s = k s s.
Proof. done. Qed.

Lemma bind_get_view {B} v (k : View → M B) s x :
  views s !! v = Some x → bind (get_view v) k s = k x s.
Proof. intros Hx. unfold bind. by rewrite (get_view_Some _ _ _ Hx). Qed.

Lemma bind_modify_view {B} v f (k : unit → M B) s x :
  views s !! v = Some x →
  bind (modify_view v f) k s
  = k tt (mkState (<[v := f x]> (views s)) (trace s)).
Proof. intros Hx. unfold bind. by rewrite (modify_view_Some _ _ _ _ Hx). Qed.

Lemma bind_assoc {A B C} (m : M A) (f : A → M B) (g : B → M C) s :
  bind (bind m f) g s = bind m (fun a => bind (f a) g) s.
Proof. unfold bind. by destruct (m s). Qed.

End Steps.

(** Running a computation on a state whose last write was to [v]. *)
Ltac step_modify :=
  match goal with
  | |- context [bind (modify_view ?v ?f) ?k (mkState (<[?v := ?x]> ?m) ?t)] =>
      rewrite (bind_modify_view v f k (mkState (<[v := x]> m) t) x)
        by (cbn [views]; apply lookup_insert_eq);
      cbn [views trace]; rewrite insert_insert_eq
  end.
Ltac step_get :=
  match goal with
  | |- context [bind (get_view ?v) ?k (mkState (<[?v := ?x]> ?m) ?t)] =>
      rewrite (bind_get_view v k (mkState (<[v := x]> m) t) x)
        by (cbn [views]; apply lookup_insert_eq)
  end.
Ltac step_emit := rewrite bind_emit; cbn [views trace].

Section Spec.
Context `{!Collaborators}.

Lemma parentDidChangeStoreKeys_Some c a d u v s x :
  views s !! c = Some x →
  parentDidChangeStoreKeys c a d u v s
  = Ok tt (mkState (<[c := seed a d u v x]> (views s)) (trace s)).
Proof.
  intros Hx. unfold parentDidChangeStoreKeys, seed.
  destruct (_ =? _)%nat.
  - unfold ret. rewrite insert_id by done. by destruct s.
  - by rewrite (modify_view_Some _ _ _ _ Hx).
Qed.

Lemma seed_all_is_Some nested a d u v vs c :
  is_Some (seed_all nested a d u v vs !! c) ↔ is_Some (vs !! c).
Proof.
  revert vs. induction nested as [|c' l IH]; intros vs; simpl; [done|].
  rewrite IH. destruct (decide (c' = c)) as [->|Hne].
  - rewrite lookup_alter_eq. by rewrite fmap_is_Some.
  - by rewrite lookup_alter_ne.
Qed.

Lemma forEach_seed nested a d u v s :
  (∀ c, c ∈ nested → is_Some (views s !! c)) →
  forEach nested (fun c => parentDidChangeStoreKeys c a d u v) s
  = Ok tt (mkState (seed_all nested a d u v (views s)) (trace s)).
Proof.
  revert s. induction nested as [|c l IH]; intros s Hvalid; simpl.
  - by destruct s.
  - destruct (Hvalid c) as [x Hx]; [left|].
    unfold bind. rewrite (parentDidChangeStoreKeys_Some _ _ _ _ _ _ _ Hx).
    rewrite IH; simpl.
    + do 2 f_equal. f_equal. apply map_eq. intros w.
      destruct (decide (c = w)) as [<-|Hne].
      * by rewrite lookup_insert_eq, lookup_alter_eq, Hx.
      * by rewrite lookup_insert_ne, lookup_alter_ne.
    + intros c' Hc'. destruct (decide (c = c')) as [<-|Hne].
      * rewrite lookup_insert_eq. by eexists.
      * rewrite lookup_insert_ne by done. apply Hvalid. by right.
Qed.

Lemma flush_merge_spec v q (f : bool) s self :
  views s !! v = Some self →
  (∀ nested c, nestedRecordArrays self = Some nested → c ∈ nested →
               is_Some (views s !! c)) →
  let old := if f then None else storeKeys self in
  let qr := merge (<[v := set_flushed true self]> (views s)) q old
                  (_scra_changedStoreKeys self) v in
  ∃ r, Differ._findDifferences (storeKeys self) (Some (qr_storeKeys qr)) = Val r
    ∧ flush_merge v q f s
      = Ok tt (mkState
          (seed_all (default [] (nestedRecordArrays self))
                    (qr_added qr) (qr_deleted qr) (qr_updated qr) v
                    (<[v := merged_view self (qr_storeKeys qr) r]> (views s)))
          (trace s ++ EvMerge v old (_scra_changedStoreKeys self) qr
                   :: merged_events v self (qr_storeKeys qr) r)).
Proof.
  intros Hself Hvalid old qr.
  destruct (findDifferences_total (storeKeys self) (qr_storeKeys qr)) as [r Hr].
  exists r. split; [done|].
  assert (Hnested : ∀ x, nestedRecordArrays x = nestedRecordArrays self →
            ∀ t,
            (do self' <- get_view v;
             match nestedRecordArrays self' with
             | Some nested =>
                 forEach nested (fun child =>
                   parentDidChangeStoreKeys child (qr_added qr) (qr_deleted qr)
                                            (qr_updated qr) v)
             | None => ret tt
             end) (mkState (<[v := x]> (views s)) t)
            = Ok tt (mkState
                (seed_all (default [] (nestedRecordArrays self))
                   (qr_added qr) (qr_deleted qr) (qr_updated qr) v
                   (<[v := x]> (views s))) t)).
  { intros x Hx t. step_get.
    rewrite Hx.
    destruct (nestedRecordArrays self) as [nested|] eqn:Hn; [|done].
    rewrite forEach_seed; [done|]. simpl. intros c Hc.
    destruct (decide (v = c)) as [<-|Hne].
    - rewrite lookup_insert_eq. by eexists.
    - rewrite lookup_insert_ne by done. by eapply Hvalid. }
  unfold flush_merge.
  rewrite (bind_modify_view _ _ _ _ _ Hself).
  step_get. rewrite bind_get_state.
  cbn [views trace storeKeys set_flushed _scra_changedStoreKeys].
  fold old. fold qr. step_emit. step_modify.
  rewrite Hr. unfold lift_res. rewrite bind_ret.
  destruct r as [ds|]; cbn [merged_view merged_events].
  - rewrite bind_assoc. step_modify.
    unfold _notifyStoreKeyChanges. rewrite !bind_assoc. step_get.
    cbn [_scra_records set_storeKeys set_scra_changedStoreKeys set_flushed].
    destruct (_scra_records self) as [recs|] eqn:Hrecs.
    + cbv beta iota. rewrite !bind_assoc. step_modify. step_emit.
      rewrite Hnested by done. by rewrite <- app_assoc.
    + cbv beta iota. rewrite !bind_assoc, bind_ret. step_emit.
      rewrite Hnested by done. by rewrite <- app_assoc.
  - rewrite bind_ret.
    by rewrite Hnested.
Qed.

Lemma forEach_flush_same_shape fuel l :
  respects (lift (fun _ => same_shape) any_event)
           (forEach l (fun p => flush fuel p false)).
Proof. apply respects_forEach; [apply _|]. intros. apply flush_same_shape. Qed.

Lemma forEach_flush_returns depth fuel l s :
  well_formed depth s →
  (∀ p, p ∈ l → is_Some (views s !! p) ∧ (depth p < fuel)%nat) →
  (∀ p f s, well_formed depth s → is_Some (views s !! p) →
            (depth p < fuel)%nat → ∃ s', flush fuel p f s = Ok tt s') →
  ∃ s', forEach l (fun p => flush fuel p false) s = Ok tt s'.
Proof.
  intros Hwf Hl IH. revert s Hwf Hl.
  induction l as [|p l IHl]; intros s Hwf Hl; simpl.
  - by exists s.
  - destruct (Hl p) as [Hp Hd]; [left|].
    destruct (IH p false s Hwf Hp Hd) as [s1 Hs1].
    unfold bind. rewrite Hs1.
    assert (HR : lift (fun _ => same_shape) any_event s s1).
    { apply (flush_same_shape fuel p false). by rewrite Hs1. }
    apply IHl; [by eapply well_formed_lift|].
    intros p' Hp'. destruct (Hl p') as [Hp'' Hd']; [by right|].
    split; [|done]. by eapply lift_is_Some.
Qed.

(** [flush] returns as soon as the fuel exceeds the depth of the record
    array in the scope graph. *)
Theorem flush_returns depth fuel v f s :
  well_formed depth s → is_Some (views s !! v) → (depth v < fuel)%nat →
  ∃ s', flush fuel v f s = Ok tt s'.
Proof.
  revert v f s. induction fuel as [|fuel IH]; intros v f s Hwf [self Hself] Hd;
    [lia|].
  simpl. rewrite (bind_get_view _ _ _ _ Hself).
  destruct (negb (needsFlush self) && negb f); [by eexists|].
  destruct (negb (enabled self)); [by eexists|].
  destruct (_insideFlush self); [by eexists|].
  rewrite (bind_modify_view _ _ _ _ _ Hself).
  unfold flush_local.
  destruct (store self); [|by eexists].
  destruct (query self) as [q|] eqn:Hq; [|by eexists].
  destruct (is_LOCAL (location q)); [|by eexists].
  step_modify.
  set (sa := mkState _ _).
  assert (HRa : lift (fun _ => same_shape) any_event s sa).
  { split; [|exists []; by rewrite app_nil_r]. intros w. subst sa. simpl.
    destruct (decide (v = w)) as [<-|Hne].
    - rewrite lookup_insert_eq, Hself. constructor. by destruct self.
    - rewrite lookup_insert_ne by done. reflexivity. }
  assert (Hwfa : well_formed depth sa) by by eapply well_formed_lift.
  destruct (forEach_flush_returns depth fuel (scope_sources (Some q)) sa Hwfa)
    as [sb Hsb].
  { intros p Hp. destruct (wf_scope _ _ Hwf v self q p Hself Hq Hp) as [Hsome Hlt].
    split; [by eapply lift_is_Some|lia]. }
  { intros p f' s' Hwf' Hp' Hd'. by apply IH. }
  unfold bind at 1. rewrite Hsb.
  assert (HRb : lift (fun _ => same_shape) any_event sa sb).
  { apply (forEach_flush_same_shape fuel (scope_sources (Some q))). by rewrite Hsb. }
  assert (Hwfb : well_formed depth sb) by by eapply well_formed_lift.
  destruct (lift_is_Some _ _ _ _ v HRb) as [xb Hxb].
  { subst sa. simpl. rewrite lookup_insert_eq. by eexists. }
  rewrite (bind_get_view _ _ _ _ Hxb).
  destruct (_ || _).
  - destruct (flush_merge_spec v q f sb xb Hxb) as (r & _ & Hm).
    { intros nested c Hn Hc. by eapply (wf_nested _ _ Hwfb). }
    unfold bind at 1. rewrite Hm.
    unfold modify_view; cbn [views].
    destruct (seed_all_is_Some (default [] (nestedRecordArrays xb))
                (qr_added (merge (<[v:=set_flushed true xb]> (views sb)) q
                   (if f then None else storeKeys xb) (_scra_changedStoreKeys xb) v))
                (qr_deleted (merge (<[v:=set_flushed true xb]> (views sb)) q
                   (if f then None else storeKeys xb) (_scra_changedStoreKeys xb) v))
                (qr_updated (merge (<[v:=set_flushed true xb]> (views sb)) q
                   (if f then None else storeKeys xb) (_scra_changedStoreKeys xb) v))
                v
                (<[v:=merged_view xb
                    (qr_storeKeys (merge (<[v:=set_flushed true xb]> (views sb)) q
                   (if f then None else storeKeys xb) (_scra_changedStoreKeys xb) v)) r]>
                   (views sb)) v) as [_ [y Hy]].
    { rewrite lookup_insert_eq. by eexists. }
    rewrite Hy. by eexists.
  - rewrite bind_ret. rewrite (modify_view_Some _ _ _ _ Hxb). by eexists.
Qed.

End Spec.

#[export] Instance is_view_dec c v : Decision (is_view c v).
Proof. unfold is_view. apply _. Defined.

Section BatchFacts.

#[export] Instance changes_le_preorder : PreOrder changes_le.
Proof.
  split.
  - intros cs. by repeat split.
  - intros a b c (?&?&?) (?&?&?). repeat split; set_solver.
Qed.

#[export] Instance batches_le_preorder : PreOrder batches_le.
Proof.
  split.
  - intros b m ->. exists m. split; [done|]. intros g cs Hcs.
    exists cs. split; [done|reflexivity].
  - intros b1 b2 b3 H12 H23 m1 Hm1.
    destruct (H12 m1 Hm1) as (m2 & Hm2 & Hle12).
    destruct (H23 m2 Hm2) as (m3 & Hm3 & Hle23).
    exists m3. split; [done|]. intros g cs Hcs.
    destruct (Hle12 g cs Hcs) as (cs2 & Hcs2 & Hle).
    destruct (Hle23 g cs2 Hcs2) as (cs3 & Hcs3 & Hle').
    exists cs3. split; [done|]. by etrans.
Qed.

#[export] Instance only_batches_grow_preorder : PreOrder only_batches_grow.
Proof.
  split.
  - intros x. split; [by destruct x|reflexivity].
  - intros x y z [Hy Hxy] [Hz Hyz]. split; [|by etrans].
    rewrite Hz, Hy. by destruct x.
Qed.

#[export] Instance inside_frame_preorder c w : PreOrder (inside_frame c w).
Proof.
  split.
  - intros x _. reflexivity.
  - intros x y z Hxy Hyz Hw. etrans; [by apply Hxy|by apply Hyz].
Qed.

#[export] Instance origin_frame_preorder p w : PreOrder (origin_frame p w).
Proof.
  split.
  - intros x. split; [reflexivity|done].
  - intros x y z [Hxy Hxy'] [Hyz Hyz']. split; [by etrans|auto].
Qed.

Lemma merge_into_lookup g a d u b :
  merge_into g a d u b !! g
  = Some (mkChangeSet
            (added (default empty_ChangeSet (default ∅ b !! g)) ∪ a)
            (deleted (default empty_ChangeSet (default ∅ b !! g)) ∪ d)
            (updated (default empty_ChangeSet (default ∅ b !! g)) ∪ u)).
Proof. unfold merge_into. by rewrite lookup_insert_eq. Qed.

Lemma merge_into_lookup_ne g g' a d u b :
  g ≠ g' → merge_into g a d u b !! g' = default ∅ b !! g'.
Proof. intros Hne. unfold merge_into. by rewrite lookup_insert_ne. Qed.

Lemma merge_into_le g a d u b : batches_le b (Some (merge_into g a d u b)).
Proof.
  intros m ->. eexists. split; [done|]. intros g' cs Hcs.
  destruct (decide (g = g')) as [<-|Hne].
  - rewrite merge_into_lookup. eexists. split; [done|]. simpl. rewrite Hcs.
    repeat split; simpl; set_solver.
  - rewrite merge_into_lookup_ne by done. simpl. exists cs.
    split; [done|reflexivity].
Qed.

Lemma merge_into_idemp g a d u b :
  merge_into g a d u (Some (merge_into g a d u b)) = merge_into g a d u b.
Proof.
  unfold merge_into at 1. simpl. rewrite merge_into_lookup. simpl.
  unfold merge_into. rewrite insert_insert_eq. f_equal. f_equal; set_solver.
Qed.

Lemma seed_idemp a d u v x : seed a d u v (seed a d u v x) = seed a d u v x.
Proof.
  unfold seed. destruct (_ =? _)%nat; [done|].
  destruct x; unfold set_scra_changedStoreKeys; simpl.
  by rewrite merge_into_idemp.
Qed.

Lemma seed_all_lookup nested a d u v vs c :
  seed_all nested a d u v vs !! c
  = if decide (c ∈ nested) then seed a d u v <$> vs !! c else vs !! c.
Proof.
  revert vs. induction nested as [|c' l IH]; intros vs; simpl; [done|].
  rewrite IH. destruct (decide (c' = c)) as [->|Hne].
  - rewrite lookup_alter_eq.
    destruct (decide (c ∈ c :: l)) as [_|[]]; [|left].
    destruct (vs !! c); simpl; [|by case_decide].
    case_decide; [by rewrite seed_idemp|done].
  - rewrite lookup_alter_ne by done.
    destruct (decide (c ∈ l)), (decide (c ∈ c' :: l)) as [Hin|Hnin]; try done.
    + destruct Hnin. by right.
    + apply elem_of_cons in Hin as [->|?]; done.
Qed.

End BatchFacts.

Section Frames.
Context `{!Collaborators}.

Lemma skipped_inside_is_view c s :
  inside c s → skipped_inside (is_view c) s.
Proof. by intros Hs v ->. Qed.

(** While [c] is inside a flush, a flush of any record array leaves [c]
    as it is up to new batches, and does nothing on its behalf. *)
Lemma flush_inside_frame c fuel v f s s' :
  inside c s → outcome_state (flush fuel v f s) = Some s' →
  lift (inside_frame c) (fun e => ¬ about c e) s s' ∧ inside c s'.
Proof.
  intros Hin Hout.
  assert (HG : respects (flush_frame (inside_frame c) (fun e => ¬ about c e) (is_view c))
                        (flush fuel v f)).
  { apply flush_respects; try apply _; unfold is_view, inside_frame.
    - intros w x Hw Hc. by destruct Hw.
    - intros w x b Hw Hc. by destruct Hw.
    - intros w x Hw Hc. by destruct Hw.
    - intros w x Hw Hc. by destruct Hw.
    - intros w x k Hw Hc. by destruct Hw.
    - intros w x k Hw Hc. by destruct Hw.
    - intros w child x a d u Hw ->. split; [by destruct x|].
      destruct x; simpl. apply merge_into_le.
    - intros w old ch qr Hw. simpl. congruence.
    - intros w a b k Hw. simpl. congruence.
    - intros w x x' -> Hg Hi. destruct (Hg eq_refl) as [-> _].
      by destruct x. }
  destruct (HG s s' Hout) as [HR Hs']; [by apply skipped_inside_is_view|].
  split; [done|]. by apply Hs'.
Qed.

Lemma batch_at_seed_ne p v a d u x :
  p ≠ v →
  batch_at (GuidView p)
    (set_scra_changedStoreKeys
       (Some (merge_into (GuidView v) a d u (_scra_changedStoreKeys x))) x)
  = batch_at (GuidView p) x.
Proof.
  intros Hne. unfold batch_at. destruct x; simpl.
  rewrite merge_into_lookup_ne; [done|congruence].
Qed.

(** While [p] is inside a flush, a flush of any record array adds no
    change of origin [p] anywhere. *)
Lemma flush_origin_frame p fuel v f s s' :
  inside p s → outcome_state (flush fuel v f s) = Some s' →
  lift (origin_frame p) any_event s s' ∧ inside p s'.
Proof.
  intros Hin Hout.
  assert (HG : respects (flush_frame (origin_frame p) any_event (is_view p))
                        (flush fuel v f)).
  { apply flush_respects; try apply _; unfold is_view, origin_frame.
    - intros w x Hw. split; [destruct x; reflexivity|intros ->; by destruct Hw].
    - intros w x b Hw. split; [destruct x; reflexivity|intros ->; by destruct Hw].
    - intros w x Hw. split; [destruct x; reflexivity|intros ->; by destruct Hw].
    - intros w x Hw. split; [|intros ->; by destruct Hw].
      destruct x; unfold batch_at; simpl. rewrite lookup_empty. simpl.
      repeat split; set_solver.
    - intros w x k Hw. split; [destruct x; reflexivity|intros ->; by destruct Hw].
    - intros w x k Hw. split; [destruct x; reflexivity|intros ->; by destruct Hw].
    - intros w child x a d u Hw. split; [|by destruct x].
      rewrite batch_at_seed_ne by done. reflexivity.
    - done.
    - done.
    - intros w x x' -> [_ Hi]. auto. }
  destruct (HG s s' Hout) as [HR Hs']; [by apply skipped_inside_is_view|].
  split; [done|]. by apply Hs'.
Qed.

Lemma forEach_flush_inside_frame c fuel l s s' :
  inside c s →
  outcome_state (forEach l (fun p => flush fuel p false) s) = Some s' →
  lift (inside_frame c) (fun e => ¬ about c e) s s' ∧ inside c s'.
Proof.
  intros Hin Hout.
  assert (HG : respects (guarded (inside c)
                 (lift (inside_frame c) (fun e => ¬ about c e)))
                 (forEach l (fun p => flush fuel p false))).
  { apply respects_forEach; [apply _|]. intros p _ s1 s2 Hout' Hin'.
    by eapply flush_inside_frame. }
  by apply HG.
Qed.

Lemma forEach_flush_origin_frame p fuel l s s' :
  inside p s →
  outcome_state (forEach l (fun p => flush fuel p false) s) = Some s' →
  lift (origin_frame p) any_event s s' ∧ inside p s'.
Proof.
  intros Hin Hout.
  assert (HG : respects (guarded (inside p) (lift (origin_frame p) any_event))
                 (forEach l (fun p => flush fuel p false))).
  { apply respects_forEach; [apply _|]. intros p' _ s1 s2 Hout' Hin'.
    by eapply flush_origin_frame. }
  by apply HG.
Qed.

Lemma modify_view_alter v f s :
  is_Some (views s !! v) →
  modify_view v f s = Ok tt (mkState (alter f v (views s)) (trace s)).
Proof.
  intros [x Hx]. rewrite (modify_view_Some _ _ _ _ Hx). do 2 f_equal.
  apply map_eq. intros w. destruct (decide (v = w)) as [<-|Hne].
  - by rewrite lookup_insert_eq, lookup_alter_eq, Hx.
  - by rewrite lookup_insert_ne, lookup_alter_ne.
Qed.

Theorem flush_spec depth fuel v (f : bool) s self q :
  well_formed depth s → views s !! v = Some self → (depth v ≤ fuel)%nat →
  negb (needsFlush self) && negb f = false →
  enabled self = true → _insideFlush self = false →
  is_Some (store self) → query self = Some q → location q = LOCAL →
  ∃ sb b t,
    forEach (scope_sources (Some q)) (fun p => flush fuel p false)
      (mkState (<[v := entered self (_scra_changedStoreKeys self)]> (views s))
               (trace s)) = Ok tt sb
    ∧ views sb !! v = Some (entered self b)
    ∧ batches_le (_scra_changedStoreKeys self) b
    ∧ trace sb = trace s ++ t ∧ Forall (fun e => ¬ about v e) t
    ∧ well_formed depth sb
    ∧ (∀ w x', views sb !! w = Some x' → w ≠ v →
         ∃ x, views s !! w = Some x
              ∧ changes_le (batch_at (GuidView v) x') (batch_at (GuidView v) x))
    ∧ let old := if f then None else storeKeys self in
      let qr := merge (<[v := set_flushed true (entered self b)]> (views sb))
                      q old b v in
      if merges self b then
        ∃ r, Differ._findDifferences (storeKeys self) (Some (qr_storeKeys qr))
               = Val r
          ∧ flush (S fuel) v f s
            = Ok tt (mkState
                (alter (set_insideFlush false) v
                   (seed_all (default [] (nestedRecordArrays self))
                      (qr_added qr) (qr_deleted qr) (qr_updated qr) v
                      (<[v := merged_view (entered self b) (qr_storeKeys qr) r]>
                         (views sb))))
                (trace sb ++ EvMerge v old b qr
                   :: merged_events v self (qr_storeKeys qr) r))
      else
        flush (S fuel) v f s
        = Ok tt (mkState (<[v := set_insideFlush false (entered self b)]> (views sb))
                         (trace sb)).
Proof.
  intros Hwf Hself Hd Hg1 Hen Hin [st Hst] Hq Hloc.
  set (xa := entered self (_scra_changedStoreKeys self)).
  set (sa := mkState (<[v := xa]> (views s)) (trace s)).
  assert (HRa : lift (fun _ => same_shape) any_event s sa).
  { split; [|exists []; by rewrite app_nil_r]. intros w. subst sa. simpl.
    destruct (decide (v = w)) as [<-|Hne].
    - rewrite lookup_insert_eq, Hself. constructor. by destruct self.
    - rewrite lookup_insert_ne by done. reflexivity. }
  assert (Hwfa : well_formed depth sa) by by eapply well_formed_lift.
  destruct (forEach_flush_returns depth fuel (scope_sources (Some q)) sa Hwfa)
    as [sb Hsb].
  { intros p Hp. destruct (wf_scope _ _ Hwf v self q p Hself Hq Hp) as [Hsome Hlt].
    split; [by eapply lift_is_Some|lia]. }
  { intros p f' s' Hwf' Hp' Hd'. by eapply flush_returns. }
  assert (Hina : inside v sa).
  { exists xa. subst sa. simpl. rewrite lookup_insert_eq. split; [done|].
    subst xa. by destruct self. }
  assert (HRb : lift (fun _ => same_shape) any_event sa sb).
  { apply (forEach_flush_same_shape fuel (scope_sources (Some q))). by rewrite Hsb. }
  assert (Hwfb : well_formed depth sb) by by eapply well_formed_lift.
  destruct (forEach_flush_inside_frame v fuel (scope_sources (Some q)) sa sb Hina)
    as [HF _]; [by rewrite Hsb|].
  destruct (forEach_flush_origin_frame v fuel (scope_sources (Some q)) sa sb Hina)
    as [HO _]; [by rewrite Hsb|].
  destruct (lift_lookup _ _ _ _ v xa HF) as (xb & Hxb & Hgrow).
  { subst sa. simpl. by rewrite lookup_insert_eq. }
  destruct (Hgrow eq_refl) as [Hxb_eq Hle].
  set (b := _scra_changedStoreKeys xb) in *.
  assert (Hxb' : xb = entered self b).
  { rewrite Hxb_eq. subst xa. by destruct self. }
  destruct (lift_trace _ _ _ _ HF) as (t & Ht & HPt).
  exists sb, b, t. split; [done|]. split; [by rewrite <- Hxb'|].
  split; [by destruct self|]. split; [done|]. split; [done|]. split; [done|].
  split.
  { intros w x' Hx' Hne.
    destruct (lift_lookup_inv _ _ _ _ w x' HO Hx') as (x & Hx & Hfr & _).
    subst sa. simpl in Hx. rewrite lookup_insert_ne in Hx by done.
    by exists x. }
  cbv zeta.
  assert (Hflush : flush (S fuel) v f s
    = ((if merges self b then flush_merge v q f else ret tt) ;;;
       modify_view v (set_insideFlush false)) sb).
  { simpl. rewrite (bind_get_view _ _ _ _ Hself), Hg1.
    rewrite Hen, Hin. simpl.
    rewrite (bind_modify_view _ _ _ _ _ Hself).
    unfold flush_local. rewrite Hst, Hq, Hloc. simpl.
    step_modify. fold xa. replace (set_insideFlush true (set_needsFlush false self))
      with xa by (subst xa; by destruct self).
    fold sa. change (default [] (scope q)) with (scope_sources (Some q)).
    unfold bind at 1. rewrite Hsb.
    rewrite (bind_get_view _ _ _ _ Hxb).
    replace (bool_decide (is_Some (_scra_changedStoreKeys xb)) || negb (_flushed xb))
      with (merges self b); [done|].
    unfold merges. fold b. f_equal. rewrite Hxb'. by destruct self. }
  rewrite Hflush. destruct (merges self b).
  - destruct (flush_merge_spec v q f sb xb Hxb) as (r & Hr & Hm).
    { intros nested c Hn Hc. by eapply (wf_nested _ _ Hwfb). }
    rewrite Hxb' in Hr, Hm.
    replace (storeKeys (entered self b)) with (storeKeys self) in Hr, Hm
      by by destruct self.
    replace (nestedRecordArrays (entered self b)) with (nestedRecordArrays self)
      in Hm by by destruct self.
    replace (_scra_changedStoreKeys (entered self b)) with b in Hm
      by by destruct self.
    exists r. split; [done|].
    unfold bind. rewrite Hm. rewrite modify_view_alter.
    + cbn [views trace]. by do 3 f_equal.
    + cbn [views]. apply seed_all_is_Some. rewrite lookup_insert_eq. by eexists.
  - rewrite bind_ret. rewrite (modify_view_Some _ _ _ _ Hxb). by rewrite Hxb'.
Qed.

End Frames.

#[export] Instance storeKeys_set_preorder : PreOrder storeKeys_set.
Proof. split; [by intros x ?|]. intros x y z H1 H2 Hx. auto. Qed.

Section Guards.
Context `{!Collaborators}.

Lemma storeKeys_set_steps : flush_steps storeKeys_set.
Proof. intros []. unfold storeKeys_set. simpl. naive_solver. Qed.

Lemma flush_storeKeys_set fuel v f :
  respects (lift (fun _ => storeKeys_set) any_event) (flush fuel v f).
Proof. apply flush_preserves; [apply _|apply storeKeys_set_steps]. Qed.

(** C4: a call to [flush] on a record array that is already inside a
    flush returns at once: the state is untouched, so [merge] is not
    invoked, [storeKeys] and the cache are as they were, and [needsFlush]
    is not cleared. *)
Theorem flush_reentrant_noop fuel v f s x :
  views s !! v = Some x → _insideFlush x = true →
  flush (S fuel) v f s = Ok tt s.
Proof. apply flush_inside. Qed.

Lemma flush_clean fuel v s x :
  views s !! v = Some x → needsFlush x = false →
  flush (S fuel) v false s = Ok tt s.
Proof.
  intros Hx Hn. simpl. rewrite (bind_get_view _ _ _ _ Hx). by rewrite Hn.
Qed.

(** C3: when [flush] has returned, a second call with nothing recorded
    in between returns at its first guards: the state is untouched, so
    [merge] is not invoked, [storeKeys] and the cache are unchanged and
    nothing is notified. *)
Theorem flush_twice_noop fuel1 fuel2 v f s s1 :
  flush fuel1 v f s = Ok tt s1 →
  flush (S fuel2) v false s1 = Ok tt s1.
Proof.
  destruct fuel1 as [|fuel1]; [done|]. intros Hfl.
  cbn [flush] in Hfl. unfold bind at 1, get_view at 1 in Hfl.
  destruct (views s !! v) as [x|] eqn:Hx; [|done].
  destruct (negb (needsFlush x) && negb f) eqn:Hg1.
  { injection Hfl as <-. apply andb_true_iff in Hg1 as [Hn _].
    apply (flush_clean _ _ _ x Hx). by destruct (needsFlush x). }
  destruct (enabled x) eqn:Hen; simpl in Hfl.
  2: { injection Hfl as <-. cbn [flush]. rewrite (bind_get_view _ _ _ _ Hx).
       rewrite Hen. simpl. by destruct (needsFlush x). }
  destruct (_insideFlush x) eqn:Hin.
  { injection Hfl as <-. by apply (flush_inside _ _ _ _ x). }
  rewrite (bind_modify_view _ _ _ _ _ Hx) in Hfl.
  assert (HR : lift (fun _ => needsFlush_le) any_event
            (mkState (<[v:=set_needsFlush false x]> (views s)) (trace s)) s1).
  { eapply (flush_local_preserves needsFlush_le needsFlush_le_steps).
    - intros p. apply flush_needsFlush_le.
    - by rewrite Hfl. }
  destruct (lift_lookup _ _ _ _ v (set_needsFlush false x) HR) as (y & Hy & Hle).
  { simpl. by rewrite lookup_insert_eq. }
  apply (flush_clean _ _ _ y Hy).
  destruct (needsFlush y) eqn:Hny; [|done]. specialize (Hle Hny).
  by destruct x.
Qed.

(** C8 (as amended): on a record array whose [storeKeys] are set and
    whose query is not editable, [replace] first applies the pending
    changes as every accessor does, then throws [NOT_EDITABLE]: the state
    it leaves is the one [flush] leaves, and [storeKeys] are not edited.
    When no flush is pending the state is untouched. *)
Theorem replace_not_editable depth fuel v idx amt recs s self arr q :
  well_formed depth s → (depth v ≤ fuel)%nat →
  views s !! v = Some self → storeKeys self = Some arr →
  query self = Some q → q_isEditable q = false →
  ∃ s1, flush (S fuel) v false s = Ok tt s1
      ∧ replace (S fuel) v idx amt recs s = Throw NOT_EDITABLE s1
      ∧ (needsFlush self = false → s1 = s).
Proof.
  intros Hwf Hd Hself Hkeys Hq Hed.
  destruct (flush_returns depth (S fuel) v false s Hwf) as [s1 Hs1];
    [by eexists|lia|].
  exists s1. split; [done|]. split.
  - unfold replace, bind at 1. rewrite Hs1.
    pose proof (flush_same_shape (S fuel) v false s s1) as Hsh.
    pose proof (flush_storeKeys_set (S fuel) v false s s1) as Hks.
    rewrite Hs1 in Hsh, Hks.
    destruct (lift_lookup _ _ _ _ v self (Hsh eq_refl) Hself) as (x1 & Hx1 & Hshape).
    destruct (lift_lookup _ _ _ _ v self (Hks eq_refl) Hself) as (x1' & Hx1' & Hset).
    rewrite Hx1 in Hx1'. injection Hx1' as <-.
    rewrite (bind_get_view _ _ _ _ Hx1).
    destruct Hset as [arr1 Harr1]; [by rewrite Hkeys|]. rewrite Harr1.
    unfold isEditable. destruct Hshape as (_ & -> & _). by rewrite Hq, Hed.
  - intros Hn. rewrite (flush_clean _ _ _ _ Hself Hn) in Hs1. congruence.
Qed.

End Guards.

Section Example.
Context `{!Collaborators}.

Lemma notifications_of_not_about v t :
  Forall (fun e => ¬ about v e) t → notifications_of v t = [].
Proof.
  intros HF. induction t as [|e t IH]; [done|].
  apply Forall_cons in HF as [He Ht]. specialize (IH Ht).
  destruct e; simpl; try done. simpl in He. by rewrite decide_False.
Qed.

Lemma notifications_of_app v t1 t2 :
  notifications_of v (t1 ++ t2) = notifications_of v t1 ++ notifications_of v t2.
Proof.
  induction t1 as [|e t1 IH]; [done|].
  destruct e; simpl; try done. case_decide; [|done]. by rewrite IH.
Qed.

Lemma seed_storeKeys a d u p x : storeKeys (seed a d u p x) = storeKeys x.
Proof. unfold seed. case_match; by destruct x. Qed.

Lemma seed_scra_records a d u p x :
  _scra_records (seed a d u p x) = _scra_records x.
Proof. unfold seed. case_match; by destruct x. Qed.

Lemma flush_result_lookup nested a d u v x vs :
  alter (set_insideFlush false) v (seed_all nested a d u v (<[v := x]> vs)) !! v
  = Some (set_insideFlush false
            (if decide (v ∈ nested) then seed a d u v x else x)).
Proof.
  rewrite lookup_alter_eq, seed_all_lookup, lookup_insert_eq.
  by case_decide.
Qed.

Lemma findDifferences_example old new k1 k2 k3 k4 :
  arr_elems old = [k1; k2; k3] → arr_elems new = [k1; k4; k3] → k2 ≠ k4 →
  arr_ref new ≠ arr_ref old →
  Differ._findDifferences (Some old) (Some new) = Val (Some (mkIndexSet 1 1)).
Proof.
  intros Hold Hnew Hne Href. unfold Differ._findDifferences, same_ref.
  rewrite (proj2 (Nat.eqb_neq (arr_ref old) (arr_ref new))) by done.
  rewrite Hold, Hnew.
  apply Z.eqb_neq in Hne.
  repeat (cbv -[Z.eqb]; rewrite ?Z.eqb_refl, ?Hne).
  done.
Qed.

Lemma cache_example recs :
  let recs' := Cache.set_length (Cache.clear_range recs (mkIndexSet 1 1)) 3 in
  List.length recs' = 3%nat
  ∧ Cache.get_at recs' 1 = None
  ∧ Cache.get_at recs' 0 = Cache.get_at recs 0
  ∧ Cache.get_at recs' 2 = Cache.get_at recs 2.
Proof.
  destruct recs as [|r0 [|r1 [|r2 rest]]]; cbv zeta; repeat split; try done.
  apply length_resize.
Qed.

Lemma merges_le self b b' :
  batches_le b b' → merges self b = true → merges self b' = true.
Proof.
  unfold merges. intros Hle [Hb|Hf]%orb_true_iff; apply orb_true_iff;
    [left|by right].
  apply bool_decide_eq_true in Hb as [m ->].
  destruct (Hle m eq_refl) as (m' & -> & _). by apply bool_decide_eq_true.
Qed.

(** C2 (as amended): a flush of [[k1, k2, k3]] whose merge returns
    [[k1, k4, k3]] finds the range [1, 2), replaces [storeKeys], clears
    cache index 1 and no other index, and fires one content-changed
    notification, which starts at index 1 and runs to the end of both
    sequences: start 1, removed 2, added 2. *)
Theorem flush_example depth fuel v (f : bool) s self q old k1 k2 k3 k4 :
  well_formed depth s → views s !! v = Some self → (depth v ≤ fuel)%nat →
  negb (needsFlush self) && negb f = false →
  enabled self = true → _insideFlush self = false →
  is_Some (store self) → query self = Some q → location q = LOCAL →
  merges self (_scra_changedStoreKeys self) = true →
  storeKeys self = Some old → arr_elems old = [k1; k2; k3] → k2 ≠ k4 →
  (∀ vs o b, arr_elems (qr_storeKeys (merge vs q o b v)) = [k1; k4; k3]
             ∧ arr_ref (qr_storeKeys (merge vs q o b v)) ≠ arr_ref old) →
  ∃ s' t new self',
    flush (S fuel) v f s = Ok tt s'
    ∧ trace s' = trace s ++ t
    ∧ arr_elems new = [k1; k4; k3]
    ∧ Differ._findDifferences (Some old) (Some new) = Val (Some (mkIndexSet 1 1))
    ∧ views s' !! v = Some self'
    ∧ storeKeys self' = Some new
    ∧ (∀ recs, _scra_records self = Some recs →
         ∃ recs', _scra_records self' = Some recs'
           ∧ List.length recs' = 3%nat
           ∧ Cache.get_at recs' 1 = None
           ∧ Cache.get_at recs' 0 = Cache.get_at recs 0
           ∧ Cache.get_at recs' 2 = Cache.get_at recs 2)
    ∧ notifications_of v t = [(1, 2, 2)].
Proof.
  intros Hwf Hself Hd Hg1 Hen Hin Hst Hq Hloc Hm Hkeys Hold Hne Hmerge.
  destruct (flush_spec depth fuel v f s self q Hwf Hself Hd Hg1 Hen Hin Hst Hq Hloc)
    as (sb & b & t & _ & Hxb & Hle & Ht & HPt & _ & _ & Hres).
  cbv zeta in Hres. rewrite (merges_le _ _ _ Hle Hm) in Hres.
  destruct Hres as (r & Hr & Hflush).
  set (qr := merge _ _ _ _ _) in *.
  destruct (Hmerge (<[v:=set_flushed true (entered self b)]> (views sb))
              (if f then None else storeKeys self) b) as [Hnew Href].
  fold qr in Hnew, Href.
  rewrite Hkeys in Hr.
  rewrite (findDifferences_example old (qr_storeKeys qr) k1 k2 k3 k4) in Hr
    by done.
  injection Hr as <-.
  eexists _, _, (qr_storeKeys qr), _.
  split; [exact Hflush|]. cbn [views trace].
  split; [by rewrite Ht, <- app_assoc|].
  split; [done|]. split; [by apply findDifferences_example with k1 k2 k3 k4|].
  split; [apply flush_result_lookup|].
  split.
  { cbn [storeKeys set_insideFlush].
    case_decide; [rewrite seed_storeKeys|]; unfold merged_view;
      by destruct (_scra_records (entered self b)). }
  split.
  { intros recs Hrecs.
    eexists. split.
    - cbn [_scra_records set_insideFlush].
      case_decide; [rewrite seed_scra_records|]; unfold merged_view;
        replace (_scra_records (entered self b)) with (Some recs)
          by (by destruct self); reflexivity.
    - rewrite Hnew. apply cache_example. }
  rewrite notifications_of_app, (notifications_of_not_about _ _ HPt).
  unfold merged_events. rewrite Hkeys, Hold, Hnew. simpl.
  by rewrite decide_True.
Qed.

End Example.

Section Propagation.
Context `{!Collaborators}.

(** A flush that stops at a guard has no effect to observe. *)
Lemma flush_skips fuel v (f : bool) s self :
  views s !! v = Some self →
  (∀ q, ¬ reconciles self f q) →
  ∃ s', flush (S fuel) v f s = Ok tt s' ∧ trace s' = trace s.
Proof.
  intros Hself Hno. cbn [flush]. rewrite (bind_get_view _ _ _ _ Hself).
  destruct (negb (needsFlush self) && negb f) eqn:Hg1; [by eexists|].
  destruct (enabled self) eqn:Hen; [|by eexists].
  destruct (_insideFlush self) eqn:Hin; [by eexists|]. cbn [negb].
  rewrite (bind_modify_view _ _ _ _ _ Hself). unfold flush_local.
  destruct (store self) eqn:Hst; [|by eexists].
  destruct (query self) as [q|] eqn:Hq; [|by eexists].
  destruct (location q) eqn:Hloc; [|by eexists].
  destruct (Hno q). repeat split; eauto.
Qed.

Lemma seed_batches a d u p x :
  (size a + size d + size u)%nat ≠ 0%nat →
  _scra_changedStoreKeys (seed a d u p x)
  = Some (merge_into (GuidView p) a d u (_scra_changedStoreKeys x)).
Proof.
  intros Hne. unfold seed.
  destruct (Nat.eqb_spec (size a + size d + size u) 0); [done|]. by destruct x.
Qed.

Lemma reconciles_dec self f :
  (∃ q, reconciles self f q) ∨ (∀ q, ¬ reconciles self f q).
Proof.
  unfold reconciles.
  destruct (negb (needsFlush self) && negb f); [right; naive_solver|].
  destruct (enabled self); [|right; naive_solver].
  destruct (_insideFlush self); [right; naive_solver|].
  destruct (store self); [|right; intros q (_&_&_&[? ?]&_); done].
  destruct (query self) as [q|]; [|right; naive_solver].
  destruct (location q) eqn:Hloc; [left|right].
  - exists q. by repeat split.
  - intros q' (_&_&_&_&[= <-]&?). congruence.
Qed.

Lemma not_about_merge v old ch qr t :
  Forall (fun e => ¬ about v e) t → EvMerge v old ch qr ∉ t.
Proof.
  intros HF Hin. rewrite Forall_forall in HF. by apply (HF _ Hin).
Qed.

(** A flush during which [merge] was invoked for [p]: it got past the
    guards, and the result of that invocation is what the nested record
    arrays were told. *)
Lemma flush_merged depth fuel p (f : bool) s s' t self old ch qr :
  well_formed depth s → views s !! p = Some self → (depth p ≤ fuel)%nat →
  flush (S fuel) p f s = Ok tt s' → trace s' = trace s ++ t →
  EvMerge p old ch qr ∈ t →
  ∃ q sb b r,
    reconciles self f q
    ∧ views sb !! p = Some (entered self b)
    ∧ well_formed depth sb
    ∧ (∀ w x', views sb !! w = Some x' → w ≠ p →
         ∃ x, views s !! w = Some x
              ∧ changes_le (batch_at (GuidView p) x') (batch_at (GuidView p) x))
    ∧ views s'
      = alter (set_insideFlush false) p
          (seed_all (default [] (nestedRecordArrays self))
             (qr_added qr) (qr_deleted qr) (qr_updated qr) p
             (<[p := merged_view (entered self b) (qr_storeKeys qr) r]>
                (views sb))).
Proof.
  intros Hwf Hself Hd Hflush Ht Hin.
  destruct (reconciles_dec self f) as [[q Hrec]|Hno].
  2: { destruct (flush_skips fuel p f s self Hself Hno) as (s2 & Hs2 & Ht2).
       rewrite Hflush in Hs2. injection Hs2 as <-.
       rewrite Ht in Ht2. rewrite <- (app_nil_r (trace s)) in Ht2 at 2.
       apply app_inv_head in Ht2 as ->. by apply elem_of_nil in Hin. }
  destruct Hrec as (Hg1 & Hen & Hins & Hst & Hq & Hloc).
  destruct (flush_spec depth fuel p f s self q Hwf Hself Hd Hg1 Hen Hins Hst Hq Hloc)
    as (sb & b & t0 & _ & Hxb & Hle & Ht0 & HPt & Hwfb & Horigin & Hres).
  cbv zeta in Hres. destruct (merges self b).
  - destruct Hres as (r & Hr & Hfl). rewrite Hflush in Hfl.
    injection Hfl as ->. cbn [trace] in Ht. rewrite Ht0, <- app_assoc in Ht.
    apply app_inv_head in Ht as <-.
    apply elem_of_app in Hin as [Hin|Hin];
      [by apply not_about_merge in Hin|].
    apply elem_of_cons in Hin as [Heq|Hin].
    + injection Heq as _ _ Hqr. exists q, sb, b, r.
      split; [by repeat split|]. split; [done|]. split; [done|].
      split; [done|]. cbn [views]. by rewrite Hqr.
    + unfold merged_events in Hin. destruct r; [|by apply elem_of_nil in Hin].
      by apply list_elem_of_singleton in Hin.
  - rewrite Hflush in Hres. injection Hres as ->. cbn [trace] in Ht.
    rewrite Ht0 in Ht. apply app_inv_head in Ht as <-.
    by apply not_about_merge in Hin.
Qed.

Lemma changes_le_union_l a b : changes_le a (changes_union a b).
Proof. repeat split; simpl; set_solver. Qed.

Lemma changes_le_union_r a b : changes_le b (changes_union a b).
Proof. repeat split; simpl; set_solver. Qed.

Lemma changes_union_mono a a' b :
  changes_le a a' → changes_le (changes_union a b) (changes_union a' b).
Proof. intros (?&?&?). repeat split; simpl; set_solver. Qed.

(** What a nested record array holds for origin [p] once it was told. *)
Lemma seed_lookup qr p x :
  nonempty_result qr →
  ∃ m, _scra_changedStoreKeys
         (seed (qr_added qr) (qr_deleted qr) (qr_updated qr) p x) = Some m
     ∧ m !! GuidView p
       = Some (changes_union (batch_at (GuidView p) x) (result_changes qr)).
Proof.
  intros Hne. eexists. split; [by apply seed_batches|].
  by rewrite merge_into_lookup.
Qed.

(** C7 (as amended): when a flush of [p] invokes [merge] and the added,
    deleted and updated sets of the result are not all empty, every
    nested record array [c] of [p] holds, under origin [p], exactly those
    sets united with what it still held for [p]; and a flush of [c] that
    gets past its guards (dirty or forced, enabled, not inside a flush,
    local query) passes them to [merge]. Being told does not mark [c]
    as needing a flush. *)
Theorem parent_changes_reach_child depth fuel p (f : bool) s s' t self nested c
    old ch qr :
  well_formed depth s → views s !! p = Some self → (depth p ≤ fuel)%nat →
  flush (S fuel) p f s = Ok tt s' → trace s' = trace s ++ t →
  EvMerge p old ch qr ∈ t → nonempty_result qr →
  nestedRecordArrays self = Some nested → c ∈ nested →
  ∃ xc m cs,
    views s' !! c = Some xc
    ∧ _scra_changedStoreKeys xc = Some m ∧ m !! GuidView p = Some cs
    ∧ changes_le (result_changes qr) cs
    ∧ (∀ xc0, c ≠ p → views s !! c = Some xc0 →
         changes_le cs (changes_union (batch_at (GuidView p) xc0)
                                      (result_changes qr)))
    ∧ (∀ xc0, views s !! c = Some xc0 → needsFlush xc0 = false →
         needsFlush xc = false)
    ∧ (∀ f2 q2, reconciles xc f2 q2 → (depth c ≤ fuel)%nat →
         ∃ s2 t2 old2 m2 qr2 cs2,
           flush (S fuel) c f2 s' = Ok tt s2
           ∧ trace s2 = trace s' ++ t2
           ∧ EvMerge c old2 (Some m2) qr2 ∈ t2
           ∧ m2 !! GuidView p = Some cs2
           ∧ changes_le (result_changes qr) cs2).
Proof.
  intros Hwf Hself Hd Hflush Ht Hin Hne Hnested Hc.
  destruct (flush_merged depth fuel p f s s' t self old ch qr
              Hwf Hself Hd Hflush Ht Hin)
    as (q & sb & b & r & Hrec & Hxb & Hwfb & Horigin & Hviews).
  rewrite Hnested in Hviews. cbn [default] in Hviews.
  assert (Hseeded : ∃ xcb,
    views s' !! c
    = Some ((if decide (c = p) then set_insideFlush false else id)
              (seed (qr_added qr) (qr_deleted qr) (qr_updated qr) p xcb))
    ∧ (c ≠ p → views sb !! c = Some xcb)
    ∧ (c = p → _scra_changedStoreKeys xcb = None)).
  { rewrite Hviews. destruct (decide (c = p)) as [->|Hcp].
    - exists (merged_view (entered self b) (qr_storeKeys qr) r).
      rewrite flush_result_lookup, decide_True by done.
      split; [done|]. split; [done|]. intros _.
      unfold merged_view. destruct r; [|by destruct self].
      destruct (_scra_records (entered self b)); by destruct self.
    - destruct (wf_nested _ _ Hwfb p (entered self b) nested c Hxb) as [xcb Hxcb];
        [by destruct self|done|].
      exists xcb. rewrite lookup_alter_ne by done.
      rewrite seed_all_lookup, decide_True by done.
      rewrite lookup_insert_ne by done. rewrite Hxcb. done. }
  destruct Hseeded as (xcb & Hxc & Hsb & Hown).
  destruct (seed_lookup qr p xcb Hne) as (m & Hm & Hcs).
  set (xc := (if decide (c = p) then set_insideFlush false else id)
               (seed (qr_added qr) (qr_deleted qr) (qr_updated qr) p xcb)) in *.
  assert (Hmxc : _scra_changedStoreKeys xc = Some m).
  { subst xc. by case_decide. }
  exists xc, m, (changes_union (batch_at (GuidView p) xcb) (result_changes qr)).
  split; [done|]. split; [done|]. split; [done|].
  split; [apply changes_le_union_r|]. split.
  { intros xc0 Hcp Hxc0. apply changes_union_mono.
    destruct (Horigin c xcb (Hsb Hcp) Hcp) as (x & Hx & Hle).
    rewrite Hxc0 in Hx. by injection Hx as <-. }
  split.
  { intros xc0 Hxc0 Hclean.
    assert (HR : lift (fun _ => needsFlush_le) any_event s s').
    { apply (flush_needsFlush_le (S fuel) p f). by rewrite Hflush. }
    destruct (lift_lookup _ _ s s' c xc0 HR Hxc0) as (x' & Hx' & Hle).
    rewrite Hxc in Hx'. injection Hx' as <-.
    destruct (needsFlush xc) eqn:Hn; [|done].
    rewrite (Hle Hn) in Hclean. done. }
  intros f2 q2 (Hg1 & Hen & Hins & Hst & Hq & Hloc) Hdc.
  assert (Hwf' : well_formed depth s').
  { eapply well_formed_lift; [exact Hwf|].
    apply (flush_same_shape (S fuel) p f). by rewrite Hflush. }
  destruct (flush_spec depth fuel c f2 s' xc q2 Hwf' Hxc Hdc Hg1 Hen Hins Hst Hq Hloc)
    as (sb2 & b2 & t0 & _ & _ & Hle & Ht0 & _ & _ & _ & Hres).
  rewrite Hmxc in Hle. destruct (Hle m eq_refl) as (m2 & -> & Hle2).
  destruct (Hle2 _ _ Hcs) as (cs2 & Hcs2 & Hcsle).
  cbv zeta in Hres. unfold merges in Hres.
  rewrite bool_decide_eq_true_2 in Hres by by eexists.
  cbn [orb] in Hres. destruct Hres as (r2 & _ & Hfl2).
  eexists _, _, _, m2, _, cs2. split; [exact Hfl2|]. cbn [trace].
  split; [by rewrite Ht0, <- app_assoc|].
  split; [apply elem_of_app; right; left|].
  split; [done|]. etrans; [apply changes_le_union_r|done].
Qed.

End Propagation.

End FlushFacts.

(** ** Change notifications and dirtiness *)

Module DirtyFacts.
Import RecordArray Vocabulary Effects FlushFrame FlushFacts.

Section Dirty.
Context `{!Collaborators}.

#[export] Instance marked_preorder : PreOrder marked.
Proof.
  split; [by left|]. intros x y z [->| ->] [->| ->]; [by left|by right|by right|].
  right. by destruct x.
Qed.

Local Abbreviation Rm := (lift (fun _ => marked) any_event).

#[export] Instance same_nesting_preorder : PreOrder same_nesting.
Proof. split; [done|]. unfold same_nesting. intros x y z. congruence. Qed.

Local Abbreviation Rn := (lift (fun _ => same_nesting) any_event).

Lemma lift_mono (Rv Rv' : ViewId → relation View) Pe s s' :
  (∀ w x x', Rv w x x' → Rv' w x x') → lift Rv Pe s s' → lift Rv' Pe s s'.
Proof.
  intros HRv [Hv Ht]. split; [|done]. intros w.
  destruct (Hv w); constructor. by apply HRv.
Qed.

Lemma lift_insert (Rv : ViewId → relation View) Pe s v x x' :
  (∀ w, Reflexive (Rv w)) → views s !! v = Some x → Rv v x x' →
  lift Rv Pe s (mkState (<[v := x']> (views s)) (trace s)).
Proof.
  intros Hrefl Hx HR. split; [|exists []; by rewrite app_nil_r].
  intros w. simpl. destruct (decide (v = w)) as [<-|Hne].
  - rewrite lookup_insert_eq, Hx. by constructor.
  - rewrite lookup_insert_ne by done. reflexivity.
Qed.

Lemma marked_nested x x' : marked x x' → same_nesting x x'.
Proof. intros [->| ->]; [done|by destruct x]. Qed.

Lemma marked_same_nesting s s' : Rm s s' → Rn s s'.
Proof. apply lift_mono. intros _. apply marked_nested. Qed.

Lemma marked_dirty x x' : marked x x' → needsFlush x = true → needsFlush x' = true.
Proof. intros [->| ->]; [done|by destruct x]. Qed.

Lemma ranked_same_nesting height s s' :
  ranked height s → Rn s s' → ranked height s'.
Proof.
  intros Hr HR v x' nested c Hx' Hn Hc.
  destruct (lift_lookup_inv _ _ _ _ _ _ HR Hx') as (x & Hx & Hm).
  rewrite Hm in Hn.
  destruct (Hr v x nested c Hx Hn Hc) as [Hsome Hlt].
  split; [by eapply lift_is_Some|done].
Qed.

Lemma descendant_same_nesting s s' v d :
  Rn s s' → descendant s v d → descendant s' v d.
Proof.
  intros HR. induction 1 as [|v x nested c d Hx Hn Hc _ IH]; [constructor|].
  destruct (lift_lookup _ _ _ _ _ _ HR Hx) as (x' & Hx' & Hm).
  eapply descendant_nested; [done| |done|done].
  by rewrite Hm.
Qed.

Lemma ranked_marked height s s' : ranked height s → Rm s s' → ranked height s'.
Proof. intros Hr HR. eapply ranked_same_nesting; [done|]. by apply marked_same_nesting. Qed.

Lemma descendant_marked s s' v d : Rm s s' → descendant s v d → descendant s' v d.
Proof. intros HR. apply descendant_same_nesting. by apply marked_same_nesting. Qed.

Lemma dirty_marked s s' v : Rm s s' → dirty s v → dirty s' v.
Proof.
  intros HR (x & Hx & Hd).
  destruct (lift_lookup _ _ _ _ _ _ HR Hx) as (x' & Hx' & Hm).
  exists x'. split; [done|]. by eapply marked_dirty.
Qed.

(** [parentDidBecomeDirty] returns when given more fuel than the height
    of the record array, marks it and everything nested in it, and does
    nothing else. *)
Lemma parentDidBecomeDirty_spec height fuel v s :
  ranked height s → is_Some (views s !! v) → (height v < fuel)%nat →
  ∃ s', parentDidBecomeDirty fuel v s = Ok tt s'
      ∧ Rm s s' ∧ trace s' = trace s
      ∧ ∀ d, descendant s v d → dirty s' d.
Proof.
  revert v s. induction fuel as [|fuel IH]; intros v s Hr [x Hx] Hlt; [lia|].
  cbn [parentDidBecomeDirty]. rewrite (bind_get_view _ _ _ _ Hx).
  rewrite (bind_modify_view _ _ _ _ _ Hx).
  set (s1 := mkState _ _).
  assert (HR1 : Rm s s1).
  { split; [|exists []; by rewrite app_nil_r]. intros w. subst s1. simpl.
    destruct (decide (v = w)) as [<-|Hne].
    - rewrite lookup_insert_eq, Hx. constructor. by right.
    - rewrite lookup_insert_ne by done. reflexivity. }
  assert (Hv1 : dirty s1 v).
  { exists (set_needsFlush true x). subst s1. simpl.
    rewrite lookup_insert_eq. split; [done|]. by destruct x. }
  assert (Hloop : ∀ l s2, ranked height s2 → Rm s1 s2 →
            (∀ c, c ∈ l → is_Some (views s2 !! c) ∧ (height c < fuel)%nat) →
            ∃ s', forEach l (parentDidBecomeDirty fuel) s2 = Ok tt s'
                ∧ Rm s2 s' ∧ trace s' = trace s2
                ∧ ∀ c d, c ∈ l → descendant s2 c d → dirty s' d).
  { induction l as [|c l IHl]; intros s2 Hr2 HR2 Hl.
    - exists s2. split; [done|]. split; [reflexivity|]. split; [done|].
      intros c d Hc. by apply elem_of_nil in Hc.
    - destruct (Hl c) as [Hc Hcf]; [left|].
      destruct (IH c s2 Hr2 Hc Hcf) as (s3 & Hs3 & HR3 & Ht3 & Hd3).
      destruct (IHl s3) as (s4 & Hs4 & HR4 & Ht4 & Hd4).
      { by eapply ranked_marked. }
      { by etrans. }
      { intros c' Hc'. destruct (Hl c') as [? ?]; [by right|].
        split; [by eapply lift_is_Some|done]. }
      exists s4. simpl. unfold bind. rewrite Hs3.
      split; [done|]. split; [by etrans|]. split; [congruence|].
      intros c' d [->|Hc']%elem_of_cons Hdesc.
      + eapply dirty_marked; [done|]. by apply Hd3.
      + apply (Hd4 c' d Hc'). by eapply descendant_marked. }
  destruct (nestedRecordArrays x) as [nested|] eqn:Hn.
  - destruct (Hloop nested s1) as (s' & Hs' & HR' & Ht' & Hd').
    { by eapply ranked_marked. }
    { reflexivity. }
    { intros c Hc. destruct (Hr v x nested c Hx Hn Hc) as [Hsome Hh].
      split; [by eapply lift_is_Some|lia]. }
    exists s'. split; [done|]. split; [by etrans|]. split; [by rewrite Ht'|].
    intros d Hdesc. inversion Hdesc as [|? x0 nested0 c ? Hx0 Hn0 Hc Hcd]; subst.
    + by eapply dirty_marked.
    + rewrite Hx in Hx0. injection Hx0 as <-. rewrite Hn in Hn0.
      injection Hn0 as <-. apply (Hd' c d Hc). by eapply descendant_marked.
  - exists s1. split; [done|]. split; [done|]. split; [done|].
    intros d Hdesc. inversion Hdesc as [|? x0 nested0 c ? Hx0 Hn0 Hc Hcd]; subst.
    + done.
    + rewrite Hx in Hx0. injection Hx0 as <-. congruence.
Qed.

Lemma parentDidChangeStoreKeys_needsFlush c a d u p s s' w x :
  parentDidChangeStoreKeys c a d u p s = Ok tt s' → views s !! w = Some x →
  ∃ x', views s' !! w = Some x' ∧ needsFlush x' = needsFlush x.
Proof.
  intros Hcall Hw. unfold parentDidChangeStoreKeys in Hcall.
  destruct (_ =? _)%nat; [injection Hcall as <-; by exists x|].
  unfold modify_view in Hcall.
  destruct (views s !! c) as [xc|] eqn:Hxc; [|done]. injection Hcall as <-.
  simpl. destruct (decide (c = w)) as [->|Hne].
  - rewrite lookup_insert_eq. eexists. split; [done|].
    rewrite Hxc in Hw. injection Hw as ->. by destruct x.
  - rewrite lookup_insert_ne by done. by exists x.
Qed.

(** C6 (as amended): a store notification that gets past the fast-path
    exits merges its keys and then marks the record array and everything
    nested in it, at any depth, as needing a flush. A notification from a
    parent, [parentDidChangeStoreKeys], merges its sets into the batch of
    that parent and leaves every [needsFlush] flag as it was: dirtiness
    travels only through [parentDidBecomeDirty]. *)
Theorem change_notification_dirtiness height fuel v s self q keys types :
  ranked height s → (height v < fuel)%nat →
  views s !! v = Some self → query self = Some q → location q = LOCAL →
  containsRecordTypes q types = true → keys ≠ [] →
  (∃ s', storeDidChangeStoreKeys fuel v keys types s = Ok tt s'
       ∧ ∀ d, descendant s v d → dirty s' d)
  ∧ (∀ a d u p,
       ∃ s', parentDidChangeStoreKeys v a d u p s = Ok tt s'
           ∧ views s' !! v = Some (seed a d u p self)
           ∧ ∀ w x, views s !! w = Some x →
               ∃ x', views s' !! w = Some x' ∧ needsFlush x' = needsFlush x).
Proof.
  intros Hr Hlt Hself Hq Hloc Htypes Hkeys. split.
  - unfold storeDidChangeStoreKeys. rewrite (bind_get_view _ _ _ _ Hself).
    rewrite Hq, Hloc, Htypes. cbn [is_LOCAL negb].
    destruct (Z.eqb_spec (js_length keys) 0) as [H0|_].
    { destruct keys; [done|]. unfold js_length in H0. simpl in H0. lia. }
    rewrite (bind_modify_view _ _ _ _ _ Hself).
    set (s1 := mkState _ _).
    assert (HR1 : Rn s s1).
    { apply (lift_insert _ _ _ _ self); [apply _|done|]. by destruct self. }
    destruct (parentDidBecomeDirty_spec height fuel v s1) as (s' & Hs' & _ & _ & Hd).
    + by eapply ranked_same_nesting.
    + subst s1. simpl. rewrite lookup_insert_eq. by eexists.
    + done.
    + exists s'. split; [done|]. intros d Hdesc. apply Hd.
      by eapply descendant_same_nesting.
  - intros a d u p. eexists. split; [by apply parentDidChangeStoreKeys_Some|].
    cbn [views]. split; [by rewrite lookup_insert_eq|].
    intros w x Hw.
    destruct (parentDidChangeStoreKeys_needsFlush v a d u p s
             (mkState (<[v := seed a d u p self]> (views s)) (trace s)) w x)
      as (x' & Hx' & Hn); [by apply parentDidChangeStoreKeys_Some|done|].
    by exists x'.
Qed.

End Dirty.

End DirtyFacts.

(** ** Changes that come from the store *)

Module StoreFacts.
Import RecordArray Vocabulary Effects FlushFrame FlushFacts DirtyFacts.

(** Decomposes a computation along its binds and branches; [leaf] closes
    the calls and writes it meets. *)
Ltac respects_auto leaf :=
  lazymatch goal with
  | |- respects _ (bind _ _) =>
      apply respects_bind;
        [apply _|respects_auto leaf|intros ?; respects_auto leaf]
  | |- respects _ (ret _) => apply respects_ret; apply _
  | |- respects _ (throw _) => apply respects_throw; apply _
  | |- respects _ out_of_fuel => apply respects_out_of_fuel
  | |- respects _ (get_view _) => apply respects_get_view; apply _
  | |- respects _ get_state => apply respects_get_state; apply _
  | |- respects _ (lift_res _) => apply respects_lift_res; apply _
  | |- respects _ (emit _) => apply respects_emit; [apply _|done]
  | |- respects _ (forEach _ _) =>
      apply respects_forEach; [apply _|intros ? _; respects_auto leaf]
  | |- respects _ (match ?x with _ => _ end) =>
      destruct x eqn:?; respects_auto leaf
  | |- _ => leaf
  end.

Section AllCalls.
Context `{!Collaborators}.
Context (Rv : relation View) `{!PreOrder Rv}.
Hypothesis Rv_steps : batch_steps Rv.

Local Abbreviation R := (lift (fun _ => Rv) any_event).

Lemma batch_flush_steps : flush_steps Rv.
Proof.
  destruct Rv_steps as (Hframe & Hclear & Hseed & _).
  intros x. repeat split; intros; try (apply Hframe; by destruct x); auto.
Qed.

Lemma modify_frame v f :
  (∀ x, _scra_changedStoreKeys (f x) = _scra_changedStoreKeys x) →
  respects R (modify_view v f).
Proof.
  intros Hf. apply respects_modify_view; [apply _|]. intros x.
  by apply Rv_steps.
Qed.

Lemma flush_R fuel v f : respects R (flush fuel v f).
Proof. apply flush_preserves; [apply _|apply batch_flush_steps]. Qed.

Ltac frame_leaf :=
  lazymatch goal with
  | |- respects _ (modify_view _ _) =>
      apply modify_frame; intros []; cbn; repeat case_match; done
  | |- respects _ (flush _ _ _) => apply flush_R
  | |- _ => idtac
  end.

Lemma recordArrayWillDestroy_R p c : respects R (recordArrayWillDestroy p c).
Proof. unfold recordArrayWillDestroy. respects_auto ltac:(idtac; frame_leaf). Qed.

Lemma Object_destroy_R v : respects R (Object_destroy v).
Proof. unfold Object_destroy. respects_auto ltac:(idtac; frame_leaf). Qed.

Lemma destroy_R fuel v : respects R (destroy fuel v).
Proof.
  revert v. induction fuel as [|fuel IH]; intros v; cbn [destroy];
    respects_auto ltac:(idtac; first [apply IH|apply recordArrayWillDestroy_R
                              |apply Object_destroy_R|frame_leaf]).
Qed.

Lemma parentDidBecomeDirty_R fuel v : respects R (parentDidBecomeDirty fuel v).
Proof.
  revert v. induction fuel as [|fuel IH]; intros v; cbn [parentDidBecomeDirty];
    respects_auto ltac:(idtac; first [apply IH|frame_leaf]).
Qed.

Lemma flushFromLeafs_R fuel v : respects R (flushFromLeafs fuel v).
Proof.
  revert v. induction fuel as [|fuel IH]; intros v; cbn [flushFromLeafs];
    respects_auto ltac:(idtac; first [apply IH|frame_leaf]).
Qed.

Lemma storeDidChangeStoreKeys_R fuel v keys types :
  respects R (storeDidChangeStoreKeys fuel v keys types).
Proof.
  unfold storeDidChangeStoreKeys.
  respects_auto ltac:(idtac; first [apply parentDidBecomeDirty_R|idtac]).
  apply respects_modify_view; [apply _|]. intros x.
  destruct Rv_steps as (_ & _ & _ & Hstore). apply Hstore.
Qed.

Lemma parentDidChangeStoreKeys_R c a d u p :
  respects R (parentDidChangeStoreKeys c a d u p).
Proof.
  unfold parentDidChangeStoreKeys. respects_auto ltac:(idtac).
  apply respects_modify_view; [apply _|]. intros x.
  destruct Rv_steps as (_ & _ & Hseed & _). apply Hseed.
Qed.

Lemma registerNestedRecordArray_R v c :
  respects R (registerNestedRecordArray v c).
Proof. unfold registerNestedRecordArray. respects_auto ltac:(idtac; frame_leaf). Qed.

(** Every call respects the relation. *)
Theorem run_preserves fuel c : respects R (run fuel c).
Proof.
  destruct c; cbn [run];
    unfold length, objectAt, replace, indexOf, lastIndexOf, refresh, enable,
           disable, registerWithParents;
    respects_auto ltac:(idtac; first
      [ apply destroy_R | apply recordArrayWillDestroy_R
      | apply storeDidChangeStoreKeys_R | apply parentDidBecomeDirty_R
      | apply registerNestedRecordArray_R | apply parentDidChangeStoreKeys_R
      | apply flushFromLeafs_R | frame_leaf ]).
Qed.

End AllCalls.

Section StoreOrigin.
Context `{!Collaborators}.

#[export] Instance keeps_updated_only_preorder : PreOrder keeps_updated_only.
Proof. split; [by intros x ?|]. intros x y z H1 H2 Hx. auto. Qed.

Lemma updated_only_merge_view x p a d u :
  updated_only x →
  updated_only (set_scra_changedStoreKeys
    (Some (merge_into (GuidView p) a d u (_scra_changedStoreKeys x))) x).
Proof.
  intros Hx m g cs [= <-] Hcs Hg. destruct x as [? ? ? ? ? ? b]; simpl in *.
  destruct g as [|st|w]; [| |done];
    rewrite merge_into_lookup_ne in Hcs by done;
    (destruct b as [m0|]; cbn [default] in Hcs;
       [by eapply Hx|by rewrite lookup_empty in Hcs]).
Qed.

Lemma updated_only_merge_store x st keys :
  updated_only x →
  updated_only (set_scra_changedStoreKeys
    (Some (merge_into (guidFor_store st) ∅ ∅ keys (_scra_changedStoreKeys x))) x).
Proof.
  intros Hx m g cs [= <-] Hcs Hg. destruct x as [? ? ? ? ? ? b]; simpl in *.
  destruct (decide (guidFor_store st = g)) as [<-|Hne].
  - rewrite merge_into_lookup in Hcs. injection Hcs as <-. simpl.
    destruct b as [m0|]; simpl.
    + destruct (m0 !! guidFor_store st) as [cs0|] eqn:Hcs0; simpl.
      * destruct (Hx m0 _ cs0 eq_refl Hcs0 Hg) as [-> ->]. split; set_solver.
      * split; set_solver.
    + rewrite lookup_empty. simpl. split; set_solver.
  - rewrite merge_into_lookup_ne in Hcs by done.
    destruct b as [m0|]; cbn [default] in Hcs;
      [by eapply Hx|by rewrite lookup_empty in Hcs].
Qed.

Lemma keeps_updated_only_steps : batch_steps keeps_updated_only.
Proof.
  unfold batch_steps, keeps_updated_only. split; [|split; [|split]].
  - intros x x' Heq Hx m g cs Hm. rewrite Heq in Hm. by apply Hx.
  - intros [] _ m g cs [=].
  - intros x p a d u. apply updated_only_merge_view.
  - intros x st keys. apply updated_only_merge_store.
Qed.

Lemma store_batches_updated_only_lift s s' :
  lift (fun _ => keeps_updated_only) any_event s s' →
  store_batches_updated_only s → store_batches_updated_only s'.
Proof.
  intros HR Hs v x' Hx'.
  destruct (lift_lookup_inv _ _ _ _ _ _ HR Hx') as (x & Hx & Hk).
  apply Hk. by apply (Hs v x).
Qed.

Lemma fresh_updated_only x : fresh x → updated_only x.
Proof. intros Hx m g cs. by rewrite Hx. Qed.

(** C10: a store notification that is processed merges the notified keys
    into the [updated] set of the batch kept for the store, and into
    nothing else; and in every reachable state the [added] and [deleted]
    sets of every batch of store origin are empty. *)
Theorem store_changes_are_updates :
  (∀ height fuel v s self q keys types,
     ranked height s → (height v < fuel)%nat →
     views s !! v = Some self → query self = Some q → location q = LOCAL →
     containsRecordTypes q types = true → keys ≠ [] →
     ∃ s' x' m cs,
       storeDidChangeStoreKeys fuel v keys types s = Ok tt s'
       ∧ views s' !! v = Some x' ∧ _scra_changedStoreKeys x' = Some m
       ∧ m !! guidFor_store (store self) = Some cs
       ∧ added cs = added (batch_at (guidFor_store (store self)) self)
       ∧ deleted cs = deleted (batch_at (guidFor_store (store self)) self)
       ∧ updated cs
         = updated (batch_at (guidFor_store (store self)) self)
           ∪ list_to_set keys
       ∧ ∀ g, g ≠ guidFor_store (store self) →
              m !! g = default ∅ (_scra_changedStoreKeys self) !! g)
  ∧ (∀ s, reachable s → store_batches_updated_only s).
Proof.
  split.
  - intros height fuel v s self q keys types Hr Hlt Hself Hq Hloc Htypes Hkeys.
    unfold storeDidChangeStoreKeys. rewrite (bind_get_view _ _ _ _ Hself).
    rewrite Hq, Hloc, Htypes. cbn [is_LOCAL negb].
    destruct (Z.eqb_spec (js_length keys) 0) as [H0|_].
    { destruct keys; [done|]. unfold js_length in H0. simpl in H0. lia. }
    rewrite (bind_modify_view _ _ _ _ _ Hself).
    set (x1 := set_scra_changedStoreKeys _ self).
    set (s1 := mkState _ _).
    assert (Hx1 : views s1 !! v = Some x1).
    { subst s1. cbn [views]. by rewrite lookup_insert_eq. }
    destruct (parentDidBecomeDirty_spec height fuel v s1) as (s' & Hs' & HR & _ & _).
    + eapply ranked_same_nesting; [exact Hr|].
      apply (lift_insert _ _ _ _ self); [apply _|done|]. by destruct self.
    + by eexists.
    + done.
    + destruct (lift_lookup _ _ _ _ _ _ HR Hx1) as (x' & Hx' & Hm).
      exists s', x', (merge_into (guidFor_store (store self)) ∅ ∅
                        (list_to_set keys) (_scra_changedStoreKeys self)).
      eexists. split; [done|]. split; [done|]. split.
      { destruct Hm as [->| ->]; subst x1; by destruct self. }
      split; [apply merge_into_lookup|]. unfold batch_at. simpl.
      split; [set_solver|]. split; [set_solver|]. split; [done|].
      intros g Hg. by apply merge_into_lookup_ne.
  - induction 1 as [s Hinit|s v x Hreach IH Hv Hfresh|s fuel c s' Hreach IH Hout].
    + intros v x Hx. apply fresh_updated_only. by apply (Hinit v x).
    + intros w y. cbn [views]. destruct (decide (v = w)) as [<-|Hne].
      * rewrite lookup_insert_eq. intros [= <-]. by apply fresh_updated_only.
      * rewrite lookup_insert_ne by done. apply IH.
    + eapply store_batches_updated_only_lift; [|exact IH].
      eapply (run_preserves keeps_updated_only keeps_updated_only_steps); done.
Qed.

End StoreOrigin.

End StoreFacts.

(** ** Destruction and indexing *)

Module DestroyFacts.
Import RecordArray Vocabulary Effects FlushFrame FlushFacts DirtyFacts StoreFacts.

Section Destroy.
Context `{!Collaborators}.

#[export] Instance nested_sub_preorder : PreOrder (flip nested_sub).
Proof.
  split.
  - intros [l|]; simpl; [set_solver|done].
  - intros [x|] [y|] [z|]; simpl; try done. set_solver.
Qed.

#[export] Instance destroy_order_preorder : PreOrder destroy_order.
Proof.
  split.
  - intros x. split; [done|]. split; [done|]. split; [done|].
    unfold nested_sub. destruct (nestedRecordArrays x); [set_solver|done].
  - intros x y z (?&?&?&Hxy) (?&?&?&Hyz).
    split; [congruence|]. split; [congruence|]. split; [auto|].
    change (flip nested_sub (nestedRecordArrays x) (nestedRecordArrays z)).
    etrans; [exact Hxy|exact Hyz].
Qed.

Local Abbreviation Rd := (lift (fun _ => destroy_order) any_event).

Lemma destroyable_lift depth height s s' :
  destroyable depth height s → Rd s s' → destroyable depth height s'.
Proof.
  intros ([Hsc Hne] & Hr & Hst) HR. split; [split|split].
  - intros v x' q p Hx' Hq Hp.
    destruct (lift_lookup_inv _ _ _ _ _ _ HR Hx') as (x & Hx & _ & Hqq & _).
    rewrite Hqq in Hq. destruct (Hsc v x q p Hx Hq Hp) as [Hsome Hlt].
    split; [by eapply lift_is_Some|done].
  - intros v x' nested c Hx' Hn Hc.
    destruct (lift_lookup_inv _ _ _ _ _ _ HR Hx') as (x & Hx & _ & _ & _ & Hsub).
    rewrite Hn in Hsub. destruct (nestedRecordArrays x) as [l|] eqn:Hl; [|done].
    eapply lift_is_Some; [done|]. eapply Hne; [done..|]. by apply Hsub.
  - intros v x' nested c Hx' Hn Hc.
    destruct (lift_lookup_inv _ _ _ _ _ _ HR Hx') as (x & Hx & _ & _ & _ & Hsub).
    rewrite Hn in Hsub. destruct (nestedRecordArrays x) as [l|] eqn:Hl; [|done].
    destruct (Hr v x l c Hx Hl) as [Hsome Hlt]; [by apply Hsub|].
    split; [by eapply lift_is_Some|done].
  - intros v x' Hx'.
    destruct (lift_lookup_inv _ _ _ _ _ _ HR Hx') as (x & Hx & Hs & _).
    rewrite Hs. by eapply Hst.
Qed.

Lemma destroyed_lift s s' v : Rd s s' → destroyed s v → destroyed s' v.
Proof.
  intros HR (x & Hx & Hd).
  destruct (lift_lookup _ _ _ _ _ _ HR Hx) as (x' & Hx' & _ & _ & Hdd & _).
  exists x'. auto.
Qed.

Lemma Set_remove_sub c l : Set_remove c l ⊆ l.
Proof. intros y Hy. unfold Set_remove in Hy. by apply list_elem_of_filter in Hy as [_ ?]. Qed.

Lemma Forall_any_event t : Forall any_event t.
Proof. by apply Forall_forall. Qed.

Lemma recordArrayWillDestroy_spec p c s :
  is_Some (views s !! p) →
  ∃ s', recordArrayWillDestroy p c s = Ok tt s'
      ∧ Rd s s' ∧ trace s' = trace s ++ [EvRecordArrayWillDestroy p c]
      ∧ (∀ w, w ≠ p → views s' !! w = views s !! w)
      ∧ (∀ w, destroyed s' w → destroyed s w).
Proof.
  intros [x Hx]. unfold recordArrayWillDestroy. rewrite bind_emit.
  erewrite modify_view_Some by (cbn [views]; exact Hx). cbn [views trace].
  eexists. split; [done|]. split; [|split; [done|split]].
  - split; [|eexists; split; [done|apply Forall_any_event]].
    intros w. cbn [views].
    destruct (decide (p = w)) as [<-|Hne].
    + rewrite lookup_insert_eq, Hx. constructor.
      destruct x as [? ? ? n]; destruct n as [l|]; repeat split; simpl; try done.
      apply Set_remove_sub.
    + rewrite lookup_insert_ne by done. reflexivity.
  - intros w Hw. cbn [views]. by rewrite lookup_insert_ne.
  - intros w (y & Hy & Hd). cbn [views] in Hy.
    destruct (decide (p = w)) as [<-|Hne].
    + rewrite lookup_insert_eq in Hy. injection Hy as <-.
      exists x. split; [done|]. by destruct x as [? ? ? n], n.
    + rewrite lookup_insert_ne in Hy by done. by exists y.
Qed.

Lemma forEach_deregister v parents s :
  (∀ p, p ∈ parents → is_Some (views s !! p)) →
  ∃ s', forEach parents (fun p => recordArrayWillDestroy p v) s = Ok tt s'
      ∧ Rd s s' ∧ trace s' = trace s ++ deregistrations v parents
      ∧ (∀ w, w ∉ parents → views s' !! w = views s !! w)
      ∧ (∀ w, destroyed s' w → destroyed s w).
Proof.
  revert s. induction parents as [|p l IH]; intros s Hvalid.
  - exists s. split; [done|]. split; [reflexivity|].
    split; [by rewrite app_nil_r|done].
  - destruct (recordArrayWillDestroy_spec p v s)
      as (s1 & Hs1 & HR1 & Ht1 & Hf1 & Hd1); [apply Hvalid; left|].
    destruct (IH s1) as (s2 & Hs2 & HR2 & Ht2 & Hf2 & Hd2).
    { intros p' Hp'. eapply lift_is_Some; [done|]. apply Hvalid. by right. }
    exists s2. cbn [forEach]. unfold bind. rewrite Hs1.
    split; [done|]. split; [by etrans|]. split; [|split].
    + rewrite Ht2, Ht1, <- app_assoc. done.
    + intros w Hw. rewrite Hf2, Hf1; [done| |]; set_solver.
    + auto.
Qed.

Lemma lift_step (Rv : ViewId → relation View) s v x x' t :
  (∀ w, Reflexive (Rv w)) → views s !! v = Some x → Rv v x x' →
  lift Rv any_event s (mkState (<[v := x']> (views s)) (trace s ++ t)).
Proof.
  intros Hrefl Hx HR. split; [|eexists; split; [done|apply Forall_any_event]].
  intros w. cbn [views]. destruct (decide (v = w)) as [<-|Hne].
  - rewrite lookup_insert_eq, Hx. by constructor.
  - rewrite lookup_insert_ne by done. reflexivity.
Qed.

Lemma lift_emit (Rv : ViewId → relation View) s t :
  (∀ w, Reflexive (Rv w)) →
  lift Rv any_event s (mkState (views s) (trace s ++ t)).
Proof.
  intros Hrefl. split; [intros w; reflexivity|].
  eexists; split; [done|apply Forall_any_event].
Qed.

(** The part of [destroy] after the nested record arrays: the store is
    told, the cache is emptied, the observers are told, and the record
    array becomes destroyed. *)
Lemma destroy_own_spec v (keys : option SCArray) s x st :
  views s !! v = Some x → store x = Some st →
  ∃ s' t,
    ((emit (EvStoreRecordArrayWillDestroy st v) ;;;
      modify_view v (fun self' =>
        match _scra_records self' with
        | Some _ => set_scra_records (Some []) self'
        | None => self'
        end) ;;;
      match keys with
      | Some arr =>
          emit (EvRemoveArrayObservers v arr) ;;;
          emit (EvArrayContentWillChange v 0 (js_length (arr_elems arr)) 0) ;;;
          emit (EvArrayContentDidChange v 0 (js_length (arr_elems arr)) 0)
      | None => ret tt
      end) ;;;
     Object_destroy v) s = Ok tt s'
    ∧ Rd s s'
    ∧ trace s' = trace s ++ EvStoreRecordArrayWillDestroy st v :: t
    ∧ destroyed s' v
    ∧ ∀ w, w ≠ v → views s' !! w = views s !! w.
Proof.
  intros Hx Hst. rewrite !bind_assoc, bind_emit.
  rewrite !bind_assoc.
  erewrite bind_modify_view by (cbn [views]; exact Hx). cbn [views trace].
  set (x1 := match _scra_records x with
             | Some _ => set_scra_records (Some []) x
             | None => x
             end).
  assert (H1 : destroy_order x x1 ∧ isDestroyed x1 = isDestroyed x).
  { subst x1. destruct x as [? ? ? n ? c]; destruct c; simpl;
      (split; [|done]); repeat split; simpl; try done;
      destruct n; simpl; set_solver. }
  destruct H1 as [Hord Hd1].
  assert (Hfin : ∀ t0,
    ∃ s', Object_destroy v
            (mkState (<[v:=x1]> (views s)) (trace s ++ EvStoreRecordArrayWillDestroy st v :: t0))
          = Ok tt s'
        ∧ Rd s s'
        ∧ trace s' = trace s ++ EvStoreRecordArrayWillDestroy st v :: t0
        ∧ destroyed s' v
        ∧ ∀ w, w ≠ v → views s' !! w = views s !! w).
  { intros t0. unfold Object_destroy. step_get.
    destruct (isDestroyed x1) eqn:Hdx.
    - eexists. split; [done|].
      split; [by apply (lift_step _ _ _ x); [apply _|..]|].
      split; [done|]. split.
      + exists x1. cbn [views]. by rewrite lookup_insert_eq.
      + intros w Hw. cbn [views]. by rewrite lookup_insert_ne.
    - erewrite modify_view_Some by (cbn [views]; apply lookup_insert_eq).
      cbn [views trace]. rewrite insert_insert_eq.
      eexists. split; [done|]. split.
      + apply (lift_step _ _ _ x); [apply _|done|]. etrans; [exact Hord|].
        destruct x1 as [? ? ? n]; repeat split; simpl; try done.
        destruct n; simpl; set_solver.
      + split; [done|]. split.
        * eexists. cbn [views]. rewrite lookup_insert_eq.
          split; [done|]. by destruct x1.
        * intros w Hw. cbn [views]. by rewrite lookup_insert_ne. }
  destruct keys as [arr|].
  - rewrite !bind_assoc. rewrite bind_emit. cbn [views trace].
    rewrite !bind_assoc. rewrite bind_emit. cbn [views trace].
    rewrite bind_emit. cbn [views trace].
    rewrite <- !app_assoc. cbn [app].
    destruct (Hfin [EvRemoveArrayObservers v arr;
                    EvArrayContentWillChange v 0 (js_length (arr_elems arr)) 0;
                    EvArrayContentDidChange v 0 (js_length (arr_elems arr)) 0])
      as (s' & Hs' & HR & Ht & Hd & Hf).
    eexists s', _. split; [exact Hs'|]. split; [done|]. split; [exact Ht|done].
  - rewrite bind_ret. destruct (Hfin []) as (s' & Hs' & HR & Ht & Hd & Hf).
    eexists s', _. split; [exact Hs'|]. split; [done|]. split; [exact Ht|done].
Qed.

Lemma classic_destroyed s w : destroyed s w ∨ ¬ destroyed s w.
Proof.
  unfold destroyed. destruct (views s !! w) as [x|] eqn:Hx.
  - destruct (isDestroyed x) eqn:Hd; [left; by exists x|right].
    intros (y & [= <-] & ?). congruence.
  - right. by intros (y & [=] & _).
Qed.

(** A destroyed record array ignores [destroy]. *)
Lemma destroy_destroyed fuel v s :
  destroyed s v → destroy (S fuel) v s = Ok tt s.
Proof.
  intros (x & Hx & Hd). cbn [destroy]. rewrite (bind_get_view _ _ _ _ Hx).
  rewrite Hd. cbn [negb]. rewrite bind_ret. unfold Object_destroy.
  rewrite (bind_get_view _ _ _ _ Hx). by rewrite Hd.
Qed.

Lemma not_in_deregistrations st w v parents :
  EvStoreRecordArrayWillDestroy st w ∉ deregistrations v parents.
Proof.
  unfold deregistrations. intros Hin.
  apply list_elem_of_fmap in Hin as (p & Heq & _). done.
Qed.

Lemma destroy_spec depth height fuel v s :
  destroyable depth height s → is_Some (views s !! v) → (height v < fuel)%nat →
  ∃ s' t,
    destroy fuel v s = Ok tt s' ∧ Rd s s' ∧ trace s' = trace s ++ t
    ∧ destroyed s' v
    ∧ (∀ w, ¬ destroyed s w → destroyed s' w → told_store t w)
    ∧ (∀ self, views s !! v = Some self → isDestroyed self = false →
         ∃ tail,
           t = deregistrations v (scope_sources (query self)) ++ tail
           ∧ ∀ nested c, nestedRecordArrays self = Some nested → c ∈ nested →
               destroyed s' c ∧ (¬ destroyed s c → told_store tail c)).
Proof.
  revert v s. induction fuel as [|fuel IH]; intros v s Hwf [x Hx] Hlt; [lia|].
  destruct (isDestroyed x) eqn:Hdx.
  { exists s, []. rewrite destroy_destroyed by by exists x.
    split; [done|]. split; [reflexivity|]. split; [by rewrite app_nil_r|].
    split; [by exists x|]. split; [done|].
    intros self Hself. rewrite Hx in Hself. injection Hself as <-. congruence. }
  cbn [destroy]. rewrite (bind_get_view _ _ _ _ Hx). rewrite Hdx. cbn [negb].
  rewrite !bind_assoc.
  set (parents := scope_sources (query x)).
  assert (Hparents : ∀ p, p ∈ parents → is_Some (views s !! p) ∧ p ≠ v).
  { intros p Hp. subst parents. destruct (query x) as [q|] eqn:Hq;
      [|by apply elem_of_nil in Hp].
    destruct Hwf as [[Hsc _] _]. destruct (Hsc v x q p Hx Hq Hp) as [? ?].
    split; [done|]. intros ->. lia. }
  destruct (forEach_deregister v parents s) as (s1 & Hs1 & HR1 & Ht1 & Hf1 & Hd1).
  { intros p Hp. by apply Hparents. }
  unfold bind at 1. rewrite Hs1.
  assert (Hx1 : views s1 !! v = Some x).
  { rewrite Hf1; [done|]. intros Hin. by destruct (Hparents v Hin). }
  rewrite !bind_assoc, (bind_get_view _ _ _ _ Hx1).
  assert (Hwf1 : destroyable depth height s1) by by eapply destroyable_lift.
  assert (Hloop : ∀ l s2, destroyable depth height s2 →
            (∀ c, c ∈ l → is_Some (views s2 !! c) ∧ (height c < fuel)%nat) →
            ∃ s3 t3, forEach l (destroy fuel) s2 = Ok tt s3
                ∧ Rd s2 s3 ∧ trace s3 = trace s2 ++ t3
                ∧ (∀ c, c ∈ l → destroyed s3 c)
                ∧ (∀ w, ¬ destroyed s2 w → destroyed s3 w → told_store t3 w)).
  { induction l as [|c l IHl]; intros s2 Hwf2 Hl.
    - exists s2, []. split; [done|]. split; [reflexivity|].
      split; [by rewrite app_nil_r|]. split; [by intros c ?%elem_of_nil|done].
    - destruct (Hl c) as [Hc Hcf]; [left|].
      destruct (IH c s2 Hwf2 Hc Hcf) as (s3 & t3 & Hs3 & HR3 & Ht3 & Hd3 & Hn3 & _).
      destruct (IHl s3) as (s4 & t4 & Hs4 & HR4 & Ht4 & Hd4 & Hn4).
      { by eapply destroyable_lift. }
      { intros c' Hc'. destruct (Hl c') as [? ?]; [by right|].
        split; [by eapply lift_is_Some|done]. }
      exists s4, (t3 ++ t4). cbn [forEach]. unfold bind. rewrite Hs3.
      split; [done|]. split; [by etrans|].
      split; [by rewrite Ht4, Ht3, app_assoc|]. split.
      + intros c' [->|Hc']%elem_of_cons; [by eapply destroyed_lift|by apply Hd4].
      + intros w Hw2 Hw4. destruct (classic_destroyed s3 w) as [Hw3|Hw3].
        * destruct (Hn3 w Hw2 Hw3) as [st Hst]. exists st. set_solver.
        * destruct (Hn4 w Hw3 Hw4) as [st Hst]. exists st. set_solver. }
  assert (Hst : is_Some (store x)).
  { destruct Hwf as (_ & _ & Hst). by eapply Hst. }
  destruct Hst as [st Hst].
  assert (Hfinish : ∀ s3 t3, Rd s1 s3 → trace s3 = trace s1 ++ t3 →
    (∀ w, ¬ destroyed s1 w → destroyed s3 w → told_store t3 w) →
    ∃ s' t,
      ((match store x with
        | Some st => emit (EvStoreRecordArrayWillDestroy st v)
        | None => throw TypeError
        end ;;;
        modify_view v (fun self' =>
          match _scra_records self' with
          | Some _ => set_scra_records (Some []) self'
          | None => self'
          end) ;;;
        match storeKeys x with
        | Some arr =>
            emit (EvRemoveArrayObservers v arr) ;;;
            emit (EvArrayContentWillChange v 0
                    match storeKeys x with
                    | Some arr0 => js_length (arr_elems arr0)
                    | None => 0
                    end 0) ;;;
            emit (EvArrayContentDidChange v 0
                    match storeKeys x with
                    | Some arr0 => js_length (arr_elems arr0)
                    | None => 0
                    end 0)
        | None => ret tt
        end) ;;;
       Object_destroy v) s3 = Ok tt s'
      ∧ Rd s s' ∧ trace s' = trace s ++ t ∧ destroyed s' v
      ∧ (∀ w, ¬ destroyed s w → destroyed s' w → told_store t w)
      ∧ ∃ tail, t = deregistrations v parents ++ tail
          ∧ (∀ w, destroyed s3 w → destroyed s' w)
          ∧ (∀ w, ¬ destroyed s w → destroyed s' w → told_store tail w)).
  { intros s3 t3 HR3 Ht3 Hn3.
    destruct (lift_lookup _ _ _ _ _ _ HR3 Hx1) as (x3 & Hx3 & Hs3 & _).
    rewrite Hst.
    assert (Hown : ∃ s' t',
      ((emit (EvStoreRecordArrayWillDestroy st v) ;;;
        modify_view v (fun self' =>
          match _scra_records self' with
          | Some _ => set_scra_records (Some []) self'
          | None => self'
          end) ;;;
        match storeKeys x with
        | Some arr =>
            emit (EvRemoveArrayObservers v arr) ;;;
            emit (EvArrayContentWillChange v 0
                    match storeKeys x with
                    | Some arr0 => js_length (arr_elems arr0)
                    | None => 0
                    end 0) ;;;
            emit (EvArrayContentDidChange v 0
                    match storeKeys x with
                    | Some arr0 => js_length (arr_elems arr0)
                    | None => 0
                    end 0)
        | None => ret tt
        end) ;;;
       Object_destroy v) s3 = Ok tt s'
      ∧ Rd s3 s'
      ∧ trace s' = trace s3 ++ EvStoreRecordArrayWillDestroy st v :: t'
      ∧ destroyed s' v
      ∧ ∀ w, w ≠ v → views s' !! w = views s3 !! w).
    { destruct (storeKeys x) as [arr|].
      - apply (destroy_own_spec v (Some arr) s3 x3 st Hx3). congruence.
      - apply (destroy_own_spec v None s3 x3 st Hx3). congruence. }
    destruct Hown as (s' & t' & Hs' & HR' & Ht' & Hd' & Hf').
    exists s', (deregistrations v parents ++ t3
                 ++ EvStoreRecordArrayWillDestroy st v :: t').
    split; [exact Hs'|]. split; [by etrans; [|etrans]|].
    split; [by rewrite Ht', Ht3, Ht1, <- !app_assoc|]. split; [done|].
    assert (Htold : ∀ w, ¬ destroyed s w → destroyed s' w →
              told_store (t3 ++ EvStoreRecordArrayWillDestroy st v :: t') w).
    { intros w Hw Hw'. destruct (decide (w = v)) as [->|Hne].
      - exists st. set_solver.
      - assert (Hw3 : destroyed s3 w).
        { destruct Hw' as (y & Hy & Hdy). rewrite Hf' in Hy by done. by exists y. }
        destruct (Hn3 w) as [st' Hst']; [by intros ?%Hd1|done|].
        exists st'. set_solver. }
    split.
    { intros w Hw Hw'. destruct (Htold w Hw Hw') as [st' Hst'].
      exists st'. set_solver. }
    eexists. split; [done|]. split; [|done].
    intros w. by apply destroyed_lift. }
  destruct (nestedRecordArrays x) as [nested|] eqn:Hn.
  - destruct (Hloop nested s1 Hwf1) as (s3 & t3 & Hs3 & HR3 & Ht3 & Hd3 & Hn3).
    { intros c Hc. destruct Hwf as (_ & Hr & _).
      destruct (Hr v x nested c Hx Hn Hc) as [? ?].
      split; [by eapply lift_is_Some|lia]. }
    rewrite bind_assoc. unfold bind at 1. rewrite Hs3.
    destruct (Hfinish s3 t3 HR3 Ht3 Hn3)
      as (s' & t & Hs' & HR' & Ht' & Hd' & Hn' & tail & Htail & Hmono & Hntail).
    exists s', t. split; [exact Hs'|]. split; [done|]. split; [done|].
    split; [done|]. split; [done|].
    intros self Hself _. rewrite Hx in Hself. injection Hself as <-.
    exists tail. split; [done|].
    intros nested' c Hnn Hc. rewrite Hn in Hnn. injection Hnn as <-.
    split; [by apply Hmono, Hd3|]. intros Hc0. apply Hntail; [done|].
    by apply Hmono, Hd3.
  - rewrite bind_assoc, bind_ret.
    destruct (Hfinish s1 []) as
      (s' & t & Hs' & HR' & Ht' & Hd' & Hn' & tail & Htail & Hmono & Hntail).
    { reflexivity. } { by rewrite app_nil_r. } { done. }
    exists s', t. split; [exact Hs'|]. split; [done|]. split; [done|].
    split; [done|]. split; [done|].
    intros self Hself _. rewrite Hx in Hself. injection Hself as <-.
    exists tail. split; [done|]. intros nested' c Hnn. congruence.
Qed.

End Destroy.

Section Final.
Context `{!Collaborators}.

(** C5 (as amended): [destroy] on a record array that is not yet
    destroyed first deregisters it from each of its parents, in scope
    order; every nested record array is destroyed after that, and tells
    the store only then; a second [destroy] does nothing. *)
Theorem destroy_deregisters_then_destroys_nested depth height fuel v s self :
  destroyable depth height s → views s !! v = Some self →
  isDestroyed self = false → (height v < fuel)%nat →
  ∃ s' tail,
    destroy fuel v s = Ok tt s'
    ∧ trace s' = trace s ++ deregistrations v (scope_sources (query self)) ++ tail
    ∧ (∀ nested c, nestedRecordArrays self = Some nested → c ∈ nested →
         destroyed s' c ∧ (¬ destroyed s c → told_store tail c))
    ∧ destroyed s' v
    ∧ ∀ fuel2, destroy (S fuel2) v s' = Ok tt s'.
Proof.
  intros Hwf Hself Hd Hlt.
  destruct (destroy_spec depth height fuel v s Hwf) as
    (s' & t & Hs' & _ & Ht & Hdv & _ & Hshape); [by eexists|done|].
  destruct (Hshape self Hself Hd) as (tail & -> & Hnested).
  exists s', tail. split; [done|]. split; [done|]. split; [done|].
  split; [done|]. intros fuel2. by apply destroy_destroyed.
Qed.

(** C9 (as amended): [indexOf] and [lastIndexOf] with an argument that
    is not a record log a warning and return -1; they do not flush and
    they do not throw. *)
Theorem indexOf_non_record fuel v description startAt s :
  indexOf fuel v (VOther description) startAt s
    = Ok (-1) (mkState (views s)
                 (trace s ++ [EvLoggerWarn "indexOf" (VOther description)]))
  ∧ lastIndexOf fuel v (VOther description) startAt s
    = Ok (-1) (mkState (views s)
                 (trace s ++ [EvLoggerWarn "lastIndexOf" (VOther description)])).
Proof. done. Qed.

End Final.

End DestroyFacts.

(** ** Runs on a concrete arena *)

Module Examples.
Import RecordArray Vocabulary Effects FlushFrame FlushFacts DirtyFacts StoreFacts DestroyFacts Demo.

Ltac arena_cases H :=
  cbn [views single family tree] in H;
  repeat (apply lookup_insert_Some in H as [[<- <-]|[? H]]);
  try (by rewrite lookup_empty in H).

Ltac arena_lookup :=
  cbn [views single family tree];
  repeat first [ by rewrite lookup_insert_eq | rewrite lookup_insert_ne by done ].

(** The arenas of the examples are well-formed. *)
Lemma single_well_formed x :
  query x = Some local_query → nestedRecordArrays x = None →
  well_formed (fun _ => 0%nat) (single x).
Proof.
  intros Hq Hn. split.
  - intros v y q p Hv Hy Hp. arena_cases Hv.
    rewrite Hq in Hy. injection Hy as <-. by apply elem_of_nil in Hp.
  - intros v y nested c Hv Hy Hc. arena_cases Hv. congruence.
Qed.

Lemma family_well_formed parent child :
  query parent = Some local_query →
  well_formed (fun v => v) (family parent child).
Proof.
  intros Hq. split.
  - intros v y q p Hv Hy Hp. arena_cases Hv.
    + destruct parent. simpl in *. rewrite Hq in Hy. injection Hy as <-.
      by apply elem_of_nil in Hp.
    + simpl in Hy. injection Hy as <-. apply list_elem_of_singleton in Hp as ->.
      split; [|lia]. eexists. arena_lookup.
  - intros v y nested c Hv Hy Hc. arena_cases Hv.
    + destruct parent. simpl in Hy. injection Hy as <-.
      apply list_elem_of_singleton in Hc as ->. eexists. arena_lookup.
    + done.
Qed.

Lemma family_ranked parent child :
  ranked (fun v => (2 - v)%nat) (family parent child).
Proof.
  intros v y nested c Hv Hy Hc. arena_cases Hv.
  - destruct parent. simpl in Hy. injection Hy as <-.
    apply list_elem_of_singleton in Hc as ->. split; [|lia]. eexists. arena_lookup.
  - done.
Qed.

Lemma tree_destroyable : destroyable (fun v => v) (fun v => (4 - v)%nat) tree.
Proof.
  split; [split|split].
  - intros v y q p Hv Hy Hp. arena_cases Hv; simpl in Hy; injection Hy as <-;
      try (by apply elem_of_nil in Hp);
      apply list_elem_of_singleton in Hp as ->; (split; [|lia]); eexists; arena_lookup.
  - intros v y nested c Hv Hy Hc. arena_cases Hv; simpl in Hy; try done;
      injection Hy as <-; set_unfold in Hc; destruct_or?; subst; try done;
      eexists; arena_lookup.
  - intros v y nested c Hv Hy Hc. arena_cases Hv; simpl in Hy; try done;
      injection Hy as <-; set_unfold in Hc; destruct_or?; subst; try done;
      (split; [|lia]); eexists; arena_lookup.
  - intros v y Hv. arena_cases Hv; by eexists.
Qed.

(** C2: the notification of the example runs to the end of both
    sequences. *)
Lemma flush_example_counterexample :
  ∃ s', flush 2 0%nat false (single dirty_view) = Ok tt s'
      ∧ notifications_of 0%nat (trace s') = [(1, 2, 2)]
      ∧ notifications_of 0%nat (trace s') ≠ [(1, 1, 1)].
Proof. eexists. split; [vm_compute; reflexivity|]. by vm_compute. Qed.

(** The example with [k1 = 1], [k2 = 2], [k3 = 3] and [k4 = 4]. *)
Lemma flush_example_witness :
  ∃ s' t, flush 1 0%nat false (single dirty_view) = Ok tt s'
        ∧ trace s' = trace (single dirty_view) ++ t
        ∧ notifications_of 0%nat t = [(1, 2, 2)].
Proof.
  destruct (flush_example (fun _ => 0%nat) 0 0%nat false (single dirty_view)
              dirty_view local_query (mkArray 1 [1; 2; 3]) 1 2 3 4)
    as (s' & t & new & self' & Hflush & Ht & _ & _ & _ & _ & _ & Hn);
    [by apply single_well_formed|reflexivity|simpl; lia|reflexivity|reflexivity
    |reflexivity|by eexists|reflexivity|reflexivity|reflexivity|reflexivity
    |reflexivity|lia|intros; split; [reflexivity|simpl; lia]|].
  by exists s', t.
Defined.

(** A record array is flushed, and flushed again. *)
Lemma flush_twice_noop_witness :
  ∃ s1, flush 2 0%nat false (single dirty_view) = Ok tt s1
      ∧ flush 1 0%nat false s1 = Ok tt s1.
Proof.
  eexists. split; [vm_compute; reflexivity|].
  apply (flush_twice_noop 2 0 0%nat false (single dirty_view)).
  vm_compute. reflexivity.
Defined.

(** A forced flush of a record array that is inside a flush. *)
Lemma flush_reentrant_noop_witness :
  flush 1 0%nat true (single inside_view) = Ok tt (single inside_view).
Proof. apply (flush_reentrant_noop 0 0%nat true _ inside_view); reflexivity. Defined.

(** C5: record array 1 of [tree] deregisters from its parent 0 before its
    nested record arrays 2 and 3 are destroyed. *)
Lemma destroy_order_counterexample :
  trace <$> outcome_state (destroy 3 1%nat tree)
  = Some [EvRecordArrayWillDestroy 0%nat 1%nat;
          EvRecordArrayWillDestroy 1%nat 2%nat;
          EvStoreRecordArrayWillDestroy 0%nat 2%nat;
          EvRecordArrayWillDestroy 1%nat 3%nat;
          EvStoreRecordArrayWillDestroy 0%nat 3%nat;
          EvStoreRecordArrayWillDestroy 0%nat 1%nat;
          EvRemoveArrayObservers 1%nat (mkArray 1 [1; 2; 3]);
          EvArrayContentWillChange 1%nat 0 3 0;
          EvArrayContentDidChange 1%nat 0 3 0].
Proof. vm_compute. reflexivity. Qed.

(** Record array 1 of [tree] is destroyed, then destroyed again. *)
Lemma destroy_deregisters_then_destroys_nested_witness :
  ∃ s' tail,
    destroy 4 1%nat tree = Ok tt s'
    ∧ trace s' = [EvRecordArrayWillDestroy 0%nat 1%nat] ++ tail
    ∧ told_store tail 2%nat ∧ told_store tail 3%nat
    ∧ destroy 1 1%nat s' = Ok tt s'.
Proof.
  destruct (destroy_deregisters_then_destroys_nested
              (fun v => v) (fun v => (4 - v)%nat) 4 1%nat tree
              (set_nestedRecordArrays (Some [2%nat; 3%nat]) (child_view clean_view)))
    as (s' & tail & Hd & Ht & Hn & _ & H2);
    [apply tree_destroyable|reflexivity|reflexivity|simpl; lia|].
  exists s', tail. split; [done|]. split; [done|].
  assert (Hlive : ∀ c, c = 2%nat ∨ c = 3%nat → ¬ destroyed tree c).
  { intros c Hc (x & Hx & Hdx). destruct Hc as [-> | ->];
      vm_compute in Hx; injection Hx as <-; done. }
  split; [|split].
  - apply (Hn [2%nat; 3%nat] 2%nat); [reflexivity|set_solver|]. apply Hlive. by left.
  - apply (Hn [2%nat; 3%nat] 3%nat); [reflexivity|set_solver|]. apply Hlive. by right.
  - apply H2.
Defined.

(** C6: a notification from a parent leaves a clean record array clean. *)
Lemma parent_notification_counterexample :
  needsFlush <$>
    (outcome_state
       (parentDidChangeStoreKeys 1%nat {[4]} ∅ ∅ 0%nat (family clean_view clean_view))
     ≫= fun s' => views s' !! 1%nat)
  = Some false.
Proof. vm_compute. reflexivity. Qed.

(** The store, and then a parent with handle 7, notify record array 0 of a
    clean family. *)
Lemma change_notification_dirtiness_witness :
  (∃ s', storeDidChangeStoreKeys 3 0%nat [4] [] (family clean_view clean_view)
         = Ok tt s'
       ∧ dirty s' 0%nat ∧ dirty s' 1%nat)
  ∧ (∃ s', parentDidChangeStoreKeys 0%nat {[4]} ∅ ∅ 7%nat
             (family clean_view clean_view) = Ok tt s'
         ∧ ¬ dirty s' 0%nat).
Proof.
  destruct (change_notification_dirtiness
              (fun v => (2 - v)%nat) 3 0%nat (family clean_view clean_view)
              (set_nestedRecordArrays (Some [1%nat]) clean_view) local_query [4] [])
    as [(s' & Hs' & Hd) Hp];
    [apply family_ranked|simpl; lia|reflexivity|reflexivity|reflexivity|reflexivity
    |done|].
  split.
  - exists s'. split; [done|]. split; apply Hd; [constructor|].
    apply (descendant_nested _ 0%nat (set_nestedRecordArrays (Some [1%nat]) clean_view)
             [1%nat] 1%nat);
      [reflexivity|reflexivity|by apply list_elem_of_singleton|constructor].
  - destruct (Hp {[4]} ∅ ∅ 7%nat) as (s2 & Hs2 & _ & Hsame).
    exists s2. split; [done|]. intros (x & Hx & Hdx).
    destruct (Hsame 0%nat (set_nestedRecordArrays (Some [1%nat]) clean_view))
      as (x' & Hx' & Hn); [reflexivity|].
    rewrite Hx in Hx'. injection Hx' as <-. rewrite Hdx in Hn. done.
Defined.

(** C7: a flush of record array 0 invokes [merge] and tells the nested
    record array 1, which needs no flush: the next flush of 1 stops at its
    first guard and passes nothing to [merge]. *)
Lemma parent_changes_counterexample :
  ∃ s1 xc,
    flush 2 0%nat false (family dirty_view clean_view) = Ok tt s1
    ∧ merge_calls 0%nat (trace s1) = [None]
    ∧ nonempty_result merged
    ∧ views s1 !! 1%nat = Some xc
    ∧ batch_at (GuidView 0%nat) xc = mkChangeSet {[4]} {[2]} ∅
    ∧ flush 2 1%nat false s1 = Ok tt s1
    ∧ merge_calls 1%nat (trace s1) = [].
Proof.
  eexists _, _. split; [vm_compute; reflexivity|].
  split; [vm_compute; reflexivity|]. split; [by vm_compute|].
  split; [vm_compute; reflexivity|]. split; [vm_compute; reflexivity|].
  split; [vm_compute; reflexivity|]. vm_compute; reflexivity.
Qed.

(** Both record arrays of the family need a flush: the nested one passes
    what its parent told it to [merge]. *)
Lemma parent_changes_reach_child_witness :
  ∃ s' s2 t2 old2 m2 qr2 cs2,
    flush 2 0%nat false (family dirty_view dirty_view) = Ok tt s'
    ∧ flush 2 1%nat false s' = Ok tt s2
    ∧ trace s2 = trace s' ++ t2
    ∧ EvMerge 1%nat old2 (Some m2) qr2 ∈ t2
    ∧ m2 !! GuidView 0%nat = Some cs2
    ∧ changes_le (result_changes merged) cs2.
Proof.
  set (s := family dirty_view dirty_view).
  set (s' := after (flush 2 0%nat false) s).
  destruct (parent_changes_reach_child (fun v => v) 1 0%nat false s s' (trace s')
              (set_nestedRecordArrays (Some [1%nat]) dirty_view) [1%nat] 1%nat
              (Some (mkArray 1 [1; 2; 3])) None merged)
    as (xc & m & cs & Hxc & _ & _ & _ & _ & _ & Hnext);
    [by apply family_well_formed|reflexivity|simpl; lia|vm_compute; reflexivity
    |reflexivity|vm_compute; apply list_elem_of_here|by vm_compute|reflexivity
    |by apply list_elem_of_singleton|].
  destruct (Hnext false (scoped_query 0%nat))
    as (s2 & t2 & old2 & m2 & qr2 & cs2 & H1 & H2 & H3 & H4 & H5).
  - vm_compute in Hxc. injection Hxc as <-. by repeat split; try eexists.
  - simpl; lia.
  - exists s', s2, t2, old2, m2, qr2, cs2. split; [vm_compute; reflexivity|done].
Defined.

(** C8: [replace] on a record array that needs a flush replaces
    [storeKeys] by the merge result before it throws. *)
Lemma replace_counterexample :
  ∃ s', replace 2 0%nat 0 1 None (single dirty_view) = Throw NOT_EDITABLE s'
      ∧ storeKeys dirty_view = Some (mkArray 1 [1; 2; 3])
      ∧ storeKeys <$> views s' !! 0%nat = Some (Some (mkArray 100 [1; 4; 3])).
Proof. eexists. split; [vm_compute; reflexivity|]. split; vm_compute; reflexivity. Qed.

(** [replace] on a record array with no pending flush. *)
Lemma replace_not_editable_witness :
  ∃ s1, flush 1 0%nat false (single clean_view) = Ok tt s1
      ∧ replace 1 0%nat 0 1 None (single clean_view) = Throw NOT_EDITABLE s1
      ∧ (needsFlush clean_view = false → s1 = single clean_view).
Proof.
  apply (replace_not_editable (fun _ => 0%nat) 0 0%nat 0 1 None (single clean_view)
           clean_view (mkArray 1 [1; 2; 3]) local_query);
    [by apply single_well_formed|simpl; lia|reflexivity|reflexivity|reflexivity
    |reflexivity].
Defined.

(** C9: an argument that is not a record is answered with -1. *)
Lemma indexOf_counterexample :
  indexOf 1 0%nat (VOther "x") None (single clean_view)
    = Ok (-1) (mkState (views (single clean_view)) [EvLoggerWarn "indexOf" (VOther "x")])
  ∧ lastIndexOf 1 0%nat (VOther "x") None (single clean_view)
    = Ok (-1) (mkState (views (single clean_view))
                 [EvLoggerWarn "lastIndexOf" (VOther "x")]).
Proof. split; reflexivity. Qed.

(** The store notifies record array 0 of a clean family of key 4. *)
Lemma store_changes_are_updates_witness :
  (∃ s' x' m cs,
     storeDidChangeStoreKeys 3 0%nat [4] [] (family clean_view clean_view) = Ok tt s'
     ∧ views s' !! 0%nat = Some x' ∧ _scra_changedStoreKeys x' = Some m
     ∧ m !! GuidStore 0%nat = Some cs
     ∧ added cs = ∅ ∧ deleted cs = ∅ ∧ updated cs = ∅ ∪ list_to_set [4])
  ∧ store_batches_updated_only (family clean_view clean_view).
Proof.
  destruct store_changes_are_updates as [Hcall Hinv]. split.
  - destruct (Hcall (fun v => (2 - v)%nat) 3%nat 0%nat (family clean_view clean_view)
                (set_nestedRecordArrays (Some [1%nat]) clean_view) local_query [4] [])
      as (s' & x' & m & cs & H1 & H2 & H3 & H4 & H5 & H6 & H7 & _);
      [apply family_ranked|simpl; lia|reflexivity|reflexivity|reflexivity|reflexivity
      |done|].
    by exists s', x', m, cs.
  - apply Hinv, reachable_init. intros v x Hv. arena_cases Hv; reflexivity.
Defined.

End Examples.

(** ** The range of the differ *)

Module DifferRange.
Import Differ DifferFacts.

Lemma loop_range (A B : list StoreKey) :
  let p := scan_forward A B (S (length B)) 0 in
  let q := scan_backward A B (S (length B)) p (js_length B - 1) in
  let maxLen := if js_length A >? js_length B then js_length A else js_length B in
  let len := if q >=? p then q - p + 1 else maxLen - p in
  p < maxLen →
  0 ≤ p ∧ 0 < len ∧ p + len ≤ Z.max (js_length A) (js_length B)
  ∧ (∀ i, 0 ≤ i < js_length B → i < p ∨ p + len ≤ i →
       js_index A i = js_index B i)
  ∧ (p < js_length B →
       js_index A p ≠ js_index B p
       ∧ js_index A (p + len - 1) ≠ js_index B (p + len - 1)).
Proof.
  intros p q maxLen len Hlt.
  destruct (scan_forward_spec A B (S (length B)) 0) as (Hp & Hpre & Hstop);
    [unfold js_length; lia|unfold js_length; lia|].
  fold p in Hp, Hpre, Hstop.
  destruct (scan_backward_spec A B (S (length B)) p (js_length B - 1))
    as (Hq & Hlo & Hsame & Hsuf & Hlast); [unfold js_length; lia|].
  fold q in Hq, Hlo, Hsame, Hsuf, Hlast.
  assert (HmaxLen : maxLen = Z.max (js_length A) (js_length B)).
  { subst maxLen. destruct (Z.gtb_spec (js_length A) (js_length B)); lia. }
  subst len. destruct (Z.geb_spec q p) as [Hqp|Hqp].
  - split; [lia|]. split; [lia|]. split; [lia|]. split.
    + intros i Hi [Hl|Hr]; [apply Hpre; lia|apply Hsuf; lia].
    + intros HpB. split; [by apply Hstop|].
      replace (p + (q - p + 1) - 1) with q by lia.
      destruct (decide (q = p)) as [->|]; [by apply Hstop|apply Hlast; lia].
  - assert (p = js_length B) as HpB by lia.
    split; [lia|]. split; [lia|]. split; [lia|]. split.
    + intros i Hi [Hl|Hr]; [apply Hpre; lia|lia].
    + lia.
Qed.

(** Outside the range the differ returns, the old and the new array hold
    the same keys. *)
Lemma findDifferences_agree (A : option SCArray) (B : SCArray) r i :
  _findDifferences A (Some B) = Val (Some r) →
  0 ≤ i < js_length (arr_elems B) →
  i < is_min r ∨ is_min r + is_length r ≤ i →
  js_index (elems_of A) i = js_index (arr_elems B) i.
Proof.
  unfold _findDifferences.
  destruct (same_ref A (Some B)); [done|].
  destruct A as [old|]; cbn [elems_of]; cbv zeta.
  - destruct (_ <? _) eqn:Hlt; [|done]. intros [= <-]. cbn [is_min is_length].
    apply Z.ltb_lt in Hlt.
    destruct (loop_range (arr_elems old) (arr_elems B) Hlt) as (_ & _ & _ & Hout & _).
    apply Hout.
  - destruct (Z.eqb_spec (js_length (arr_elems B)) 0) as [|Hne]; [done|].
    intros [= <-]. cbn [is_min is_length]. lia.
Qed.

(** Whenever the differ returns a range, the range is not empty and lies
    below the longer of the two lengths; every index of the new array
    outside the range holds the same key in the old and in the new
    array; and when the range starts inside the new array, the keys at its
    first and at its last index differ. *)
Theorem findDifferences_range (A : option SCArray) (B : SCArray) r :
  _findDifferences A (Some B) = Val (Some r) →
  0 ≤ is_min r ∧ 0 < is_length r
  ∧ is_min r + is_length r
    ≤ Z.max (js_length (elems_of A)) (js_length (arr_elems B))
  ∧ (∀ i, 0 ≤ i < js_length (arr_elems B) →
       i < is_min r ∨ is_min r + is_length r ≤ i →
       js_index (elems_of A) i = js_index (arr_elems B) i)
  ∧ (is_min r < js_length (arr_elems B) →
       js_index (elems_of A) (is_min r) ≠ js_index (arr_elems B) (is_min r)
       ∧ js_index (elems_of A) (is_min r + is_length r - 1)
         ≠ js_index (arr_elems B) (is_min r + is_length r - 1)).
Proof.
  unfold _findDifferences.
  destruct (same_ref A (Some B)); [done|].
  destruct A as [old|]; cbn [elems_of]; cbv zeta.
  - destruct (_ <? _) eqn:Hlt; [|done]. intros [= <-]. cbn [is_min is_length].
    apply loop_range. by apply Z.ltb_lt.
  - destruct (Z.eqb_spec (js_length (arr_elems B)) 0) as [|Hne]; [done|].
    intros [= <-]. cbn [is_min is_length].
    assert (0 < js_length (arr_elems B)) by (unfold js_length in *; lia).
    split; [lia|]. split; [lia|]. split; [unfold js_length; simpl; lia|].
    split; [intros; lia|]. intros _.
    destruct (js_index_in_range (arr_elems B) 0) as [k Hk]; [lia|].
    destruct (js_index_in_range (arr_elems B) (0 + js_length (arr_elems B) - 1))
      as [k' Hk']; [lia|].
    rewrite Hk, Hk'. unfold js_index. rewrite !lookup_nil.
    split; by destruct (_ <? _).
Qed.

(** The old array [[1, 2, 3, 4]] against [[1, 9, 8, 4]]. *)
Lemma findDifferences_range_witness :
  js_index [1; 2; 3; 4] 0 = js_index [1; 9; 8; 4] 0
  ∧ js_index [1; 2; 3; 4] 1 ≠ js_index [1; 9; 8; 4] 1.
Proof.
  destruct (findDifferences_range (Some (mkArray 1 [1; 2; 3; 4]))
              (mkArray 2 [1; 9; 8; 4]) (mkIndexSet 1 2))
    as (_ & _ & _ & Hout & Hin); [reflexivity|].
  split.
  - apply Hout; simpl; [unfold js_length; simpl; lia|lia].
  - apply Hin. unfold js_length; simpl; lia.
Defined.

End DifferRange.

(** ** The materialization cache *)

Module CacheFacts.
Import RecordArray Vocabulary Effects FlushFrame FlushFacts.

Lemma get_at_set_at recs i x j :
  Cache.get_at (Cache.set_at recs i x) j
  = if decide (j = i ∧ 0 ≤ i) then x else Cache.get_at recs j.
Proof.
  unfold Cache.get_at, Cache.set_at.
  destruct (Z.ltb_spec i 0) as [Hi|Hi].
  { rewrite decide_False by lia. done. }
  destruct (Z.ltb_spec j 0) as [Hj|Hj].
  { rewrite decide_False by lia. done. }
  destruct (Nat.ltb_spec (Z.to_nat i) (List.length recs)) as [Hlt|Hge].
  - destruct (decide (j = i ∧ 0 ≤ i)) as [[-> _]|Hne].
    + by rewrite list_lookup_insert_eq.
    + rewrite list_lookup_insert_ne by lia. done.
  - destruct (decide (j = i ∧ 0 ≤ i)) as [[-> _]|Hne].
    + rewrite lookup_app_r by lia. rewrite lookup_app_r; rewrite length_replicate; [|lia].
      replace (_ - _ - _)%nat with 0%nat by lia. done.
    + destruct (decide (Z.to_nat j < List.length recs)%nat) as [Hjl|Hjl].
      { by rewrite lookup_app_l. }
      rewrite lookup_app_r by lia.
      rewrite (lookup_ge_None_2 recs) by lia.
      destruct (decide (Z.to_nat j < Z.to_nat i)%nat) as [Hji|Hji].
      * rewrite lookup_app_l by (rewrite length_replicate; lia).
        rewrite lookup_replicate_2 by lia. done.
      * rewrite lookup_app_r by (rewrite length_replicate; lia).
        rewrite length_replicate.
        rewrite lookup_ge_None_2; [done|]. simpl. lia.
Qed.

Lemma get_at_clear_all recs (idxs : list Z) j :
  Cache.get_at (foldl (fun c i => Cache.set_at c i None) recs idxs) j
  = if decide (j ∈ idxs) then None else Cache.get_at recs j.
Proof.
  revert recs. induction idxs as [|i idxs IH]; intros recs; cbn [foldl].
  { destruct (decide (j ∈ [])) as [Hin|]; [|done]. by apply elem_of_nil in Hin. }
  rewrite IH, get_at_set_at.
  destruct (decide (j ∈ idxs)) as [Hin|Hin].
  { destruct (decide (j ∈ i :: idxs)) as [|Hn]; [done|]. destruct Hn. by right. }
  destruct (decide (j = i ∧ 0 ≤ i)) as [[-> _]|Hne].
  { destruct (decide (i ∈ i :: idxs)) as [|Hn]; [done|]. destruct Hn. by left. }
  destruct (decide (j ∈ i :: idxs)) as [Hj|Hj]; [|done].
  apply elem_of_cons in Hj as [->|]; [|done].
  unfold Cache.get_at. destruct (Z.ltb_spec i 0); [done|]. lia.
Qed.

Lemma get_at_clear_range recs r j :
  Cache.get_at (Cache.clear_range recs r) j
  = if decide (is_min r ≤ j < is_min r + is_length r) then None
    else Cache.get_at recs j.
Proof.
  unfold Cache.clear_range. rewrite get_at_clear_all.
  destruct (decide (j ∈ seqZ (is_min r) (is_length r))) as [Hin|Hin];
    rewrite elem_of_seqZ in Hin.
  - by rewrite decide_True.
  - by rewrite decide_False.
Qed.

Lemma get_at_set_length recs n j :
  Cache.get_at (Cache.set_length recs n) j
  = if decide (j < n) then Cache.get_at recs j else None.
Proof.
  unfold Cache.get_at, Cache.set_length.
  destruct (Z.ltb_spec j 0) as [Hj|Hj]; [by destruct (decide _)|].
  destruct (decide (j < n)) as [Hlt|Hge].
  - destruct (decide (Z.to_nat j < List.length recs)%nat).
    + rewrite lookup_resize by lia. done.
    + rewrite lookup_resize_new by lia.
      rewrite (lookup_ge_None_2 recs) by lia. done.
  - rewrite lookup_resize_old by lia. done.
Qed.

Lemma length_set_length recs n :
  List.length (Cache.set_length recs n) = Z.to_nat n.
Proof. apply length_resize. Qed.

Section Notify.
Context `{!Collaborators}.

(** [_notifyStoreKeyChanges] leaves a cache as long as the new array, in
    which the indexes of the difference set are empty and every other
    index below the new length holds what it held; it writes nothing else,
    also when there is no cache, and fires one content-changed
    notification that starts at the first difference and runs to the end
    of the old and of the new array. *)
Theorem notifyStoreKeyChanges_spec v old new ds s self :
  views s !! v = Some self →
  ∃ s' self',
    _notifyStoreKeyChanges v old new ds s = Ok tt s'
    ∧ trace s'
      = trace s ++ [EvArrayContentDidChange v (is_min ds)
                      (js_length (elems_of old) - is_min ds)
                      (js_length (arr_elems new) - is_min ds)]
    ∧ (∀ w, w ≠ v → views s' !! w = views s !! w)
    ∧ views s' !! v = Some self'
    ∧ self' = set_scra_records (_scra_records self') self
    ∧ match _scra_records self with
      | None => _scra_records self' = None
      | Some recs =>
          ∃ recs', _scra_records self' = Some recs'
            ∧ List.length recs' = Z.to_nat (js_length (arr_elems new))
            ∧ ∀ i, Cache.get_at recs' i
                   = if decide (is_min ds ≤ i < is_min ds + is_length ds
                                ∨ js_length (arr_elems new) ≤ i)
                     then None else Cache.get_at recs i
      end.
Proof.
  intros Hself. unfold _notifyStoreKeyChanges. cbv zeta.
  rewrite (bind_get_view _ _ _ _ Hself).
  assert (Hold : match old with
                 | Some o => js_length (arr_elems o)
                 | None => 0
                 end = js_length (elems_of old)) by by destruct old.
  rewrite Hold.
  destruct (_scra_records self) as [recs|] eqn:Hrecs.
  - rewrite (bind_modify_view _ _ _ _ _ Hself). unfold emit. cbn [views trace].
    eexists _, _. split; [done|]. cbn [views trace]. split; [done|].
    split; [intros w Hw; by rewrite lookup_insert_ne|].
    split; [by rewrite lookup_insert_eq|]. split; [by destruct self|].
    eexists. split; [done|]. split; [apply length_set_length|].
    intros i. rewrite get_at_set_length, get_at_clear_range.
    destruct (decide (i < js_length (arr_elems new))).
    + destruct (decide (is_min ds ≤ i < is_min ds + is_length ds)).
      * rewrite decide_True by by left. done.
      * rewrite decide_False by lia. done.
    + rewrite decide_True by (right; lia). done.
  - rewrite bind_ret. unfold emit.
    exists (mkState (views s) (trace s ++ [EvArrayContentDidChange v (is_min ds)
                      (js_length (elems_of old) - is_min ds)
                      (js_length (arr_elems new) - is_min ds)])), self.
    split; [done|]. split; [done|]. split; [done|]. split; [done|].
    split; [destruct self; simpl in *; by subst|done].
Qed.

End Notify.

(** The notification of [[1, 2, 3]] against [[1, 4, 3]]. *)
Lemma notifyStoreKeyChanges_spec_witness :
  ∃ s', _notifyStoreKeyChanges 0%nat (Some (mkArray 1 [1; 2; 3]))
          (mkArray 100 [1; 4; 3]) (mkIndexSet 1 1) (Demo.single Demo.dirty_view)
        = Ok tt s'
      ∧ trace s' = [EvArrayContentDidChange 0%nat 1 2 2].
Proof.
  destruct (notifyStoreKeyChanges_spec 0%nat (Some (mkArray 1 [1; 2; 3]))
              (mkArray 100 [1; 4; 3]) (mkIndexSet 1 1)
              (Demo.single Demo.dirty_view) Demo.dirty_view)
    as (s' & self' & Hrun & Ht & _); [reflexivity|].
  exists s'. split; [exact Hrun|exact Ht].
Defined.

End CacheFacts.

(** ** Invariants of a flush *)

Module FlushInvariant.
Import RecordArray Vocabulary VocabularyMore Effects FlushFrame FlushFacts.

Section Invariant.
Context `{!Collaborators}.

(** A property of a record array that the flags and the batches do not
    affect and that the merge section of a flush keeps. *)
Context (P : View → Prop).
Hypothesis P_needsFlush : ∀ x b, P x → P (set_needsFlush b x).
Hypothesis P_insideFlush : ∀ x b, P x → P (set_insideFlush b x).
Hypothesis P_changed : ∀ x c, P x → P (set_scra_changedStoreKeys c x).
Hypothesis P_merged : ∀ x new r,
  P x → Differ._findDifferences (storeKeys x) (Some new) = Val r →
  P (merged_view x new r).

Lemma all_views_insert s v x t :
  all_views P s → P x → all_views P (mkState (<[v := x]> (views s)) t).
Proof.
  intros Hs Hx w y. cbn [views]. destruct (decide (v = w)) as [<-|Hne].
  - rewrite lookup_insert_eq. by intros [= <-].
  - rewrite lookup_insert_ne by done. apply Hs.
Qed.

Lemma P_seed a d u p x : P x → P (seed a d u p x).
Proof. intros Hx. unfold seed. destruct (_ =? _)%nat; [done|]. by apply P_changed. Qed.

Lemma all_views_seed_all nested a d u p vs t t' :
  all_views P (mkState vs t) →
  all_views P (mkState (seed_all nested a d u p vs) t').
Proof.
  intros Hs w y. cbn [views]. rewrite seed_all_lookup.
  destruct (decide (w ∈ nested)); [|apply Hs].
  destruct (vs !! w) as [x|] eqn:Hx; [|done].
  intros [= <-]. apply P_seed. by apply (Hs w).
Qed.

Lemma forEach_flush_invariant depth fuel l s :
  well_formed depth s → all_views P s →
  (∀ p, p ∈ l → is_Some (views s !! p) ∧ (depth p < fuel)%nat) →
  (∀ p f s, well_formed depth s → is_Some (views s !! p) →
            (depth p < fuel)%nat → all_views P s →
            ∃ s', flush fuel p f s = Ok tt s' ∧ all_views P s') →
  ∃ s', forEach l (fun p => flush fuel p false) s = Ok tt s' ∧ all_views P s'.
Proof.
  intros Hwf HP Hl IH. revert s Hwf HP Hl.
  induction l as [|p l IHl]; intros s Hwf HP Hl; simpl.
  - by exists s.
  - destruct (Hl p) as [Hp Hd]; [left|].
    destruct (IH p false s Hwf Hp Hd HP) as (s1 & Hs1 & HP1).
    unfold bind. rewrite Hs1.
    assert (HR : lift (fun _ => same_shape) any_event s s1).
    { apply (flush_same_shape fuel p false). by rewrite Hs1. }
    apply IHl; [by eapply well_formed_lift|done|].
    intros p' Hp'. destruct (Hl p') as [Hp'' Hd']; [by right|].
    split; [|done]. by eapply lift_is_Some.
Qed.

Lemma flush_invariant depth fuel v f s :
  well_formed depth s → is_Some (views s !! v) → (depth v < fuel)%nat →
  all_views P s →
  ∃ s', flush fuel v f s = Ok tt s' ∧ all_views P s'.
Proof.
  revert v f s. induction fuel as [|fuel IH]; intros v f s Hwf [self Hself] Hd HP;
    [lia|].
  assert (Pself : P self) by by apply (HP v).
  simpl. rewrite (bind_get_view _ _ _ _ Hself).
  destruct (negb (needsFlush self) && negb f); [by eexists|].
  destruct (negb (enabled self)); [by eexists|].
  destruct (_insideFlush self); [by eexists|].
  rewrite (bind_modify_view _ _ _ _ _ Hself).
  assert (HP0 : all_views P
                  (mkState (<[v:=set_needsFlush false self]> (views s)) (trace s))).
  { apply all_views_insert; [done|]. by apply P_needsFlush. }
  unfold flush_local.
  destruct (store self); [|by eexists].
  destruct (query self) as [q|] eqn:Hq; [|by eexists].
  destruct (is_LOCAL (location q)); [|by eexists].
  step_modify.
  set (sa := mkState _ _).
  assert (HRa : lift (fun _ => same_shape) any_event s sa).
  { split; [|exists []; by rewrite app_nil_r]. intros w. subst sa. simpl.
    destruct (decide (v = w)) as [<-|Hne].
    - rewrite lookup_insert_eq, Hself. constructor. by destruct self.
    - rewrite lookup_insert_ne by done. reflexivity. }
  assert (Hwfa : well_formed depth sa) by by eapply well_formed_lift.
  assert (HPa : all_views P sa).
  { apply all_views_insert; [done|]. by apply P_insideFlush, P_needsFlush. }
  destruct (forEach_flush_invariant depth fuel (scope_sources (Some q)) sa Hwfa HPa)
    as (sb & Hsb & HPb).
  { intros p Hp. destruct (wf_scope _ _ Hwf v self q p Hself Hq Hp) as [Hsome Hlt].
    split; [by eapply lift_is_Some|lia]. }
  { intros p f' s' Hwf' Hp' Hd' HP'. by apply IH. }
  unfold bind at 1. rewrite Hsb.
  assert (HRb : lift (fun _ => same_shape) any_event sa sb).
  { apply (forEach_flush_same_shape fuel (scope_sources (Some q))). by rewrite Hsb. }
  assert (Hwfb : well_formed depth sb) by by eapply well_formed_lift.
  destruct (lift_is_Some _ _ _ _ v HRb) as [xb Hxb].
  { subst sa. simpl. rewrite lookup_insert_eq. by eexists. }
  rewrite (bind_get_view _ _ _ _ Hxb).
  assert (Pxb : P xb) by by apply (HPb v).
  destruct (_ || _).
  - destruct (flush_merge_spec v q f sb xb Hxb) as (r & Hr & Hm).
    { intros nested c Hn Hc. by eapply (wf_nested _ _ Hwfb). }
    unfold bind at 1. rewrite Hm.
    set (sm := mkState _ _).
    assert (HPm : all_views P sm).
    { subst sm. apply all_views_seed_all with (t := trace sb).
      apply all_views_insert; [done|]. by eapply P_merged. }
    assert (is_Some (views sm !! v)) as [y Hy].
    { subst sm. cbn [views]. apply seed_all_is_Some.
      rewrite lookup_insert_eq. by eexists. }
    rewrite (modify_view_Some _ _ _ _ Hy). eexists. split; [done|].
    apply all_views_insert; [done|]. apply P_insideFlush. by apply (HPm v).
  - rewrite bind_ret. rewrite (modify_view_Some _ _ _ _ Hxb).
    eexists. split; [done|]. apply all_views_insert; [done|]. by apply P_insideFlush.
Qed.

End Invariant.

Section Coherence.
Context `{!Collaborators}.

Lemma coherent_content x x' :
  storeKeys x' = storeKeys x → _scra_records x' = _scra_records x →
  coherent x → coherent x'.
Proof. intros Hk Hc Hx recs i r. rewrite Hk, Hc. apply Hx. Qed.

Lemma coherent_no_cache x : _scra_records x = None → coherent x.
Proof. intros Hc recs i r. by rewrite Hc. Qed.

Lemma get_at_Some_nonneg recs i (r : SCRecord) :
  Cache.get_at recs i = Some r → 0 ≤ i.
Proof. unfold Cache.get_at. destruct (Z.ltb_spec i 0); [done|lia]. Qed.

Lemma coherent_merged x new r :
  coherent x → Differ._findDifferences (storeKeys x) (Some new) = Val r →
  coherent (merged_view x new r).
Proof.
  intros Hx Hr. unfold merged_view. cbv zeta. destruct r as [ds|].
  - destruct (_scra_records x) as [recs|] eqn:Hrecs.
    + intros recs' i rec Hrecs' Hi. cbn in Hrecs'. injection Hrecs' as <-.
      cbn [storeKeys set_scra_records set_storeKeys elems_of].
      rewrite CacheFacts.get_at_set_length, CacheFacts.get_at_clear_range in Hi.
      destruct (decide (i < js_length (arr_elems new))) as [Hlt|]; [|done].
      destruct (decide (is_min ds ≤ i < is_min ds + is_length ds)) as [|Hout];
        [done|].
      pose proof (get_at_Some_nonneg _ _ _ Hi) as Hi0.
      rewrite <- (DifferRange.findDifferences_agree (storeKeys x) new ds i Hr);
        [|lia|lia].
      by apply (Hx recs).
    + apply coherent_no_cache. by destruct x.
  - revert Hx. apply coherent_content; by destruct x.
Qed.

Lemma flush_coherent depth fuel v f s :
  well_formed depth s → is_Some (views s !! v) → (depth v < fuel)%nat →
  all_views coherent s →
  ∃ s', flush fuel v f s = Ok tt s' ∧ all_views coherent s'.
Proof.
  apply flush_invariant; [..|apply coherent_merged];
    intros x b; apply coherent_content; by destruct x.
Qed.

(** A flush returns and leaves every cache coherent with its [storeKeys]:
    a record that stays in the cache is the record of the store key that
    the new [storeKeys] hold at its index. *)
Theorem flush_keeps_cache_coherent depth fuel v f s :
  well_formed depth s → is_Some (views s !! v) → (depth v < fuel)%nat →
  all_views coherent s →
  ∃ s', flush fuel v f s = Ok tt s'
      ∧ ∀ w x recs i r,
          views s' !! w = Some x → _scra_records x = Some recs →
          Cache.get_at recs i = Some r →
          js_index (elems_of (storeKeys x)) i = Some (rec_storeKey r).
Proof.
  intros Hwf Hv Hd Hs.
  destruct (flush_coherent depth fuel v f s Hwf Hv Hd Hs) as (s' & Hflush & Hs').
  exists s'. split; [done|]. intros w x recs i r Hx. by apply (Hs' w x Hx).
Qed.

End Coherence.

End FlushInvariant.

(** ** The accessors *)

Module AccessFacts.
Import RecordArray Vocabulary VocabularyMore VocabularyAccess.
Import Effects FlushFrame FlushFacts CacheFacts FlushInvariant.

Section Access.
Context `{!Collaborators}.

Lemma flush_idle fuel v s x :
  views s !! v = Some x → idle x → flush (S fuel) v false s = Ok tt s.
Proof.
  intros Hx Hidle. cbn [flush]. rewrite (bind_get_view _ _ _ _ Hx).
  destruct (needsFlush x) eqn:Hn; [|done]. cbn [negb andb].
  destruct (enabled x) eqn:He; [|done]. cbn [negb].
  destruct (_insideFlush x) eqn:Hi; [done|].
  destruct Hidle as [?|[?|?]]; congruence.
Qed.

Lemma flush_leaves_idle fuel v f s s1 :
  flush fuel v f s = Ok tt s1 → ∃ x1, views s1 !! v = Some x1 ∧ idle x1.
Proof.
  destruct fuel as [|fuel]; [done|]. intros Hfl.
  cbn [flush] in Hfl. unfold bind at 1, get_view at 1 in Hfl.
  destruct (views s !! v) as [x|] eqn:Hx; [|done].
  destruct (negb (needsFlush x) && negb f) eqn:Hg1.
  { injection Hfl as <-. exists x. split; [done|]. left.
    apply andb_true_iff in Hg1 as [Hn _]. by destruct (needsFlush x). }
  destruct (enabled x) eqn:Hen; simpl in Hfl.
  2: { injection Hfl as <-. exists x. split; [done|]. right. by left. }
  destruct (_insideFlush x) eqn:Hin.
  { injection Hfl as <-. exists x. split; [done|]. right. by right. }
  rewrite (bind_modify_view _ _ _ _ _ Hx) in Hfl.
  assert (HR : lift (fun _ => needsFlush_le) any_event
            (mkState (<[v:=set_needsFlush false x]> (views s)) (trace s)) s1).
  { eapply (flush_local_preserves needsFlush_le needsFlush_le_steps).
    - intros p. apply flush_needsFlush_le.
    - by rewrite Hfl. }
  destruct (lift_lookup _ _ _ _ v (set_needsFlush false x) HR) as (y & Hy & Hle).
  { simpl. by rewrite lookup_insert_eq. }
  exists y. split; [done|]. left.
  destruct (needsFlush y) eqn:Hny; [|done]. specialize (Hle Hny).
  by destruct x.
Qed.

(** [length] is the length of [storeKeys] once pending changes are
    flushed, and 0 without [storeKeys]; it leaves the state the flush
    leaves, and asking again gives the same length and changes nothing. *)
Theorem length_spec depth fuel v s :
  well_formed depth s → is_Some (views s !! v) → (depth v < fuel)%nat →
  ∃ n s' self',
    length fuel v s = Ok n s'
    ∧ flush fuel v false s = Ok tt s'
    ∧ views s' !! v = Some self'
    ∧ n = js_length (elems_of (storeKeys self'))
    ∧ 0 ≤ n
    ∧ ∀ fuel2, length (S fuel2) v s' = Ok n s'.
Proof.
  intros Hwf Hv Hd.
  destruct (flush_returns depth fuel v false s Hwf Hv Hd) as [s' Hs'].
  destruct (flush_leaves_idle _ _ _ _ _ Hs') as (self' & Hself' & Hidle).
  exists (js_length (elems_of (storeKeys self'))), s', self'.
  assert (Hlen : ∀ fuel', flush fuel' v false s' = Ok tt s' →
            length fuel' v s' = Ok (js_length (elems_of (storeKeys self'))) s').
  { intros fuel' Hfl. unfold length, bind at 1. rewrite Hfl.
    rewrite (bind_get_view _ _ _ _ Hself'). by destruct (storeKeys self'). }
  split.
  { unfold length, bind at 1. rewrite Hs'.
    rewrite (bind_get_view _ _ _ _ Hself'). by destruct (storeKeys self'). }
  split; [done|]. split; [done|]. split; [done|].
  split; [unfold js_length; lia|].
  intros fuel2. apply Hlen. by apply (flush_idle _ _ _ self').
Qed.





(** Once [objectAt(idx)] has returned a record, asking again returns the
    same record and changes nothing: the record comes from the cache and
    the store is not asked again. *)
Theorem objectAt_again fuel fuel2 v idx s r s' :
  objectAt fuel v idx s = Ok (Some r) s' →
  objectAt (S fuel2) v idx s' = Ok (Some r) s'.
Proof.
  unfold objectAt at 1, bind at 1.
  destruct (flush fuel v false s) as [[] sf| |] eqn:Hsf; [|done..].
  destruct (flush_leaves_idle _ _ _ _ _ Hsf) as (xf & Hxf & Hidle).
  rewrite (bind_get_view _ _ _ _ Hxf).
  assert (Hhit : ∀ s2 x2 recs2,
    views s2 !! v = Some x2 → idle x2 → is_Some (storeKeys x2) →
    is_Some (store x2) → _scra_records x2 = Some recs2 →
    Cache.get_at recs2 idx = Some r →
    objectAt (S fuel2) v idx s2 = Ok (Some r) s2).
  { intros s2 x2 recs2 Hx2 Hidle2 [keys2 Hkeys2] [st2 Hst2] Hrecs2 Hget.
    unfold objectAt, bind at 1. rewrite (flush_idle _ _ _ x2 Hx2 Hidle2).
    rewrite (bind_get_view _ _ _ _ Hx2). rewrite Hkeys2, Hst2, Hrecs2. cbn.
    by rewrite Hget. }
  destruct (storeKeys xf) as [keys|] eqn:Hkeys; [|done].
  destruct (store xf) as [st|] eqn:Hst; [|done].
  destruct (_scra_records xf ≫= fun recs => Cache.get_at recs idx) as [cached|] eqn:Hc.
  { intros [= <- <-]. destruct (_scra_records xf) as [recs|] eqn:Hrecs; [|done].
    apply (Hhit sf xf recs); try done; by eexists. }
  rewrite (bind_modify_view _ _ _ _ _ Hxf).
  destruct (js_index (arr_elems keys) idx) as [k|] eqn:Hk; [|done].
  destruct (Z.eqb_spec k 0) as [->|Hk0]; [done|].
  assert (0 ≤ idx) as Hidx.
  { unfold js_index in Hk. destruct (Z.ltb_spec idx 0); [done|lia]. }
  assert (Hflags : idle (set_scra_records
            (Some (Cache.set_at (default [] (_scra_records xf)) idx
                     (Some (mkRecord k)))) xf)) by by destruct xf.
  destruct (store_isEmpty st k).
  - rewrite bind_emit. cbn [views trace]. step_modify. unfold ret. intros [= <- <-].
    eapply Hhit; [cbn [views]; apply lookup_insert_eq|done|by eexists|by eexists
                 |done|].
    rewrite get_at_set_at. by rewrite decide_True.
  - rewrite bind_ret. step_modify. unfold ret. intros [= <- <-].
    eapply Hhit; [cbn [views]; apply lookup_insert_eq|done|by eexists|by eexists
                 |done|].
    rewrite get_at_set_at. by rewrite decide_True.
Qed.

End Access.

End AccessFacts.

(** ** The guards and the outcome of a flush *)

Module FlushEdges.
Import RecordArray Vocabulary VocabularyMore VocabularyAccess.
Import Effects FlushFrame FlushFacts CacheFacts FlushInvariant AccessFacts.

Section Edges.
Context `{!Collaborators}.

Lemma flush_not_enabled fuel v f s x :
  views s !! v = Some x → enabled x = false → flush (S fuel) v f s = Ok tt s.
Proof.
  intros Hx He. cbn [flush]. rewrite (bind_get_view _ _ _ _ Hx).
  rewrite He. by destruct (negb (needsFlush x) && negb f).
Qed.

(** After [disable], a flush of the record array, forced or not, changes
    nothing, and [length] keeps answering from the [storeKeys] the record
    array had: pending changes stay pending. *)
Theorem disabled_serves_stale v s x :
  views s !! v = Some x →
  ∃ s1,
    disable v s = Ok tt s1
    ∧ views s1 = <[v := set_enabled false x]> (views s)
    ∧ trace s1 = trace s
    ∧ ∀ fuel f,
        flush (S fuel) v f s1 = Ok tt s1
        ∧ length (S fuel) v s1 = Ok (js_length (elems_of (storeKeys x))) s1.
Proof.
  intros Hx. unfold disable. rewrite (modify_view_Some _ _ _ _ Hx).
  eexists. split; [done|]. cbn [views trace]. split; [done|]. split; [done|].
  intros fuel f.
  assert (Hx1 : views (mkState (<[v:=set_enabled false x]> (views s)) (trace s)) !! v
                = Some (set_enabled false x)) by apply lookup_insert_eq.
  split; [by apply (flush_not_enabled _ _ _ _ _ Hx1)|].
  unfold length, bind at 1. rewrite (flush_not_enabled _ _ _ _ _ Hx1) by done.
  rewrite (bind_get_view _ _ _ _ Hx1). by destruct x as [? ? ? ? [?|]].
Qed.

(** A flush that passes the first guards on a record array without a
    store, without a query, or with a query that is not local only clears
    [needsFlush]: no parent is flushed, nothing is merged or notified. *)
Theorem flush_not_local fuel v (f : bool) s x :
  views s !! v = Some x →
  negb (needsFlush x) && negb f = false →
  enabled x = true → _insideFlush x = false →
  store x = None ∨ query x = None
  ∨ (∃ q, query x = Some q ∧ location q = REMOTE) →
  flush (S fuel) v f s
  = Ok tt (mkState (<[v := set_needsFlush false x]> (views s)) (trace s)).
Proof.
  intros Hx Hg He Hi Hcase. cbn [flush]. rewrite (bind_get_view _ _ _ _ Hx).
  rewrite Hg, He, Hi. cbn [negb]. rewrite (bind_modify_view _ _ _ _ _ Hx).
  unfold flush_local.
  destruct Hcase as [->|[->|(q & -> & Hq)]].
  - done.
  - by destruct (store x).
  - rewrite Hq. by destruct (store x).
Qed.

(** [reload] on a record array that has been flushed before, holds no
    recorded change and has no parent does not invoke [merge]: it only
    clears [needsFlush], and [storeKeys] stay as they are. *)
Theorem reload_without_changes fuel v s x q st :
  views s !! v = Some x →
  enabled x = true → _insideFlush x = false →
  store x = Some st → query x = Some q → location q = LOCAL →
  scope_sources (Some q) = [] →
  _flushed x = true → _scra_changedStoreKeys x = None →
  reload (S fuel) v s
  = Ok tt (mkState (<[v := set_needsFlush false x]> (views s)) (trace s)).
Proof.
  intros Hx He Hi Hst Hq Hloc Hscope Hfl Hch. unfold reload. cbn [flush].
  rewrite (bind_get_view _ _ _ _ Hx).
  rewrite He, Hi. rewrite andb_false_r. cbn [negb].
  rewrite (bind_modify_view _ _ _ _ _ Hx).
  unfold flush_local. rewrite Hst, Hq, Hloc. cbn [is_LOCAL].
  step_modify. rewrite Hscope. cbn [forEach]. rewrite bind_ret.
  step_get.
  replace (bool_decide _ || _) with false.
  2: { destruct x; simpl in *; subst. done. }
  rewrite bind_ret.
  rewrite (modify_view_Some _ _ _
             (set_insideFlush true (set_needsFlush false x)))
    by (cbn [views]; apply lookup_insert_eq).
  cbn [views trace]. rewrite insert_insert_eq.
  do 3 f_equal. destruct x; simpl in *; by subst.
Qed.

(** On an arena whose scope graph is well-founded, a flush returns: it
    throws nothing, adds or removes no record array, leaves the store, the
    query, [enabled], the nested record arrays and [isDestroyed] of every
    record array as they are, never raises [needsFlush] and never unsets
    [storeKeys]. *)
Theorem flush_returns_and_frames depth fuel v f s :
  well_formed depth s → is_Some (views s !! v) → (depth v < fuel)%nat →
  ∃ s',
    flush fuel v f s = Ok tt s'
    ∧ (∀ w, is_Some (views s' !! w) ↔ is_Some (views s !! w))
    ∧ ∀ w x x', views s !! w = Some x → views s' !! w = Some x' →
        store x' = store x ∧ query x' = query x ∧ enabled x' = enabled x
        ∧ nestedRecordArrays x' = nestedRecordArrays x
        ∧ isDestroyed x' = isDestroyed x
        ∧ (needsFlush x' = true → needsFlush x = true)
        ∧ (is_Some (storeKeys x) → is_Some (storeKeys x')).
Proof.
  intros Hwf Hv Hd.
  destruct (flush_returns depth fuel v f s Hwf Hv Hd) as [s' Hs'].
  assert (Hout : outcome_state (flush fuel v f s) = Some s') by by rewrite Hs'.
  pose proof (flush_same_shape fuel v f s s' Hout) as Hshape.
  pose proof (flush_needsFlush_le fuel v f s s' Hout) as Hle.
  pose proof (flush_storeKeys_set fuel v f s s' Hout) as Hset.
  exists s'. split; [done|]. split.
  { intros w. split; [by eapply lift_is_Some_inv|by eapply lift_is_Some]. }
  intros w x x' Hx Hx'.
  destruct (lift_lookup _ _ _ _ w x Hshape Hx) as (y & Hy & H1 & H2 & H3 & H4 & H5).
  destruct (lift_lookup _ _ _ _ w x Hle Hx) as (y' & Hy' & H6).
  destruct (lift_lookup _ _ _ _ w x Hset Hx) as (y'' & Hy'' & H7).
  rewrite Hx' in Hy, Hy', Hy''.
  injection Hy as <-. injection Hy' as <-. injection Hy'' as <-.
  by repeat split.
Qed.

Lemma merge_calls_app v t1 t2 :
  merge_calls v (t1 ++ t2) = merge_calls v t1 ++ merge_calls v t2.
Proof.
  induction t1 as [|e t1 IH]; [done|].
  destruct e; simpl; try done. case_decide; [|done]. by rewrite IH.
Qed.

Lemma merge_calls_not_about v t :
  Forall (fun e => ¬ about v e) t → merge_calls v t = [].
Proof.
  intros HF. induction t as [|e t IH]; [done|].
  apply Forall_cons in HF as [He Ht]. specialize (IH Ht).
  destruct e; simpl; try done. simpl in He. by rewrite decide_False.
Qed.

Lemma merge_calls_merged_events v self new r :
  merge_calls v (merged_events v self new r) = [].
Proof. by destruct r. Qed.

Lemma notifications_of_merged_events v self new r :
  (List.length (notifications_of v (merged_events v self new r)) ≤ 1)%nat.
Proof. destruct r; simpl; [|lia]. rewrite decide_True by done. simpl. lia. Qed.

(** In one flush, [merge] is invoked for the record array at most once,
    whatever the flushes of its parents do, and at most one
    content-changed notification is fired for it, none without a merge. *)
Theorem flush_merges_at_most_once depth fuel v (f : bool) s :
  well_formed depth s → is_Some (views s !! v) → (depth v ≤ fuel)%nat →
  ∃ s' t,
    flush (S fuel) v f s = Ok tt s'
    ∧ trace s' = trace s ++ t
    ∧ (List.length (merge_calls v t) ≤ 1)%nat
    ∧ (List.length (notifications_of v t) ≤ List.length (merge_calls v t))%nat.
Proof.
  intros Hwf [self Hself] Hd.
  destruct (reconciles_dec self f) as [[q Hrec]|Hno].
  - destruct Hrec as (Hg & He & Hi & Hst & Hq & Hloc).
    destruct (flush_spec depth fuel v f s self q Hwf Hself Hd Hg He Hi Hst Hq Hloc)
      as (sb & b & t & _ & _ & _ & Ht & Hnot & _ & _ & Hres).
    cbv zeta in Hres. destruct (merges self b).
    + destruct Hres as (r & _ & Hflush). eexists _, _. split; [exact Hflush|].
      cbn [trace]. rewrite Ht, <- app_assoc. split; [done|].
      rewrite merge_calls_app, notifications_of_app.
      rewrite (merge_calls_not_about _ _ Hnot), (notifications_of_not_about _ _ Hnot).
      cbn [app merge_calls notifications_of]. rewrite decide_True by done.
      rewrite merge_calls_merged_events. cbn [List.length].
      split; [lia|]. apply notifications_of_merged_events.
    + eexists _, t. split; [exact Hres|]. cbn [trace]. split; [done|].
      rewrite (merge_calls_not_about _ _ Hnot), (notifications_of_not_about _ _ Hnot).
      simpl. lia.
  - destruct (flush_skips fuel v f s self Hself Hno) as (s' & Hs' & Ht).
    exists s', []. rewrite app_nil_r. split; [done|]. split; [done|]. simpl. lia.
Qed.

(** A flush that passes its guards settles the record array: afterwards
    it needs no flush, is not inside a flush, has been flushed, and, unless
    it is nested in itself, holds no recorded change. *)
Theorem flush_settles depth fuel v (f : bool) s self q :
  well_formed depth s → views s !! v = Some self → (depth v ≤ fuel)%nat →
  reconciles self f q → v ∉ default [] (nestedRecordArrays self) →
  ∃ s' self',
    flush (S fuel) v f s = Ok tt s'
    ∧ views s' !! v = Some self'
    ∧ needsFlush self' = false ∧ _insideFlush self' = false
    ∧ _flushed self' = true ∧ _scra_changedStoreKeys self' = None.
Proof.
  intros Hwf Hself Hd (Hg & He & Hi & Hst & Hq & Hloc) Hnested.
  destruct (flush_spec depth fuel v f s self q Hwf Hself Hd Hg He Hi Hst Hq Hloc)
    as (sb & b & t & _ & Hxb & _ & _ & _ & _ & _ & Hres).
  cbv zeta in Hres. destruct (merges self b) eqn:Hm.
  - destruct Hres as (r & _ & Hflush). eexists _, _. split; [exact Hflush|].
    cbn [views]. rewrite lookup_alter_eq, seed_all_lookup.
    rewrite decide_False by done. rewrite lookup_insert_eq. cbn [fmap option_fmap option_map].
    split; [done|]. unfold merged_view, entered. cbv zeta.
    destruct r; [destruct (_scra_records _)|]; by destruct self.
  - eexists _, _. split; [exact Hres|]. cbn [views]. rewrite lookup_insert_eq.
    split; [done|]. unfold merges in Hm. apply orb_false_iff in Hm as [Hb Hf].
    apply bool_decide_eq_false in Hb. apply negb_false_iff in Hf.
    assert (b = None) as -> by (destruct b; [destruct Hb; by eexists|done]).
    unfold entered. by destruct self.
Qed.

End Edges.

End FlushEdges.

(** ** Enabling and flushing from the leafs *)

Module LeafFacts.
Import RecordArray Vocabulary VocabularyMore VocabularyAccess VocabularyLeafs.
Import Effects FlushFrame FlushFacts DirtyFacts AccessFacts FlushEdges.

Section Leafs.
Context `{!Collaborators}.








(** A record array whose set of nested record arrays exists but is empty,
    as it is once all of them have been destroyed, is not flushed by
    [flushFromLeafs], and [enable] only sets [enabled]: pending changes
    stay pending. *)
Theorem emptied_parent_is_not_flushed fuel v s x :
  views s !! v = Some x → nestedRecordArrays x = Some [] →
  flushFromLeafs (S fuel) v s = Ok tt s
  ∧ (enabled x = false →
     enable (S fuel) v s
     = Ok tt (mkState (<[v := set_enabled true x]> (views s)) (trace s))).
Proof.
  intros Hx Hn. split.
  - cbn [flushFromLeafs]. rewrite (bind_get_view _ _ _ _ Hx). by rewrite Hn.
  - intros He. unfold enable. rewrite (bind_get_view _ _ _ _ Hx). rewrite He.
    rewrite (bind_modify_view _ _ _ _ _ Hx). cbn [flushFromLeafs].
    step_get. by destruct x; simpl in *; subst.
Qed.

Lemma flush_not_inside depth fuel v (f : bool) s x :
  well_formed depth s → views s !! v = Some x → (depth v ≤ fuel)%nat →
  _insideFlush x = false →
  ∃ s' x', flush (S fuel) v f s = Ok tt s' ∧ views s' !! v = Some x'
           ∧ _insideFlush x' = false.
Proof.
  intros Hwf Hx Hd Hi.
  destruct (reconciles_dec x f) as [[q Hrec]|Hno].
  - destruct Hrec as (Hg & He & _ & Hst & Hq & Hloc).
    destruct (flush_spec depth fuel v f s x q Hwf Hx Hd Hg He Hi Hst Hq Hloc)
      as (sb & b & t & _ & Hxb & _ & _ & _ & _ & _ & Hres).
    cbv zeta in Hres. destruct (merges x b).
    + destruct Hres as (r & _ & Hflush).
      match type of Hflush with
      | _ = Ok tt (mkState (alter _ _ (seed_all ?n ?a ?d ?u ?p ?m)) _) =>
          destruct (seed_all_is_Some n a d u p m v) as [_ [y Hy]];
            [rewrite lookup_insert_eq; by eexists|]
      end.
      eexists _, (set_insideFlush false y). split; [exact Hflush|].
      cbn [views]. rewrite lookup_alter_eq, Hy. split; [done|]. by destruct y.
    + eexists _, _. split; [exact Hres|]. cbn [views]. rewrite lookup_insert_eq.
      split; [done|]. by destruct x.
  - cbn [flush]. rewrite (bind_get_view _ _ _ _ Hx).
    destruct (negb (needsFlush x) && negb f) eqn:Hg1; [by exists s, x|].
    destruct (enabled x) eqn:Hen; [|by exists s, x]. rewrite Hi. cbn [negb].
    rewrite (bind_modify_view _ _ _ _ _ Hx). unfold flush_local.
    assert (Hfinal : ∃ s' x',
      Ok tt (mkState (<[v:=set_needsFlush false x]> (views s)) (trace s)) = Ok tt s'
      ∧ views s' !! v = Some x' ∧ _insideFlush x' = false).
    { eexists _, _. split; [done|]. cbn [views]. rewrite lookup_insert_eq.
      split; [done|]. by destruct x. }
    destruct (store x) eqn:Hst; [|done].
    destruct (query x) as [q|] eqn:Hq; [|done].
    destruct (location q) eqn:Hloc; [|done].
    destruct (Hno q). repeat split; first [done|by eexists].
Qed.

(** [enable] on an enabled record array does nothing. On a disabled
    record array without nested record arrays that is not inside a flush
    it sets [enabled] and flushes: afterwards the record array is enabled
    and needs no flush. *)
Theorem enable_flushes_leaf depth fuel v s x :
  well_formed depth s → views s !! v = Some x → (depth v ≤ fuel)%nat →
  (enabled x = true → enable (S (S fuel)) v s = Ok tt s)
  ∧ (enabled x = false → nestedRecordArrays x = None → _insideFlush x = false →
     ∃ s' x',
       enable (S (S fuel)) v s = Ok tt s'
       ∧ views s' !! v = Some x'
       ∧ enabled x' = true ∧ needsFlush x' = false).
Proof.
  intros Hwf Hx Hd. split.
  { intros He. unfold enable. rewrite (bind_get_view _ _ _ _ Hx). by rewrite He. }
  intros He Hn Hi. unfold enable. rewrite (bind_get_view _ _ _ _ Hx). rewrite He.
  rewrite (bind_modify_view _ _ _ _ _ Hx). cbn [flushFromLeafs].
  step_get. replace (nestedRecordArrays (set_enabled true x)) with (@None (list ViewId))
    by by destruct x.
  set (s1 := mkState _ _).
  assert (Hx1 : views s1 !! v = Some (set_enabled true x)) by apply lookup_insert_eq.
  assert (Hwf1 : well_formed depth s1).
  { destruct Hwf as [Hscope Hnested]. split.
    - intros w y q p Hy Hq Hp. subst s1. cbn [views] in *.
      destruct (decide (v = w)) as [<-|Hne].
      + rewrite lookup_insert_eq in Hy. injection Hy as <-.
        destruct (Hscope v x q p Hx) as [Hsome Hlt]; [by destruct x|done|].
        split; [|done]. destruct (decide (v = p)) as [<-|];
          [rewrite lookup_insert_eq; by eexists|by rewrite lookup_insert_ne].
      + rewrite lookup_insert_ne in Hy by done.
        destruct (Hscope w y q p Hy Hq Hp) as [Hsome Hlt].
        split; [|done]. destruct (decide (v = p)) as [<-|];
          [rewrite lookup_insert_eq; by eexists|by rewrite lookup_insert_ne].
    - intros w y nested c Hy Hny Hc. subst s1. cbn [views] in *.
      assert (is_Some (views s !! c)) as Hsome.
      { destruct (decide (v = w)) as [<-|Hne].
        + rewrite lookup_insert_eq in Hy. injection Hy as <-.
          apply (Hnested v x nested c Hx); [by destruct x|done].
        + rewrite lookup_insert_ne in Hy by done. by apply (Hnested w y nested c). }
      destruct (decide (v = c)) as [<-|];
        [rewrite lookup_insert_eq; by eexists|by rewrite lookup_insert_ne]. }
  destruct (flush_not_inside depth fuel v false s1 (set_enabled true x) Hwf1 Hx1 Hd)
    as (s' & x' & Hs' & Hx' & Hi'); [by destruct x|].
  exists s', x'. split; [done|]. split; [done|].
  assert (Hout : outcome_state (flush (S fuel) v false s1) = Some s') by by rewrite Hs'.
  destruct (lift_lookup _ _ _ _ v _ (flush_same_shape _ _ _ _ _ Hout) Hx1)
    as (y & Hy & _ & _ & _ & Hen & _).
  rewrite Hx' in Hy. injection Hy as <-.
  assert (enabled x' = true) as Hen' by (rewrite Hen; by destruct x).
  split; [done|].
  destruct (flush_leaves_idle _ _ _ _ _ Hs') as (y & Hy & Hidle).
  rewrite Hx' in Hy. injection Hy as <-.
  destruct Hidle as [?|[?|?]]; [done|congruence|congruence].
Qed.

End Leafs.

End LeafFacts.

(** ** Registration with the parents *)

Module NestingFacts.
Import RecordArray Vocabulary VocabularyMore VocabularyAccess VocabularyNesting.
Import Effects FlushFrame FlushFacts DirtyFacts StoreFacts DestroyFacts.

Section Nesting.
Context `{!Collaborators}.

Lemma Set_add_elem c l : c ∈ Set_add c l.
Proof. unfold Set_add. case_decide; [done|]. apply elem_of_app. right. by left. Qed.

Lemma Set_add_sub c l : l ⊆ Set_add c l.
Proof.
  intros y Hy. unfold Set_add. case_decide; [done|]. apply elem_of_app. by left.
Qed.

Lemma Set_remove_not_elem c l : c ∉ Set_remove c l.
Proof. unfold Set_remove. intros Hin. by apply list_elem_of_filter in Hin as [? _]. Qed.

Lemma forEach_register v parents s :
  (∀ p, p ∈ parents → is_Some (views s !! p)) →
  ∃ s', forEach parents (fun p => registerNestedRecordArray p v) s = Ok tt s'
      ∧ trace s' = trace s
      ∧ (∀ w, w ∉ parents → views s' !! w = views s !! w)
      ∧ (∀ w x, views s !! w = Some x →
           ∃ x', views s' !! w = Some x'
                 ∧ x' = set_nestedRecordArrays (nestedRecordArrays x') x
                 ∧ (∀ c, nested_in c x → nested_in c x')
                 ∧ (∀ c, nested_in c x' → nested_in c x ∨ (c = v ∧ w ∈ parents))
                 ∧ (w ∈ parents → nested_in v x')).
Proof.
  revert s. induction parents as [|p l IH]; intros s Hvalid.
  { exists s. split; [done|]. split; [done|]. split; [done|].
    intros w x Hx. exists x. split; [done|]. split; [by destruct x|].
    split; [done|]. split; [by left|]. intros Hw. by apply elem_of_nil in Hw. }
  destruct (Hvalid p) as [xp Hxp]; [by left|].
  cbn [forEach]. unfold registerNestedRecordArray at 1.
  rewrite (bind_modify_view _ _ _ _ _ Hxp).
  set (s1 := mkState _ _).
  destruct (IH s1) as (s' & Hs' & Ht & Hframe & Hreg).
  { intros p' Hp'. subst s1. cbn [views].
    destruct (decide (p = p')) as [<-|];
      [rewrite lookup_insert_eq; by eexists|].
    rewrite lookup_insert_ne by done. apply Hvalid. by right. }
  exists s'. split; [done|]. split; [done|]. split.
  { intros w Hw. rewrite Hframe by set_solver. subst s1. cbn [views].
    rewrite lookup_insert_ne; [done|]. set_solver. }
  intros w x Hx. destruct (decide (p = w)) as [<-|Hne].
  - destruct (Hreg p (set_nestedRecordArrays
                        (Some (Set_add v (default [] (nestedRecordArrays xp)))) xp))
      as (x' & Hx' & Hsame & Hkeep & Hnew & Hin).
    { subst s1. cbn [views]. by rewrite lookup_insert_eq. }
    assert (x = xp) as -> by congruence.
    exists x'. split; [done|]. split; [rewrite Hsame; by destruct xp|].
    split; [|split].
    + intros c Hc. apply Hkeep. unfold nested_in. cbn. by apply Set_add_sub.
    + intros c Hc. destruct (Hnew c Hc) as [Hold|[-> ?]].
      * unfold nested_in in Hold. cbn in Hold. unfold Set_add in Hold.
        case_decide; [by left|]. apply elem_of_app in Hold as [?|Hv]; [by left|].
        apply list_elem_of_singleton in Hv as ->. right. split; [done|by left].
      * right. split; [done|by right].
    + intros _. apply Hkeep. unfold nested_in. cbn. apply Set_add_elem.
  - destruct (Hreg w x) as (x' & Hx' & Hsame & Hkeep & Hnew & Hin).
    { subst s1. cbn [views]. by rewrite lookup_insert_ne. }
    exists x'. split; [done|]. split; [done|]. split; [done|]. split.
    + intros c Hc. destruct (Hnew c Hc) as [?|[-> ?]]; [by left|].
      right. split; [done|by right].
    + intros Hw. apply Hin. apply elem_of_cons in Hw as [->|]; done.
Qed.

(** [registerWithParents] adds the record array to the nested record
    arrays of every record array in its query scope and changes nothing
    else: no member is dropped, no other record array gains a member, and
    nothing is notified. Without a query scope it throws a [TypeError] and
    changes nothing. *)
Theorem registerWithParents_spec v s x :
  views s !! v = Some x →
  (∀ p, p ∈ scope_sources (query x) → is_Some (views s !! p)) →
  match query x ≫= scope with
  | None => registerWithParents v s = Throw TypeError s
  | Some parents =>
      ∃ s', registerWithParents v s = Ok tt s'
        ∧ trace s' = trace s
        ∧ ∀ w y, views s !! w = Some y →
            ∃ y', views s' !! w = Some y'
              ∧ y' = set_nestedRecordArrays (nestedRecordArrays y') y
              ∧ (∀ c, nested_in c y' ↔ nested_in c y ∨ (c = v ∧ w ∈ parents))
  end.
Proof.
  intros Hx Hvalid. unfold registerWithParents. rewrite (bind_get_view _ _ _ _ Hx).
  destruct (query x ≫= scope) as [parents|] eqn:Hscope; [|done].
  assert (scope_sources (query x) = parents) as Hsrc.
  { destruct (query x) as [q|]; [|done]. cbn in *. by rewrite Hscope. }
  rewrite Hsrc in Hvalid.
  destruct (forEach_register v parents s Hvalid) as (s' & Hs' & Ht & _ & Hreg).
  exists s'. split; [done|]. split; [done|].
  intros w y Hy. destruct (Hreg w y Hy) as (y' & Hy' & Hsame & Hkeep & Hnew & Hin).
  exists y'. split; [done|]. split; [done|]. intros c. split; [apply Hnew|].
  intros [Hc|[-> Hw]]; [by apply Hkeep|by apply Hin].
Qed.

Lemma destroy_respects_order fuel v :
  respects (lift (fun _ => destroy_order) any_event) (destroy fuel v).
Proof.
  revert v. induction fuel as [|fuel IH]; intros v; cbn [destroy];
    unfold recordArrayWillDestroy, Object_destroy;
    respects_auto ltac:(idtac; first
      [ apply IH
      | apply respects_modify_view; [apply _|];
        intros [? ? ? [l|] ? [c|] ? ? ? ? ?]; repeat split; simpl; try done;
        apply Set_remove_sub ]).
Qed.

Lemma forEach_deregister_removes v parents s :
  (∀ p, p ∈ parents → is_Some (views s !! p)) →
  ∃ s', forEach parents (fun p => recordArrayWillDestroy p v) s = Ok tt s'
      ∧ ∀ p x', p ∈ parents → views s' !! p = Some x' → ¬ nested_in v x'.
Proof.
  revert s. induction parents as [|p l IH]; intros s Hvalid.
  { exists s. split; [done|]. intros p x' Hp. by apply elem_of_nil in Hp. }
  destruct (Hvalid p) as [xp Hxp]; [by left|].
  cbn [forEach]. unfold recordArrayWillDestroy at 1.
  rewrite bind_assoc, bind_emit.
  erewrite bind_modify_view by (cbn [views]; exact Hxp). cbn [views trace].
  set (s1 := mkState _ _).
  destruct (IH s1) as (s' & Hs' & Hgone).
  { intros p' Hp'. subst s1. cbn [views].
    destruct (decide (p = p')) as [<-|];
      [rewrite lookup_insert_eq; by eexists|].
    rewrite lookup_insert_ne by done. apply Hvalid. by right. }
  exists s'. split; [done|]. intros p' x' Hp' Hx'.
  destruct (decide (p' ∈ l)) as [Hl|Hl]; [by apply (Hgone p')|].
  apply elem_of_cons in Hp' as [->|]; [|done].
  assert (HR : lift (fun _ => destroy_order) any_event s1 s').
  { apply (respects_forEach (lift (fun _ => destroy_order) any_event) l
             (fun p => recordArrayWillDestroy p v)); [|by rewrite Hs'].
    intros p' _. unfold recordArrayWillDestroy.
    respects_auto ltac:(idtac;
      apply respects_modify_view; [apply _|];
      intros [? ? ? [l'|] ? ? ? ? ? ? ?]; repeat split; simpl; try done;
      apply Set_remove_sub). }
  destruct (lift_lookup_inv _ _ _ _ _ _ HR Hx') as (x1 & Hx1 & _ & _ & _ & Hsub).
  subst s1. cbn [views] in Hx1. rewrite lookup_insert_eq in Hx1.
  injection Hx1 as <-. unfold nested_in. intros Hin.
  destruct (nestedRecordArrays xp) as [lp|] eqn:Hlp.
  - replace (nestedRecordArrays (set_nestedRecordArrays _ xp))
      with (Some (Set_remove v lp)) in Hsub by done.
    destruct (nestedRecordArrays x') as [l'|]; [|done]. cbn in Hin, Hsub.
    by apply (Set_remove_not_elem v lp), Hsub.
  - rewrite Hlp in Hsub. destruct (nestedRecordArrays x'); [done|].
    by apply elem_of_nil in Hin.
Qed.

(** [destroy] on a record array that is not destroyed returns, and
    afterwards the record array is registered with none of the record
    arrays in its query scope; no record array gains a nested record array
    in the course of it. *)
Theorem destroy_deregisters depth height fuel v s x :
  destroyable depth height s → views s !! v = Some x →
  isDestroyed x = false → (height v < fuel)%nat →
  ∃ s',
    destroy fuel v s = Ok tt s'
    ∧ (∀ p y', p ∈ scope_sources (query x) → views s' !! p = Some y' →
         ¬ nested_in v y')
    ∧ ∀ w y y' c, views s !! w = Some y → views s' !! w = Some y' →
        nested_in c y' → nested_in c y.
Proof.
  intros Hwf Hx Hd Hlt.
  destruct (destroy_spec depth height fuel v s Hwf) as (s' & t & Hs' & HR & _);
    [by eexists|done|].
  exists s'. split; [done|]. split.
  - destruct fuel as [|fuel]; [lia|]. cbn [destroy] in Hs'.
    rewrite (bind_get_view _ _ _ _ Hx) in Hs'. rewrite Hd in Hs'. cbn [negb] in Hs'.
    rewrite !bind_assoc in Hs'.
    destruct (forEach_deregister_removes v (scope_sources (query x)) s)
      as (s1 & Hs1 & Hgone).
    { intros p Hp. destruct Hwf as ([Hscope _] & _).
      destruct (query x) as [q|] eqn:Hq; [|by apply elem_of_nil in Hp].
      by destruct (Hscope v x q p Hx Hq Hp). }
    unfold bind at 1 in Hs'. rewrite Hs1 in Hs'.
    intros p y' Hp Hy'.
    match type of Hs' with ?k s1 = _ =>
      assert (HR1 : respects (lift (fun _ => destroy_order) any_event) k) end.
    { unfold Object_destroy.
      respects_auto ltac:(idtac; first
        [ apply destroy_respects_order
        | apply respects_modify_view; [apply _|];
          intros [? ? ? [l|] ? [c|] ? ? ? ? ?]; repeat split; simpl; try done ]). }
    specialize (HR1 s1 s'). rewrite Hs' in HR1. specialize (HR1 eq_refl).
    destruct (lift_lookup_inv _ _ _ _ _ _ HR1 Hy') as (y1 & Hy1 & _ & _ & _ & Hsub).
    intros Hin. apply (Hgone p y1 Hp Hy1). unfold nested_in in *.
    destruct (nestedRecordArrays y') as [l'|]; [|by apply elem_of_nil in Hin].
    destruct (nestedRecordArrays y1) as [l1|]; [|done]. by apply Hsub.
  - intros w y y' c Hy Hy' Hin.
    destruct (lift_lookup _ _ _ _ _ _ HR Hy) as (y2 & Hy2 & _ & _ & _ & Hsub).
    rewrite Hy' in Hy2. injection Hy2 as <-. unfold nested_in in *.
    destruct (nestedRecordArrays y') as [l'|]; [|by apply elem_of_nil in Hin].
    destruct (nestedRecordArrays y) as [l1|]; [|done]. by apply Hsub.
Qed.

End Nesting.

End NestingFacts.

(** ** The status callbacks *)

Module StatusFacts.
Import Status StatusDemo.

Lemma to_int32_small n : 0 ≤ n < 2 ^ 31 → to_int32 n = n.
Proof.
  intros Hn. unfold to_int32. cbv zeta.
  rewrite Z.mod_small by lia. destruct (Z.geb_spec n (2 ^ 31)); lia.
Qed.

Section Lifecycle.
Context `{!RecordStatus}.

(** What the callbacks need of the constants: [READY_CLEAN] carries the
    [READY] flag, the other four statuses do not, and the two busy
    statuses differ from each other and from the statuses a fetch starts
    from. *)
Hypothesis READY_CLEAN_ready : js_band READY_CLEAN READY ≠ 0.
Hypothesis EMPTY_not_ready : js_band EMPTY READY = 0.
Hypothesis ERROR_not_ready : js_band ERROR READY = 0.
Hypothesis BUSY_LOADING_not_ready : js_band BUSY_LOADING READY = 0.
Hypothesis BUSY_REFRESH_not_ready : js_band BUSY_REFRESH READY = 0.
Hypothesis busy_distinct : BUSY_LOADING ≠ BUSY_REFRESH.
Hypothesis EMPTY_not_busy : EMPTY ≠ BUSY_LOADING ∧ EMPTY ≠ BUSY_REFRESH.
Hypothesis ERROR_not_busy : ERROR ≠ BUSY_LOADING ∧ ERROR ≠ BUSY_REFRESH.
Hypothesis EMPTY_not_ERROR : EMPTY ≠ ERROR.

Lemma will_fetch_cases status :
  storeWillFetchQuery status
  = if (status =? EMPTY) || (status =? ERROR) then BUSY_LOADING
    else if js_truthy (js_band status READY) then BUSY_REFRESH
    else status.
Proof.
  unfold storeWillFetchQuery. cbv zeta.
  destruct ((status =? EMPTY) || (status =? ERROR)); [|done].
  unfold js_truthy. rewrite BUSY_LOADING_not_ready. done.
Qed.

(** A fetch that starts and is cancelled: an empty record array is empty
    again and a clean one is clean again; an error is forgotten, the
    record array is empty; every other status that carries the [READY] flag
    ends as [READY_CLEAN]; a status that a start leaves alone is left as a
    cancel alone leaves it. *)
Theorem fetch_then_cancel status :
  storeDidCancelQuery (storeWillFetchQuery status)
  = if (status =? EMPTY) || (status =? ERROR) then EMPTY
    else if js_truthy (js_band status READY) then READY_CLEAN
    else storeDidCancelQuery status.
Proof.
  rewrite will_fetch_cases.
  destruct ((status =? EMPTY) || (status =? ERROR)).
  { unfold storeDidCancelQuery. by rewrite Z.eqb_refl. }
  destruct (js_truthy (js_band status READY)); [|done].
  unfold storeDidCancelQuery. rewrite Z.eqb_refl.
  destruct (Z.eqb_spec BUSY_REFRESH BUSY_LOADING); [|done]. by destruct busy_distinct.
Qed.

(** Starting a fetch leaves a busy status from every status a record
    array can be in between fetches, and starting it twice is the same as
    starting it once. *)
Theorem fetch_start_idempotent status :
  storeWillFetchQuery (storeWillFetchQuery status) = storeWillFetchQuery status
  ∧ (status = EMPTY ∨ status = ERROR → storeWillFetchQuery status = BUSY_LOADING)
  ∧ (status = READY_CLEAN → storeWillFetchQuery status = BUSY_REFRESH).
Proof.
  split; [|split].
  - rewrite !will_fetch_cases.
    destruct ((status =? EMPTY) || (status =? ERROR)) eqn:Hstart.
    + destruct (Z.eqb_spec BUSY_LOADING EMPTY) as [He|_];
        [by destruct EMPTY_not_busy as [[] _]|].
      destruct (Z.eqb_spec BUSY_LOADING ERROR) as [He|_];
        [by destruct ERROR_not_busy as [[] _]|].
      cbn [orb]. unfold js_truthy. by rewrite BUSY_LOADING_not_ready.
    + destruct (js_truthy (js_band status READY)) eqn:Hready.
      * destruct (Z.eqb_spec BUSY_REFRESH EMPTY) as [He|_];
          [by destruct EMPTY_not_busy as [_ []]|].
        destruct (Z.eqb_spec BUSY_REFRESH ERROR) as [He|_];
          [by destruct ERROR_not_busy as [_ []]|].
        cbn [orb]. unfold js_truthy. by rewrite BUSY_REFRESH_not_ready.
      * by rewrite Hstart, Hready.
  - intros [-> | ->]; rewrite will_fetch_cases.
    + by rewrite Z.eqb_refl.
    + rewrite Z.eqb_refl. by rewrite orb_true_r.
  - intros ->. rewrite will_fetch_cases.
    destruct (Z.eqb_spec READY_CLEAN EMPTY) as [He|_].
    { rewrite He in READY_CLEAN_ready. done. }
    destruct (Z.eqb_spec READY_CLEAN ERROR) as [He|_].
    { rewrite He in READY_CLEAN_ready. done. }
    cbn [orb]. unfold js_truthy.
    destruct (Z.eqb_spec (js_band READY_CLEAN READY) 0); done.
Qed.

End Lifecycle.

Section Errors.
Context `{!RecordStatus}.
Hypothesis ERROR_flag : js_band ERROR ERROR ≠ 0.
Hypothesis READY_CLEAN_no_error : js_band READY_CLEAN ERROR = 0.


End Errors.

(** A clean record array whose fetch is cancelled. *)
Lemma fetch_then_cancel_witness :
  @storeDidCancelQuery sproutcore_status (@storeWillFetchQuery sproutcore_status 513)
  = 513.
Proof.
  rewrite (@fetch_then_cancel sproutcore_status); [reflexivity|..];
    vm_compute; done.
Defined.

(** A fetch starts twice on an empty record array. *)
Lemma fetch_start_idempotent_witness :
  @storeWillFetchQuery sproutcore_status (@storeWillFetchQuery sproutcore_status 256)
  = @storeWillFetchQuery sproutcore_status 256.
Proof.
  eapply proj1, (@fetch_start_idempotent sproutcore_status);
    vm_compute; first [done|split; done].
Defined.


End StatusFacts.

(** ** Join records *)

Module JoinRecordFacts.
Import JoinRecord JoinRecordDemo.

Section Properties.
Context `{!Records}.

(** What the join record relies on: a record reads what was last written
    under a key, and writing one key leaves the others alone. *)
Hypothesis get_set : ∀ rec key key' value,
  rec_get (rec_set rec key value) key'
  = if decide (key' = key) then value else rec_get rec key'.

Lemma get_of_set_of h record key value record' key' :
  get_of (set_of h record key value) record' key'
  = if decide (is_Some record ∧ record' = record ∧ key' = key) then value
    else get_of h record' key'.
Proof.
  destruct record as [r|], record' as [r'|]; cbn.
  - unfold heap_set. destruct (decide (r' = r)) as [->|Hne].
    + rewrite get_set. destruct (decide (key' = key)) as [->|].
      * by rewrite decide_True.
      * rewrite decide_False; [done|]. by intros (_ & _ & ?).
    + rewrite decide_False; [done|]. intros (_ & [= ->] & _). done.
  - rewrite decide_False; [done|]. by intros (_ & [=] & _).
  - rewrite decide_False; [done|]. by intros ([? [=]] & _).
  - rewrite decide_False; [done|]. by intros ([? [=]] & _).
Qed.


(** After a write of a defined value under a key for which one of the two
    records has a value, a read of that key returns the value written. *)
Theorem unknownProperty_read_after_write j key value h :
  defined value = true →
  defined (fst (unknownProperty j key JUndefined h)) = true →
  fst (unknownProperty j key JUndefined (snd (unknownProperty j key value h)))
  = value.
Proof.
  unfold unknownProperty. cbv zeta. cbn [fst snd defined]. intros Hv.
  rewrite Hv.
  destruct (defined (get_of h (primaryRecord j) key)) eqn:Hp.
  - intros _. rewrite get_of_set_of.
    assert (is_Some (primaryRecord j)) as Hsome.
    { destruct (primaryRecord j); [by eexists|done]. }
    rewrite decide_True by done. by rewrite Hv.
  - intros Hs. rewrite Hs.
    assert (is_Some (secondaryRecord j)) as Hsome.
    { destruct (secondaryRecord j); [by eexists|done]. }
    rewrite !get_of_set_of.
    destruct (decide (is_Some (secondaryRecord j)
                      ∧ primaryRecord j = secondaryRecord j ∧ key = key))
      as [(_ & Heq & _)|_].
    { rewrite Heq in Hp. congruence. }
    rewrite Hp. by rewrite decide_True.
Qed.

End Properties.

Section Variants.
Context `{!Records}.

(** With [preferredRecord] at its default, ['leftRecord'],
    [unknownProperty] is the one of the variant without
    [preferredRecord]; with ['rightRecord'] it is that one on the join
    record with its sides exchanged. *)
Theorem unknownProperty_variants j key value h :
  (preferredRecord j = PreferLeft →
   unknownProperty j key value h = unknownProperty_left j key value h)
  ∧ (preferredRecord j = PreferRight →
     unknownProperty j key value h = unknownProperty_left (swap j) key value h).
Proof.
  unfold unknownProperty, unknownProperty_left, primaryRecord, secondaryRecord.
  split; intros ->; done.
Qed.

(** [recordsMatch] throws exactly when the left or the right record is
    missing. Otherwise two strictly equal keys match, also when both are
    missing; different keys match only in a left join whose left key is
    present and whose right key is [null] or [undefined]. For a join that
    is not a left join the answer does not depend on which side is left. *)
Theorem recordsMatch_spec j h :
  (recordsMatch j h = Err TypeError ↔ leftRecord j = None ∨ rightRecord j = None)
  ∧ (∀ l r, leftRecord j = Some l → rightRecord j = Some r →
       let leftKey := rec_get (h l) (leftJoinKey j) in
       let rightKey := rec_get (h r) (rightJoinKey j) in
       recordsMatch j h
       = Val (bool_decide
                (leftKey = rightKey
                 ∨ (joinType j = JOIN_TYPE_LEFT ∧ SC_none leftKey = false
                    ∧ SC_none rightKey = true))))
  ∧ (joinType j ≠ JOIN_TYPE_LEFT → recordsMatch (swap j) h = recordsMatch j h).
Proof.
  unfold recordsMatch. split; [|split].
  - destruct (leftRecord j), (rightRecord j); cbv zeta;
      repeat case_match; naive_solver.
  - intros l r -> ->. cbv zeta. unfold strict_eq.
    destruct (decide (rec_get (h l) (leftJoinKey j) = rec_get (h r) (rightJoinKey j)))
      as [Heq|Hne].
    { rewrite bool_decide_eq_true_2 by done.
      by rewrite bool_decide_eq_true_2 by by left. }
    rewrite (bool_decide_eq_false_2 _ Hne).
    destruct (SC_none (rec_get (h l) (leftJoinKey j))) eqn:Hl;
      destruct (SC_none (rec_get (h r) (rightJoinKey j))) eqn:Hr;
      destruct (decide (joinType j = JOIN_TYPE_LEFT)) as [Hj|Hj];
      rewrite ?(bool_decide_eq_true_2 _ Hj), ?(bool_decide_eq_false_2 _ Hj);
      cbn [negb andb];
      first [ rewrite bool_decide_eq_true_2 by (right; done); done
            | rewrite bool_decide_eq_false_2 by naive_solver; done ].
  - intros Hj. cbn [swap leftRecord rightRecord leftJoinKey rightJoinKey joinType].
    destruct (leftRecord j) as [l|], (rightRecord j) as [r|]; try done.
    cbv zeta. rewrite (bool_decide_eq_false_2 _ Hj). rewrite !andb_false_r.
    unfold strict_eq.
    destruct (decide (rec_get (h l) (leftJoinKey j) = rec_get (h r) (rightJoinKey j)))
      as [Heq|Hne].
    + rewrite !bool_decide_eq_true_2 by done. done.
    + rewrite !bool_decide_eq_false_2 by done. done.
Qed.

End Variants.

Lemma map_records_get_set (rec : gmap string JSVal) key key' value :
  @rec_get map_records (@rec_set map_records rec key value) key'
  = if decide (key' = key) then value else @rec_get map_records rec key'.
Proof.
  cbn. destruct (decide (key' = key)) as [->|Hne].
  - by rewrite lookup_insert_eq.
  - by rewrite lookup_insert_ne.
Qed.


Lemma unknownProperty_read_after_write_witness :
  fst (@unknownProperty map_records pair_join "age" JUndefined
         (snd (@unknownProperty map_records pair_join "age" (JNum 37) people)))
  = JNum 37.
Proof.
  apply (@unknownProperty_read_after_write map_records map_records_get_set);
    reflexivity.
Defined.

Lemma unknownProperty_variants_witness :
  @unknownProperty map_records pair_join "age" (JNum 37) people
  = @unknownProperty_left map_records pair_join "age" (JNum 37) people.
Proof.
  apply (proj1 (@unknownProperty_variants map_records pair_join "age" (JNum 37)
                  people)).
  reflexivity.
Defined.

Lemma recordsMatch_spec_witness :
  @recordsMatch map_records (swap pair_join) people
  = @recordsMatch map_records pair_join people.
Proof.
  apply (proj2 (proj2 (@recordsMatch_spec map_records pair_join people))).
  discriminate.
Defined.

End JoinRecordFacts.

(** ** Iteration *)

Module IterationFacts.
Import RecordArray Vocabulary VocabularyMore VocabularyAccess.
Import Effects FlushFrame FlushFacts CacheFacts FlushInvariant AccessFacts.
Import Iteration VocabularyIteration.

Section Iterate.
Context `{!Collaborators}.

Lemma visit_spec keys idx recs :
  0 ≤ idx → agrees keys idx recs →
  let '(recs', calls) := visit keys idx recs in
  calls = imap (fun i k => (mkRecord k, idx + Z.of_nat i)) keys
  ∧ (∀ j, Cache.get_at recs' j
          = if decide (idx ≤ j < idx + Z.of_nat (List.length keys))
            then mkRecord <$> keys !! Z.to_nat (j - idx)
            else Cache.get_at recs j).
Proof.
  revert idx recs. induction keys as [|k keys IH]; intros idx recs Hidx Hagree.
  { cbn. split; [done|]. intros j. rewrite decide_False by lia. done. }
  cbn [visit].
  assert (Hhead : ∀ r, Cache.get_at recs idx = Some r → r = mkRecord k).
  { intros r Hr. specialize (Hagree 0%nat r). rewrite Z.add_0_r in Hagree.
    specialize (Hagree Hr). cbn in Hagree. injection Hagree as ->. by destruct r. }
  set (step := match Cache.get_at recs idx with
               | Some rec => (rec, recs)
               | None => (mkRecord k, Cache.set_at recs idx (Some (mkRecord k)))
               end).
  assert (Hstep : fst step = mkRecord k
                  ∧ ∀ j, Cache.get_at (snd step) j
                         = if decide (j = idx) then Some (mkRecord k)
                           else Cache.get_at recs j).
  { subst step. destruct (Cache.get_at recs idx) as [r|] eqn:Hr; cbn [fst snd].
    - split; [by apply Hhead|]. intros j. case_decide as Hj; [|done].
      subst j. rewrite Hr. f_equal. by apply Hhead.
    - split; [done|]. intros j. rewrite get_at_set_at.
      destruct (decide (j = idx)) as [->|Hne].
      + by rewrite decide_True.
      + rewrite decide_False; [done|]. by intros [? _]. }
  destruct step as [rec recs1]. cbn [fst snd] in Hstep. destruct Hstep as [-> Hrecs1].
  specialize (IH (idx + 1) recs1).
  destruct (visit keys (idx + 1) recs1) as [recs2 calls].
  destruct IH as [Hcalls Hrecs2]; [lia| |].
  { intros i r Hr. rewrite Hrecs1 in Hr. rewrite decide_False in Hr by lia.
    specialize (Hagree (S i) r). apply Hagree.
    replace (idx + Z.of_nat (S i)) with (idx + 1 + Z.of_nat i) by lia. done. }
  split.
  { cbn [imap]. rewrite Z.add_0_r. f_equal. rewrite Hcalls.
    apply imap_ext. intros i x _. cbn. f_equal. lia. }
  intros j. rewrite Hrecs2. cbn [List.length].
  destruct (decide (idx + 1 ≤ j < idx + 1 + Z.of_nat (List.length keys))) as [Hin|Hout].
  - rewrite decide_True by lia.
    replace (Z.to_nat (j - idx)) with (S (Z.to_nat (j - (idx + 1)))) by lia. done.
  - rewrite Hrecs1. destruct (decide (j = idx)) as [->|Hne].
    + rewrite decide_True by lia. by rewrite Z.sub_diag.
    + rewrite decide_False by lia. done.
Qed.

(** [forEach] flushes and then calls the callback once for every index
    of [storeKeys], in order, with the record of the store key at that
    index. It asks the store to retrieve nothing, writes nothing but the
    cache of the record array, and leaves the record of every index in the
    cache, so that [objectAt] answers from the cache afterwards. Without
    [storeKeys] or without a store it makes no call. *)
Theorem forEach_spec depth fuel v s :
  well_formed depth s → is_Some (views s !! v) → (depth v < fuel)%nat →
  all_views coherent s →
  ∃ calls s' sf xf self',
    forEach fuel v s = Ok calls s'
    ∧ flush fuel v false s = Ok tt sf ∧ views sf !! v = Some xf
    ∧ trace s' = trace sf
    ∧ views s' !! v = Some self'
    ∧ self' = set_scra_records (_scra_records self') xf
    ∧ (∀ w, w ≠ v → views s' !! w = views sf !! w)
    ∧ all_views coherent s'
    ∧ match storeKeys xf, store xf with
      | Some keys, Some _ =>
          calls = imap (fun i k => (mkRecord k, Z.of_nat i)) (arr_elems keys)
          ∧ (∃ recs', _scra_records self' = Some recs'
               ∧ ∀ (i : nat) k, arr_elems keys !! i = Some k →
                   Cache.get_at recs' (Z.of_nat i) = Some (mkRecord k))
          ∧ ∀ fuel2 (i : nat) k, arr_elems keys !! i = Some k →
              objectAt (S fuel2) v (Z.of_nat i) s' = Ok (Some (mkRecord k)) s'
      | _, _ => calls = [] ∧ s' = sf
      end.
Proof.
  intros Hwf Hv Hd Hs.
  destruct (flush_coherent depth fuel v false s Hwf Hv Hd Hs) as (sf & Hsf & Hcf).
  destruct (flush_leaves_idle _ _ _ _ _ Hsf) as (xf & Hxf & Hidle).
  assert (Hx : coherent xf) by by apply (Hcf v).
  unfold forEach, bind at 1. rewrite Hsf. rewrite (bind_get_view _ _ _ _ Hxf).
  destruct (storeKeys xf) as [keys|] eqn:Hkeys.
  2: { exists [], sf, sf, xf, xf. do 5 (split; [done|]).
       split; [by destruct xf|]. split; [done|]. split; [done|]. by rewrite Hkeys. }
  destruct (store xf) as [st|] eqn:Hst.
  2: { exists [], sf, sf, xf, xf. do 5 (split; [done|]).
       split; [by destruct xf|]. split; [done|]. split; [done|].
       by rewrite Hkeys, Hst. }
  pose proof (visit_spec (arr_elems keys) 0 (default [] (_scra_records xf))) as Hvisit.
  destruct (visit (arr_elems keys) 0 (default [] (_scra_records xf)))
    as [recs' calls].
  destruct Hvisit as [Hcalls Hrecs']; [lia| |].
  { intros i r Hr. rewrite Z.add_0_l in Hr.
    destruct (_scra_records xf) as [recs|] eqn:Hrecs; cbn [default] in Hr.
    - pose proof (Hx recs (Z.of_nat i) r Hrecs Hr) as Hk.
      rewrite Hkeys in Hk. cbn in Hk. by rewrite DifferFacts.js_index_nat in Hk.
    - unfold Cache.get_at in Hr. rewrite lookup_nil in Hr.
      by destruct (_ <? _). }
  rewrite (bind_modify_view _ _ _ _ _ Hxf). unfold ret.
  eexists calls, _, sf, xf, _. split; [done|]. split; [done|]. split; [done|].
  cbn [views trace]. split; [done|]. split; [by rewrite lookup_insert_eq|].
  split; [by destruct xf|]. split; [intros w Hw; by rewrite lookup_insert_ne|].
  assert (Hget : ∀ (i : nat) k, arr_elems keys !! i = Some k →
                   Cache.get_at recs' (Z.of_nat i) = Some (mkRecord k)).
  { intros i k Hk. rewrite Hrecs'. rewrite decide_True.
    - rewrite Z.sub_0_r, Nat2Z.id, Hk. done.
    - apply lookup_lt_Some in Hk. lia. }
  split.
  { apply all_views_insert; [done|]. intros recs i r [= <-] Hr.
    change (storeKeys (set_scra_records _ xf)) with (storeKeys xf).
    rewrite Hkeys. cbn [elems_of]. rewrite Hrecs' in Hr.
    destruct (decide (0 ≤ i < 0 + Z.of_nat (List.length (arr_elems keys))))
      as [Hin|Hout].
    - rewrite Z.sub_0_r in Hr.
      destruct (arr_elems keys !! Z.to_nat i) as [k|] eqn:Hk; [|done].
      injection Hr as <-. cbn. unfold js_index.
      destruct (Z.ltb_spec i 0); [lia|done].
    - destruct (_scra_records xf) as [recs|] eqn:Hrecs; cbn [default] in Hr.
      + pose proof (Hx recs i r Hrecs Hr) as Hk. by rewrite Hkeys in Hk.
      + unfold Cache.get_at in Hr. rewrite lookup_nil in Hr.
        by destruct (_ <? _). }
  rewrite Hkeys, Hst. split.
  { rewrite Hcalls. apply imap_ext. intros i k _. cbn. f_equal. }
  split; [by eexists|].
  intros fuel2 i k Hk. unfold objectAt, bind at 1.
  set (s' := mkState _ _).
  assert (Hx' : views s' !! v = Some (set_scra_records (Some recs') xf))
    by apply lookup_insert_eq.
  rewrite (flush_idle _ _ _ _ Hx') by by destruct xf.
  rewrite (bind_get_view _ _ _ _ Hx').
  replace (storeKeys (set_scra_records (Some recs') xf)) with (Some keys)
    by by destruct xf; simpl in *; subst.
  replace (store (set_scra_records (Some recs') xf)) with (Some st)
    by by destruct xf; simpl in *; subst.
  cbn. by rewrite (Hget i k Hk).
Qed.

End Iterate.

End IterationFacts.

(** ** Observing [storeKeys] *)

Module ObserverFacts.
Import Observers.

Lemma observed_app w e1 e2 : observed w (e1 ++ e2) = observed (observed w e1) e2.
Proof. apply foldl_app. Qed.

Lemma storeKeysDidChange_step length_of o :
  let '(o', events) := _storeKeysDidChange length_of o in
  _prevStoreKeys o' = ob_storeKeys o ∧ ob_storeKeys o' = ob_storeKeys o
  ∧ observed (holding (_prevStoreKeys o)) events = holding (ob_storeKeys o).
Proof.
  unfold _storeKeysDidChange. cbv zeta.
  destruct (bool_decide_reflect (ob_storeKeys o = _prevStoreKeys o)) as [Heq|Hne].
  { by rewrite Heq. }
  destruct (_prevStoreKeys o) as [| |p], (ob_storeKeys o) as [| |k];
    cbn; (split; [done|]); (split; [done|]);
    try assert (p ≠ k) by congruence; set_solver.
Qed.

(** Whatever arrays are assigned to [storeKeys] one after the other, when
    the observer has fired each time the observers of the record array
    are on the array it holds and on no other, and an observer that fires
    again without a new assignment does nothing. *)
Theorem storeKeys_observers_follow o steps :
  let '(o', events) := assign_all o steps in
  observed (holding (_prevStoreKeys o)) events = holding (_prevStoreKeys o')
  ∧ (∀ step, last steps = Some step →
       ob_storeKeys o' = fst step ∧ _prevStoreKeys o' = fst step
       ∧ ∀ length_of, _storeKeysDidChange length_of o' = (o', [])).
Proof.
  revert o. induction steps as [|step steps IH]; intros o.
  { cbn. split; [done|]. intros step [=]. }
  cbn [assign_all]. unfold assign.
  pose proof (storeKeysDidChange_step (snd step)
                (mkObserving (fst step) (_prevStoreKeys o) (ob_scra_records o)))
    as Hstep.
  destruct (_storeKeysDidChange _ _) as [o1 events1]. cbn in Hstep.
  destruct Hstep as (Hprev1 & Hkeys1 & Hobs1).
  specialize (IH o1). destruct (assign_all o1 steps) as [o2 events2] eqn:Hall.
  destruct IH as (Hobs2 & Hlast).
  split.
  - rewrite observed_app, Hobs1, <- Hprev1. done.
  - intros step' Hstep'. destruct steps as [|step2 steps'].
    + cbn in Hstep', Hall. injection Hstep' as <-. injection Hall as <- <-.
      split; [done|]. split; [done|]. intros length_of.
      unfold _storeKeysDidChange. cbv zeta.
      rewrite bool_decide_eq_true_2; [done|congruence].
    + apply Hlast. done.
Qed.

End ObserverFacts.

(** ** The properties on the example arenas *)

Module MoreExamples.
Import RecordArray Vocabulary VocabularyMore VocabularyAccess VocabularyLeafs.
Import VocabularyNesting VocabularyIteration Iteration.
Import Effects FlushFrame FlushFacts DirtyFacts StoreFacts DestroyFacts.
Import FlushInvariant AccessFacts FlushEdges LeafFacts NestingFacts IterationFacts.
Import Demo DemoStates Examples.

(** A cache that holds the record of every store key is coherent. *)
Lemma coherent_full_cache x keys :
  storeKeys x = Some keys →
  _scra_records x = Some ((fun k => Some (mkRecord k)) <$> arr_elems keys) →
  coherent x.
Proof.
  intros Hk Hc recs i r Hrecs Hget. rewrite Hc in Hrecs. injection Hrecs as <-.
  rewrite Hk. cbn [elems_of]. unfold Cache.get_at in Hget. unfold js_index.
  destruct (i <? 0); [done|]. rewrite list_lookup_fmap in Hget.
  destruct (arr_elems keys !! Z.to_nat i) as [k|]; [|done].
  cbn in Hget. by injection Hget as <-.
Qed.

Lemma single_coherent x : coherent x → all_views coherent (single x).
Proof.
  intros Hx. unfold all_views, single. cbn [views].
  apply map_Forall_insert_2; [done|]. apply map_Forall_empty.
Qed.

Lemma dirty_view_coherent : coherent dirty_view.
Proof. by apply (coherent_full_cache _ (mkArray 1 [1; 2; 3])). Qed.

Lemma family_coherent parent child :
  coherent parent → coherent child → all_views coherent (family parent child).
Proof.
  intros Hp Hc. unfold all_views, family. cbn [views].
  apply map_Forall_insert_2.
  { intros recs i r. apply Hp. }
  apply map_Forall_insert_2; [|apply map_Forall_empty].
  intros recs i r. apply Hc.
Qed.


Lemma unregistered_lookup_0 : views unregistered !! 0%nat = Some clean_view.
Proof. unfold unregistered. cbn [views]. by rewrite lookup_insert_eq. Qed.

Lemma unregistered_lookup_1 :
  views unregistered !! 1%nat = Some (child_view clean_view).
Proof.
  unfold unregistered. cbn [views].
  rewrite lookup_insert_ne by done. by rewrite lookup_insert_eq.
Qed.

(** The single record array over [[1, 2, 3]] is flushed. *)
Lemma flush_keeps_cache_coherent_witness :
  ∃ s', flush 1 0%nat false (single dirty_view) = Ok tt s'
      ∧ ∀ w x recs i r,
          views s' !! w = Some x → _scra_records x = Some recs →
          Cache.get_at recs i = Some r →
          js_index (elems_of (storeKeys x)) i = Some (rec_storeKey r).
Proof.
  apply (flush_keeps_cache_coherent (fun _ => 0%nat)).
  - by apply single_well_formed.
  - eexists. arena_lookup.
  - lia.
  - apply single_coherent, dirty_view_coherent.
Defined.

(** [length] of the single record array over [[1, 2, 3]]. *)
Lemma length_spec_witness :
  ∃ n s' self',
    length 1 0%nat (single dirty_view) = Ok n s'
    ∧ flush 1 0%nat false (single dirty_view) = Ok tt s'
    ∧ views s' !! 0%nat = Some self'
    ∧ n = js_length (elems_of (storeKeys self'))
    ∧ 0 ≤ n
    ∧ ∀ fuel2, length (S fuel2) 0%nat s' = Ok n s'.
Proof.
  apply (length_spec (fun _ => 0%nat)).
  - by apply single_well_formed.
  - eexists. arena_lookup.
  - lia.
Defined.


(** [objectAt(1)] twice on the single record array over [[1, 2, 3]]. *)
Lemma objectAt_again_witness :
  ∃ s', objectAt 1 0%nat 1 (single dirty_view) = Ok (Some (mkRecord 4)) s'
      ∧ objectAt 1 0%nat 1 s' = Ok (Some (mkRecord 4)) s'.
Proof.
  eexists. split; [vm_compute; reflexivity|].
  apply (objectAt_again 1 0 0%nat 1 (single dirty_view)).
  vm_compute. reflexivity.
Defined.

(** The single record array over [[1, 2, 3]] is disabled. *)
Lemma disabled_serves_stale_witness :
  ∃ s1,
    disable 0%nat (single dirty_view) = Ok tt s1
    ∧ views s1 = <[0%nat := set_enabled false dirty_view]> (views (single dirty_view))
    ∧ trace s1 = trace (single dirty_view)
    ∧ ∀ fuel f,
        flush (S fuel) 0%nat f s1 = Ok tt s1
        ∧ length (S fuel) 0%nat s1 = Ok 3 s1.
Proof. apply (disabled_serves_stale 0%nat (single dirty_view) dirty_view). arena_lookup. Defined.

(** A record array over a remote query is flushed. *)
Lemma flush_not_local_witness :
  flush 1 0%nat false (single remote_view)
  = Ok tt (mkState (<[0%nat := set_needsFlush false remote_view]>
                      (views (single remote_view))) []).
Proof.
  apply (flush_not_local 0 0%nat false (single remote_view) remote_view);
    [arena_lookup|reflexivity|reflexivity|reflexivity|].
  right. right. by eexists.
Defined.

(** A flushed record array is reloaded. *)
Lemma reload_without_changes_witness :
  reload 1 0%nat (single clean_view)
  = Ok tt (mkState (<[0%nat := set_needsFlush false clean_view]>
                      (views (single clean_view))) []).
Proof.
  apply (reload_without_changes 0 0%nat (single clean_view) clean_view
           local_query 0%nat); [arena_lookup|reflexivity..].
Defined.

(** The nested record array of [family] is flushed. *)
Lemma flush_returns_and_frames_witness :
  ∃ s',
    flush 2 1%nat false (family dirty_view dirty_view) = Ok tt s'
    ∧ (∀ w, is_Some (views s' !! w)
            ↔ is_Some (views (family dirty_view dirty_view) !! w))
    ∧ ∀ w x x', views (family dirty_view dirty_view) !! w = Some x →
        views s' !! w = Some x' →
        store x' = store x ∧ query x' = query x ∧ enabled x' = enabled x
        ∧ nestedRecordArrays x' = nestedRecordArrays x
        ∧ isDestroyed x' = isDestroyed x
        ∧ (needsFlush x' = true → needsFlush x = true)
        ∧ (is_Some (storeKeys x) → is_Some (storeKeys x')).
Proof.
  apply (flush_returns_and_frames (fun v => v)).
  - by apply family_well_formed.
  - eexists. arena_lookup.
  - lia.
Defined.

(** The nested record array of [family] is flushed, and its parent with
    it. *)
Lemma flush_merges_at_most_once_witness :
  ∃ s' t,
    flush 2 1%nat false (family dirty_view dirty_view) = Ok tt s'
    ∧ trace s' = trace (family dirty_view dirty_view) ++ t
    ∧ (List.length (merge_calls 1%nat t) ≤ 1)%nat
    ∧ (List.length (notifications_of 1%nat t)
       ≤ List.length (merge_calls 1%nat t))%nat.
Proof.
  apply (flush_merges_at_most_once (fun v => v) 1 1%nat false).
  - by apply family_well_formed.
  - eexists. arena_lookup.
  - lia.
Defined.

(** The single record array over [[1, 2, 3]] is flushed. *)
Lemma flush_settles_witness :
  ∃ s' self',
    flush 1 0%nat false (single dirty_view) = Ok tt s'
    ∧ views s' !! 0%nat = Some self'
    ∧ needsFlush self' = false ∧ _insideFlush self' = false
    ∧ _flushed self' = true ∧ _scra_changedStoreKeys self' = None.
Proof.
  apply (flush_settles (fun _ => 0%nat) 0 0%nat false (single dirty_view)
           dirty_view local_query).
  - by apply single_well_formed.
  - arena_lookup.
  - lia.
  - repeat split; first [reflexivity|by eexists].
  - apply not_elem_of_nil.
Defined.


(** A record array that has lost its nested record arrays, disabled. *)
Lemma emptied_parent_is_not_flushed_witness :
  flushFromLeafs 1 0%nat (single (set_enabled false emptied_view))
  = Ok tt (single (set_enabled false emptied_view))
  ∧ enable 1 0%nat (single (set_enabled false emptied_view))
    = Ok tt (mkState (<[0%nat := set_enabled true (set_enabled false emptied_view)]>
                        (views (single (set_enabled false emptied_view)))) []).
Proof.
  destruct (emptied_parent_is_not_flushed 0 0%nat
              (single (set_enabled false emptied_view))
              (set_enabled false emptied_view)) as [Hleafs Henable];
    [arena_lookup|reflexivity|].
  split; [exact Hleafs|]. by apply Henable.
Defined.

(** The disabled record array is enabled again. *)
Lemma enable_flushes_leaf_witness :
  ∃ s' x',
    enable 2 0%nat (single disabled_view) = Ok tt s'
    ∧ views s' !! 0%nat = Some x'
    ∧ enabled x' = true ∧ needsFlush x' = false.
Proof.
  destruct (enable_flushes_leaf (fun _ => 0%nat) 0 0%nat (single disabled_view)
              disabled_view) as [_ Henable].
  - by apply single_well_formed.
  - arena_lookup.
  - lia.
  - by apply Henable.
Defined.

(** Record array 1 registers with record array 0, its scope. *)
Lemma registerWithParents_spec_witness :
  ∃ s', registerWithParents 1%nat unregistered = Ok tt s'
      ∧ trace s' = trace unregistered
      ∧ ∀ w y, views unregistered !! w = Some y →
          ∃ y', views s' !! w = Some y'
            ∧ y' = set_nestedRecordArrays (nestedRecordArrays y') y
            ∧ (∀ c, nested_in c y' ↔ nested_in c y ∨ (c = 1%nat ∧ w ∈ [0%nat])).
Proof.
  apply (registerWithParents_spec 1%nat unregistered (child_view clean_view)).
  - apply unregistered_lookup_1.
  - intros p Hp. apply list_elem_of_singleton in Hp as ->.
    eexists. apply unregistered_lookup_0.
Defined.

(** Record array 1 of [tree] is destroyed. *)
Lemma destroy_deregisters_witness :
  ∃ s',
    destroy 4 1%nat tree = Ok tt s'
    ∧ (∀ p y', p ∈ [0%nat] → views s' !! p = Some y' → ¬ nested_in 1%nat y')
    ∧ ∀ w y y' c, views tree !! w = Some y → views s' !! w = Some y' →
        nested_in c y' → nested_in c y.
Proof.
  apply (destroy_deregisters (fun v => v) (fun v => (4 - v)%nat) 4 1%nat tree
           (set_nestedRecordArrays (Some [2%nat; 3%nat]) (child_view clean_view))).
  - apply tree_destroyable.
  - arena_lookup.
  - reflexivity.
  - simpl. lia.
Defined.

(** [forEach] on the single record array over [[1, 2, 3]]. *)
Lemma forEach_spec_witness :
  ∃ calls s' sf xf,
    forEach 1 0%nat (single dirty_view) = Ok calls s'
    ∧ flush 1 0%nat false (single dirty_view) = Ok tt sf
    ∧ views sf !! 0%nat = Some xf
    ∧ trace s' = trace sf
    ∧ all_views coherent s'.
Proof.
  destruct (forEach_spec (fun _ => 0%nat) 1 0%nat (single dirty_view))
    as (calls & s' & sf & xf & self' & Hcalls & Hsf & Hxf & Ht & _ & _ & _ & Hcoh & _).
  - by apply single_well_formed.
  - eexists. arena_lookup.
  - lia.
  - apply single_coherent, dirty_view_coherent.
  - by exists calls, s', sf, xf.
Defined.

End MoreExamples.
